(** * The inbound message processor of the gossip node (package processor)

    A shallow embedding of processor.go: the worker dispatch, the two
    request handlers, SerializeAndEmit and the WorkUnit state machine
    driven by processWorkUnit, followed by the properties of the
    processor's specification.

    Effects are kept as the code has them.  Every call the processor makes
    on a collaborator (peer manager, peer, metrics, event bus, request
    queue, tangle) is appended, in program order, to a log; the state of
    the collaborators the processor reads back from (tangle storage and
    request queue) is an abstract environment threaded through the calls.

    After the processor come FindAllTails of package dag and the pruning
    functions of plugin snapshot, each with its own interface to the
    tangle. *)

From Stdlib Require Import Strings.Byte.
From stdpp Require Import base option list strings gmap countable.

Set Default Proof Using "Type".

(** ** Bytes, peers and wire constants *)

(** Go's []byte; hornet.Hash is a []byte too. *)
Abbreviation bytes := (list byte).

#[global] Instance byte_eq_dec : EqDecision byte := Byte.byte_eq_dec.
#[global] Instance byte_countable : Countable byte :=
  inj_countable Byte.to_N Byte.of_N Byte.of_to_N.

(** A *peer.Peer is identified by its ID field. *)
Definition PeerID := string.

(** message.Type is a byte-sized tag; milestone indices are unsigned. *)
Definition MessageType := N.
Definition MilestoneIndex := N.

(** ** Collaborators

    Everything the processor imports from other packages.  Their code is
    not part of the processor, so it is an interface here, as rqueue.Queue
    is in the source. *)
Class Collaborators := {
  (** state of the tangle storage and of the request queue *)
  Env : Type;
  (** *tangle.Message, *rqueue.Request, the sting wire message,
      iotago.DeSerializationMode, Go's error, a cached milestone *)
  Message : Type;
  Request : Type;
  WireMessage : Type;
  DeSeriMode : Type;
  GoError : Type;
  Milestone : Type;

  DeSeriModePerformValidation : DeSeriMode;
  (** msg.GetMessageID() and the RawBytes field *)
  GetMessageID : Message → bytes;
  RawBytes : Message → bytes;
  (** tangle.MessageFromBytes(data, mode): a message or an error *)
  MessageFromBytes : bytes → DeSeriMode → GoError + Message;
  (** msg.GetMessage().Serialize(mode): the bytes or an error *)
  Serialize : Message → DeSeriMode → GoError + bytes;

  (** requestQueue.Received(id): the matching request, if one was
      outstanding, and the queue afterwards *)
  Received : bytes → Env → option Request * Env;
  (** tangle.ContainsMessage, tangle.GetCachedMessageOrNil,
      tangle.GetLatestMilestoneIndex, tangle.GetMilestoneOrNil *)
  ContainsMessage : bytes → Env → bool;
  GetCachedMessageOrNil : bytes → Env → option Message;
  GetLatestMilestoneIndex : Env → MilestoneIndex;
  GetMilestoneOrNil : MilestoneIndex → Env → option Milestone;
  (** cachedReqMs.GetMessage().GetTransactions(), each element read
      through GetTransaction().RawBytes, in enumeration order *)
  GetTransactionsRawBytes : Milestone → list bytes;

  (** package sting *)
  MessageTypeTransaction : MessageType;
  MessageTypeTransactionRequest : MessageType;
  MessageTypeMilestoneRequest : MessageType;
  LatestMilestoneRequestIndex : MilestoneIndex;
  ExtractRequestedMilestoneIndex : bytes → GoError + MilestoneIndex;
  (** first result of sting.NewTransactionMessage; the source discards
      the error *)
  NewTransactionMessage : bytes → WireMessage;

  (** membership in the static table invalidMilestoneHashes *)
  invalidMilestoneHashes : bytes → bool;
}.

Section Processor.
Context `{C : Collaborators}.

(** ** Events and the effect log *)

(** bqueue.Broadcast: the struct literal of the source names MsgData; the
    exclusion set is the second field of the value. *)
Record Broadcast := {
  MsgData : bytes;
  ExcludePeers : gset PeerID;
}.

(** The two events of the Events struct with their handler parameters; a
    nil request or peer is None. *)
Inductive Event :=
| MessageProcessed (msg : Message) (request : option Request) (p : option PeerID)
| BroadcastMessage (b : Broadcast).

Inductive Effect :=
| PmRemove (p : PeerID)                        (* proc.pm.Remove(p.ID) *)
| IncInvalidRequests                           (* SharedServerMetrics.InvalidRequests.Inc() *)
| IncInvalidTransactions                       (* SharedServerMetrics.InvalidTransactions.Inc() *)
| IncKnownTransactions                         (* SharedServerMetrics.KnownTransactions.Inc() *)
| PeerIncKnownTransactions (p : PeerID)        (* p.Metrics.KnownTransactions.Inc() *)
| EnqueueForSending (p : PeerID) (m : WireMessage)
| Trigger (e : Event)                          (* proc.Events.<event>.Trigger(...) *)
| CallMessageFromBytes (data : bytes)          (* tangle.MessageFromBytes(data, _) *)
| CallReceived (id : bytes)                    (* proc.requestQueue.Received(id) *)
| CallContainsMessage (id : bytes).            (* tangle.ContainsMessage(id) *)

(** Subscribed handlers run synchronously inside Trigger and may change
    the collaborators' state (storing a processed message, for one). *)
Record Handlers := {
  onEvent : Event → Env → Env;
}.

Record World := {
  env : Env;
  log : list Effect;
}.

(** ** Observations on a log *)

Definition firedEvents (l : list Effect) : list Event :=
  omap (λ e, match e with Trigger ev => Some ev | _ => None end) l.

Definition removedPeers (l : list Effect) : list PeerID :=
  omap (λ e, match e with PmRemove p => Some p | _ => None end) l.

Definition enqueued (l : list Effect) : list (PeerID * WireMessage) :=
  omap (λ e, match e with EnqueueForSending p m => Some (p, m) | _ => None end) l.

(** The probes of the tangle and the events fired, in the order they
    happened. *)
Inductive Observed :=
| Probed (id : bytes)
| Fired (ev : Event).

Definition probesAndEvents (l : list Effect) : list Observed :=
  omap (λ e, match e with
             | CallContainsMessage id => Some (Probed id)
             | Trigger ev => Some (Fired ev)
             | _ => None
             end) l.

Fixpoint count {A} (f : A → bool) (l : list A) : nat :=
  match l with
  | [] => 0
  | x :: l' => (if f x then 1 else 0) + count f l'
  end.

Definition isIncInvalidRequests (e : Effect) : bool :=
  match e with IncInvalidRequests => true | _ => false end.
Definition isIncInvalidTransactions (e : Effect) : bool :=
  match e with IncInvalidTransactions => true | _ => false end.
Definition isIncKnownTransactions (e : Effect) : bool :=
  match e with IncKnownTransactions => true | _ => false end.
Definition isPeerIncKnownTransactions (q : PeerID) (e : Effect) : bool :=
  match e with PeerIncKnownTransactions p => bool_decide (p = q) | _ => false end.
Definition isCallMessageFromBytes (k : bytes) (e : Effect) : bool :=
  match e with CallMessageFromBytes d => bool_decide (d = k) | _ => false end.

(** The counters as numbers of Inc calls. *)
Definition InvalidRequests (l : list Effect) : nat := count isIncInvalidRequests l.
Definition InvalidTransactions (l : list Effect) : nat := count isIncInvalidTransactions l.
Definition KnownTransactions (l : list Effect) : nat := count isIncKnownTransactions l.
Definition PeerKnownTransactions (q : PeerID) (l : list Effect) : nat :=
  count (isPeerIncKnownTransactions q) l.
Definition parses (k : bytes) (l : list Effect) : nat := count (isCallMessageFromBytes k) l.

(** ** The processor monad: a world, and None for a Go panic *)

Definition M (A : Type) : Type := World → option (A * World).

Definition ret {A} (a : A) : M A := λ w, Some (a, w).
Definition bind {A B} (m : M A) (k : A → M B) : M B :=
  λ w, match m w with
       | Some (a, w') => k a w'
       | None => None
       end.
Definition panic {A} : M A := λ _, None.

Notation "x ←' m ; k" := (bind m (λ x, k))
  (at level 100, m at next level, right associativity, only parsing).
Notation "m ;;' k" := (bind m (λ _, k))
  (at level 100, right associativity, only parsing).

(** The world after the effects [l] were logged on top of [w]. *)
Definition logged (w : World) (l : list Effect) : World :=
  {| env := env w; log := log w ++ l |}.

Definition emit (e : Effect) : M unit :=
  λ w, Some (tt, logged w [e]).

Definition readEnv {A} (f : Env → A) : M A := λ w, Some (f (env w), w).

Variable handlers : Handlers.

(** Event.Trigger: the firing is observable, then the handlers run. *)
Definition trigger (ev : Event) : M unit :=
  λ w, Some (tt, {| env := onEvent handlers ev (env w); log := log w ++ [Trigger ev] |}).

Definition callReceived (id : bytes) : M (option Request) :=
  λ w, let '(r, e') := Received id (env w) in
       Some (r, {| env := e'; log := log w ++ [CallReceived id] |}).

Definition callContainsMessage (id : bytes) : M bool :=
  emit (CallContainsMessage id) ;;' readEnv (ContainsMessage id).

Fixpoint forEach {A} (l : list A) (body : A → M unit) : M unit :=
  match l with
  | [] => ret tt
  | x :: l' => body x ;;' forEach l' body
  end.

(** A computation that, when it returns, returns a value satisfying [Q]
    and has made no call of MessageFromBytes. *)
Definition ensures {A} (m : M A) (Q : A → Prop) : Prop :=
  ∀ w a w', m w = Some (a, w') →
    Q a ∧ ∀ k, parses k (log w') = parses k (log w).

(** ** WorkUnit

    The WorkUnit type and its methods are declared in a file of the
    package that is not among the sources at hand; processor.go calls them
    and reads the fields named below. *)

(** Modelled from the spec: the WorkUnitState constants.  The data model
    gives the four values, Unhashed being the initial one. *)
Inductive WorkUnitState := Unhashed | Hashing | Hashed | Invalid.

#[global] Instance WorkUnitState_eq_dec : EqDecision WorkUnitState.
Proof. solve_decision. Defined.

(** Modelled from the spec: the WorkUnit struct.  processor.go reads
    receivedMsgBytes and receivedTxHash and writes receivedMsgID and msg;
    the state and the received_from set of (peer, optional request) are
    those of the data model.  The two locks are what makes the steps below
    atomic and carry no data. *)
Record WorkUnit := {
  receivedMsgBytes : bytes;
  receivedTxHash : bytes;
  state : WorkUnitState;
  receivedMsgID : option bytes;
  msg : option Message;
  receivedFrom : gmap PeerID (option Request);
}.

(** Modelled from the spec: newWorkUnit.  A WorkUnit is created in state
    Unhashed with its received bytes set; every other field has Go's zero
    value. *)
Definition newWorkUnit (receivedTxBytes : bytes) : WorkUnit :=
  {| receivedMsgBytes := receivedTxBytes; receivedTxHash := [];
     state := Unhashed; receivedMsgID := None; msg := None;
     receivedFrom := ∅ |}.

(** Modelled from the spec: WorkUnit.Is, a read of the state. *)
Definition Is (wu : WorkUnit) (s : WorkUnitState) : bool :=
  bool_decide (state wu = s).

(** Modelled from the spec: WorkUnit.UpdateState sets the state. *)
Definition UpdateState (s : WorkUnitState) (wu : WorkUnit) : WorkUnit :=
  {| receivedMsgBytes := receivedMsgBytes wu; receivedTxHash := receivedTxHash wu;
     state := s; receivedMsgID := receivedMsgID wu; msg := msg wu;
     receivedFrom := receivedFrom wu |}.

(** Modelled from the spec: WorkUnit.addReceivedFrom records the peer;
    calls with the same peer coalesce and the first non-nil request is
    kept. *)
Definition addReceivedFrom (p : PeerID) (request : option Request)
    (wu : WorkUnit) : WorkUnit :=
  {| receivedMsgBytes := receivedMsgBytes wu; receivedTxHash := receivedTxHash wu;
     state := state wu; receivedMsgID := receivedMsgID wu; msg := msg wu;
     receivedFrom :=
       match receivedFrom wu !! p with
       | Some (Some _) => receivedFrom wu
       | _ => <[p := request]> (receivedFrom wu)
       end |}.

(** The peers of received_from in the order the methods below visit
    them. *)
Definition receivedFromPeers (wu : WorkUnit) : list PeerID :=
  elements (dom (receivedFrom wu)).

(** Modelled from the spec: WorkUnit.punish.  For each peer in
    received_from it invokes the peer manager's remove hook (4.1); a
    payload that turns Invalid has all its senders punished and the
    invalid-transactions metric incremented (7, ParseError and
    InvalidMilestoneBlocklist; scenario S2), and on those paths
    processWorkUnit calls nothing but UpdateState and punish, so the
    increment is punish's: one per punished peer, as in the branch of
    processWorkUnit that punishes a late sender. *)
Definition punish (wu : WorkUnit) : M unit :=
  forEach (receivedFromPeers wu)
    (λ p, emit IncInvalidTransactions ;;' emit (PmRemove p)).

(** Modelled from the spec: WorkUnit.increaseKnownTxCount.  For each peer
    in received_from other than the given one it increments that peer's
    known-transactions counter. *)
Definition increaseKnownTxCount (wu : WorkUnit) (excludedPeer : PeerID) : M unit :=
  forEach (filter (λ p, p ≠ excludedPeer) (receivedFromPeers wu))
    (λ p, emit (PeerIncKnownTransactions p)).

(** Modelled from the spec: WorkUnit.broadcast builds a Broadcast of the
    serialized payload with the peers of received_from as the exclusion
    set. *)
Definition broadcast (wu : WorkUnit) : Broadcast :=
  {| MsgData := receivedMsgBytes wu; ExcludePeers := dom (receivedFrom wu) |}.

(** The two assignments made under dataLock. *)
Definition setMessage (m : Message) (wu : WorkUnit) : WorkUnit :=
  {| receivedMsgBytes := receivedMsgBytes wu; receivedTxHash := receivedTxHash wu;
     state := state wu; receivedMsgID := Some (GetMessageID m); msg := Some m;
     receivedFrom := receivedFrom wu |}.

(** ** SerializeAndEmit *)

Definition SerializeAndEmit (m : Message) (deSeriMode : DeSeriMode) : M (option GoError) :=
  match Serialize m deSeriMode with
  | inl err => ret (Some err)
  | inr msgData =>
      trigger (MessageProcessed m None None) ;;'
      trigger (BroadcastMessage {| MsgData := msgData; ExcludePeers := ∅ |}) ;;'
      ret None
  end.

(** ** The request handlers *)

Definition processMilestoneRequest (p : PeerID) (data : bytes) : M unit :=
  match ExtractRequestedMilestoneIndex data with
  | inl _ =>
      emit IncInvalidRequests ;;'
      emit (PmRemove p)
  | inr msIndex =>
      msIndex ←' (if decide (msIndex = LatestMilestoneRequestIndex)
                  then readEnv GetLatestMilestoneIndex
                  else ret msIndex) ;
      cachedReqMs ←' readEnv (GetMilestoneOrNil msIndex) ;
      match cachedReqMs with
      | None => ret tt
      | Some ms =>
          forEach (GetTransactionsRawBytes ms)
            (λ raw, emit (EnqueueForSending p (NewTransactionMessage raw)))
      end
  end.

Definition processMessageRequest (p : PeerID) (data : bytes) : M unit :=
  if decide (length data ≠ 49) then ret tt
  else
    cachedMsg ←' readEnv (GetCachedMessageOrNil data) ;
    match cachedMsg with
    | None => ret tt
    | Some m => emit (EnqueueForSending p (NewTransactionMessage (RawBytes m)))
    end.

(** ** processWorkUnit *)

(** What the switch under processingLock found. *)
Inductive Branch := SawHashing | SawInvalid | SawHashed | WonHashing.

(** From Lock to Unlock: the switch on the state and, when no case
    applies, the transition to Hashing. *)
Definition lockedSection (wu : WorkUnit) : Branch * WorkUnit :=
  if Is wu Hashing then (SawHashing, wu)
  else if Is wu Invalid then (SawInvalid, wu)
  else if Is wu Hashed then (SawHashed, wu)
  else (WonHashing, UpdateState Hashing wu).

(** case wu.Is(Invalid), after the unlock. *)
Definition afterInvalid (p : PeerID) : M unit :=
  emit IncInvalidTransactions ;;'
  emit (PmRemove p).

(** case wu.Is(Hashed), after the unlock.  wu.msg.GetMessageID() on a nil
    msg is a nil dereference. *)
Definition afterHashed (wu : WorkUnit) (p : PeerID) : M unit :=
  match msg wu with
  | None => panic
  | Some m =>
      request ←' callReceived (GetMessageID m) ;
      match request with
      | Some r => trigger (MessageProcessed m (Some r) (Some p))
      | None =>
          known ←' callContainsMessage (GetMessageID m) ;
          if known : bool then
            emit IncKnownTransactions ;;'
            emit (PeerIncKnownTransactions p)
          else ret tt
      end
  end.

(** The call of tangle.MessageFromBytes on the received bytes. *)
Definition hash (wu : WorkUnit) : M (GoError + Message) :=
  emit (CallMessageFromBytes (receivedMsgBytes wu)) ;;'
  ret (MessageFromBytes (receivedMsgBytes wu) DeSeriModePerformValidation).

(** Everything after the parse. *)
Definition afterHash (parsed : GoError + Message) (wu : WorkUnit) (p : PeerID)
    : M WorkUnit :=
  match parsed with
  | inl _ =>
      let wu := UpdateState Invalid wu in
      punish wu ;;'
      ret wu
  | inr m =>
      request ←' callReceived (GetMessageID m) ;
      let wu := setMessage m wu in
      if invalidMilestoneHashes (receivedTxHash wu) then
        let wu := UpdateState Invalid wu in
        punish wu ;;'
        ret wu
      else
        let wu := UpdateState Hashed wu in
        containsTx ←' callContainsMessage (GetMessageID m) ;
        trigger (MessageProcessed m request (Some p)) ;;'
        increaseKnownTxCount wu p ;;'
        (if bool_decide (request = None) && negb containsTx
         then trigger (BroadcastMessage (broadcast wu))
         else ret tt) ;;'
        ret wu
  end.

(** processWorkUnit(wu, p); the WorkUnit it leaves behind is returned. *)
Definition processWorkUnit (wu : WorkUnit) (p : PeerID) : M WorkUnit :=
  let '(branch, wu) := lockedSection wu in
  match branch with
  | SawHashing => ret wu
  | SawInvalid => afterInvalid p ;;' ret wu
  | SawHashed => afterHashed wu p ;;' ret wu
  | WonHashing =>
      parsed ←' hash wu ;
      afterHash parsed wu p
  end.

(** processWorkUnit called on the same WorkUnit once for each peer of the
    list, one call after the other. *)
Fixpoint processEach (ps : list PeerID) (wu : WorkUnit) : M WorkUnit :=
  match ps with
  | [] => ret wu
  | p :: ps' =>
      wu ←' processWorkUnit wu p ;
      processEach ps' wu
  end.

(** ** The WorkUnit cache, processTransaction and the worker *)

(** proc.workUnits.ComputeIfAbsent(receivedTxBytes, factory): the entry
    of the key, created by newWorkUnit when the key has none.  A
    *WorkUnit is named by its key, the store holding one object per
    key. *)
Definition workUnitFor (receivedTxBytes : bytes) (cache : gmap bytes WorkUnit)
    : WorkUnit * gmap bytes WorkUnit :=
  match cache !! receivedTxBytes with
  | Some wu => (wu, cache)
  | None =>
      let wu := newWorkUnit receivedTxBytes in
      (wu, <[receivedTxBytes := wu]> cache)
  end.

Record ProcState := {
  workUnits : gmap bytes WorkUnit;
  world : World;
}.

Definition liftM (m : M unit) (s : ProcState) : option ProcState :=
  match m (world s) with
  | Some (_, w) => Some {| workUnits := workUnits s; world := w |}
  | None => None
  end.

Definition processTransaction (p : PeerID) (data : bytes) (s : ProcState)
    : option ProcState :=
  let '(workUnit, cache) := workUnitFor data (workUnits s) in
  let workUnit := addReceivedFrom p None workUnit in
  match processWorkUnit workUnit p (world s) with
  | Some (workUnit, w) =>
      Some {| workUnits := <[data := workUnit]> cache; world := w |}
  | None => None
  end.

(** The function given to workerpool.New, applied to the three parameters
    of a task. *)
Definition worker (p : PeerID) (msgType : MessageType) (data : bytes)
    (s : ProcState) : option ProcState :=
  if decide (msgType = MessageTypeTransaction) then
    processTransaction p data s
  else if decide (msgType = MessageTypeTransactionRequest) then
    liftM (processMessageRequest p data) s
  else if decide (msgType = MessageTypeMilestoneRequest) then
    liftM (processMilestoneRequest p data) s
  else Some s.

(** ** Workers running side by side

    Several workers run processTransaction at once, one task each (the
    pool bounds how many; here every submitted task may be under way).  A
    worker advances by atomic steps: the cache lookup (ComputeIfAbsent is
    atomic), addReceivedFrom (under its lock), the section under
    processingLock, the parse, and what follows the parse.  Any worker
    that is not finished may take the next step.  Cache entries stay live:
    every worker holds its entry until it is finished. *)

Inductive Stage :=
| AtWorkUnitFor
| AtAddReceivedFrom
| AtLock
| AfterLock (b : Branch)
| AfterHash (parsed : GoError + Message)
| Finished.

Record Thread := {
  peerOf : PeerID;
  dataOf : bytes;
  stage : Stage;
}.

Definition at_stage (t : Thread) (st : Stage) : Thread :=
  {| peerOf := peerOf t; dataOf := dataOf t; stage := st |}.

Definition threadStep (t : Thread) (s : ProcState) : option (Thread * ProcState) :=
  let p := peerOf t in
  let data := dataOf t in
  match stage t with
  | AtWorkUnitFor =>
      let '(_, cache) := workUnitFor data (workUnits s) in
      Some (at_stage t AtAddReceivedFrom, {| workUnits := cache; world := world s |})
  | AtAddReceivedFrom =>
      wu ← workUnits s !! data;
      Some (at_stage t AtLock,
            {| workUnits := <[data := addReceivedFrom p None wu]> (workUnits s);
               world := world s |})
  | AtLock =>
      wu ← workUnits s !! data;
      let '(branch, wu) := lockedSection wu in
      Some (at_stage t (AfterLock branch),
            {| workUnits := <[data := wu]> (workUnits s); world := world s |})
  | AfterLock SawHashing => Some (at_stage t Finished, s)
  | AfterLock SawInvalid =>
      '(_, w) ← afterInvalid p (world s);
      Some (at_stage t Finished, {| workUnits := workUnits s; world := w |})
  | AfterLock SawHashed =>
      wu ← workUnits s !! data;
      '(_, w) ← afterHashed wu p (world s);
      Some (at_stage t Finished, {| workUnits := workUnits s; world := w |})
  | AfterLock WonHashing =>
      wu ← workUnits s !! data;
      '(parsed, w) ← hash wu (world s);
      Some (at_stage t (AfterHash parsed), {| workUnits := workUnits s; world := w |})
  | AfterHash parsed =>
      wu ← workUnits s !! data;
      '(wu, w) ← afterHash parsed wu p (world s);
      Some (at_stage t Finished,
            {| workUnits := <[data := wu]> (workUnits s); world := w |})
  | Finished => None
  end.

Record System := {
  threads : list Thread;
  shared : ProcState;
}.

(** Worker i takes its next step. *)
Definition schedule (i : nat) (sys : System) : option System :=
  t ← threads sys !! i;
  '(t', s') ← threadStep t (shared sys);
  Some {| threads := <[i := t']> (threads sys); shared := s' |}.

(** A run: the workers named by the list step in that order. *)
Fixpoint run (order : list nat) (sys : System) : option System :=
  match order with
  | [] => Some sys
  | i :: order' =>
      match schedule i sys with
      | Some sys' => run order' sys'
      | None => None
      end
  end.

(** One worker alone, stepped until it is finished. *)
Fixpoint runThread (fuel : nat) (t : Thread) (s : ProcState) : option ProcState :=
  match stage t, fuel with
  | Finished, _ => Some s
  | _, 0 => None
  | _, S fuel' =>
      '(t', s') ← threadStep t s;
      runThread fuel' t' s'
  end.

(** The processor before any task ran: an empty cache, nothing logged,
    one worker per submitted task. *)
Definition initial (tasks : list (PeerID * bytes)) (e : Env) : System :=
  {| threads := map (λ '(p, data), {| peerOf := p; dataOf := data; stage := AtWorkUnitFor |}) tasks;
     shared := {| workUnits := ∅; world := {| env := e; log := [] |} |} |}.

(** The state of the WorkUnit cached for a key, if there is one. *)
Definition stateOf (k : bytes) (s : ProcState) : option WorkUnitState :=
  state <$> workUnits s !! k.

(** Whether the WorkUnit of a key has left Unhashed. *)
Definition leftUnhashed (st : option WorkUnitState) : bool :=
  match st with
  | None | Some Unhashed => false
  | Some _ => true
  end.

(** A worker that won the transition to Hashing for the key and has not
    parsed yet. *)
Definition winnerOf (k : bytes) (t : Thread) : bool :=
  bool_decide (dataOf t = k) &&
  match stage t with AfterLock WonHashing => true | _ => false end.

(** A worker between winning the transition to Hashing for the key and
    the end of its work on it. *)
Definition hashingOf (k : bytes) (t : Thread) : bool :=
  bool_decide (dataOf t = k) &&
  match stage t with AfterLock WonHashing | AfterHash _ => true | _ => false end.

Definition pastLock (st : Stage) : bool :=
  match st with AfterLock _ | AfterHash _ | Finished => true | _ => false end.

Definition isFinished (t : Thread) : bool :=
  match stage t with Finished => true | _ => false end.

(** A bound on the steps a worker still has to take. *)
Definition remaining (t : Thread) : nat :=
  match stage t with
  | AtWorkUnitFor => 5
  | AtAddReceivedFrom => 4
  | AtLock => 3
  | AfterLock WonHashing => 2
  | AfterLock _ => 1
  | AfterHash _ => 1
  | Finished => 0
  end.

Fixpoint remainingAll (ts : list Thread) : nat :=
  match ts with
  | [] => 0
  | t :: ts' => remaining t + remainingAll ts'
  end.

(** One atomic step of a worker, seen from the WorkUnit of its key: the
    worker's stage and the WorkUnit's state before and after, and the
    number of parses of the key the step made. *)
Inductive Trans :
    Stage → option WorkUnitState → Stage → option WorkUnitState → nat → Prop :=
| T_create : Trans AtWorkUnitFor None AtAddReceivedFrom (Some Unhashed) 0
| T_found st : Trans AtWorkUnitFor (Some st) AtAddReceivedFrom (Some st) 0
| T_add st : Trans AtAddReceivedFrom (Some st) AtLock (Some st) 0
| T_win : Trans AtLock (Some Unhashed) (AfterLock WonHashing) (Some Hashing) 0
| T_sawHashing : Trans AtLock (Some Hashing) (AfterLock SawHashing) (Some Hashing) 0
| T_sawInvalid : Trans AtLock (Some Invalid) (AfterLock SawInvalid) (Some Invalid) 0
| T_sawHashed : Trans AtLock (Some Hashed) (AfterLock SawHashed) (Some Hashed) 0
| T_leave b st : b ≠ WonHashing → Trans (AfterLock b) st Finished st 0
| T_hash parsed st : Trans (AfterLock WonHashing) (Some st) (AfterHash parsed) (Some st) 1
| T_done parsed st st' :
    st' = Hashed ∨ st' = Invalid →
    Trans (AfterHash parsed) (Some st) Finished (Some st') 0.

(** What holds of the workers and the cache in every state a run
    reaches. *)
Record Inv (sys : System) : Prop := {
  inv_key : ∀ k wu,
    workUnits (shared sys) !! k = Some wu → receivedMsgBytes wu = k;
  inv_hashing : ∀ k,
    count (hashingOf k) (threads sys) =
    if decide (stateOf k (shared sys) = Some Hashing) then 1 else 0;
  inv_parses : ∀ k,
    parses k (log (world (shared sys))) + count (winnerOf k) (threads sys) =
    Nat.b2n (leftUnhashed (stateOf k (shared sys)));
  inv_stage : ∀ i t,
    threads sys !! i = Some t →
    (stage t ≠ AtWorkUnitFor → is_Some (stateOf (dataOf t) (shared sys))) ∧
    (pastLock (stage t) = true →
     leftUnhashed (stateOf (dataOf t) (shared sys)) = true) ∧
    (stage t = AfterLock SawHashed →
     stateOf (dataOf t) (shared sys) = Some Hashed);
  inv_msg : ∀ k wu,
    workUnits (shared sys) !! k = Some wu → state wu = Hashed → is_Some (msg wu);
}.

(** ** The rest of the processor's interface *)

(** proc.WorkUnitsSize(): the number of WorkUnits the cache holds. *)
Definition WorkUnitsSize (s : ProcState) : nat := size (workUnits s).

(** The three parameters Process hands to the pool for one task. *)
Record Task := {
  taskPeer : PeerID;
  taskType : MessageType;
  taskData : bytes;
}.

(** The queued tasks taken one after the other, each run to its end by
    the worker function before the next is taken. *)
Fixpoint runTasks (tasks : list Task) (s : ProcState) : option ProcState :=
  match tasks with
  | [] => Some s
  | t :: tasks' =>
      match worker (taskPeer t) (taskType t) (taskData t) s with
      | Some s' => runTasks tasks' s'
      | None => None
      end
  end.

(** The processor at rest, no task under way: every cached WorkUnit sits
    under its own bytes, is Hashed or Invalid, has its message when
    Hashed, and its bytes were parsed once; bytes without a WorkUnit were
    never parsed. *)
Definition settled (s : ProcState) : Prop :=
  ∀ k,
    match workUnits s !! k with
    | Some wu =>
        receivedMsgBytes wu = k ∧
        (state wu = Hashed ∨ state wu = Invalid) ∧
        (state wu = Hashed → is_Some (msg wu)) ∧
        parses k (log (world s)) = 1
    | None => parses k (log (world s)) = 0
    end.

(** The processor before any task: an empty cache, nothing logged. *)
Definition started (e : Env) : ProcState :=
  {| workUnits := ∅; world := {| env := e; log := [] |} |}.

(** What a request handler may do to the peer that sent the request, and
    nothing else: reply to it, or count and remove it. *)
Definition answers (p : PeerID) (e : Effect) : Prop :=
  (∃ m, e = EnqueueForSending p m) ∨ e = IncInvalidRequests ∨ e = PmRemove p.

(** The payloads among the tasks that are transaction payloads. *)
Definition payloadsOf (tasks : list Task) : list bytes :=
  taskData <$> filter (λ t, taskType t = MessageTypeTransaction) tasks.


Definition isCallReceived (id : bytes) (e : Effect) : bool :=
  match e with CallReceived i => bool_decide (i = id) | _ => false end.






(** *** The parameters of Trigger and the two Callers

    Trigger takes its parameters as interface values; the Callers get
    them back with type assertions. *)

(** An interface value as the Callers inspect it: a pointer of one of the
    four types (nil or not), or the nil interface. *)
Inductive GoValue :=
| VMessage (m : option Message)
| VRequest (r : option Request)
| VPeer (p : option PeerID)
| VBroadcast (b : option Broadcast)
| VNil.

(** A handler: a func of one of the two signatures, or anything else. *)
Inductive GoFunc :=
| FuncMessageProcessed (f : option Message → option Request → option PeerID → Env → Env)
| FuncBroadcast (f : option Broadcast → Env → Env)
| FuncOther.

(** The parameters the processor passes to Trigger for an event: the nil
    request and peer of SerializeAndEmit are nil pointers of their
    types. *)
Definition triggerParams (ev : Event) : list GoValue :=
  match ev with
  | MessageProcessed m request p => [VMessage (Some m); VRequest request; VPeer p]
  | BroadcastMessage b => [VBroadcast (Some b)]
  end.

(** MessageProcessedCaller: None when a type assertion or an index
    panics, else the call of the handler. *)
Definition MessageProcessedCaller (handler : GoFunc) (params : list GoValue)
    : option (Env → Env) :=
  match handler with
  | FuncMessageProcessed f =>
      match params !! 0 with
      | Some (VMessage m) =>
          match params !! 1 with
          | Some (VRequest request) =>
              match params !! 2 with
              | Some (VPeer p) => Some (f m request p)
              | _ => None
              end
          | _ => None
          end
      | _ => None
      end
  | _ => None
  end.

(** BroadcastCaller. *)
Definition BroadcastCaller (handler : GoFunc) (params : list GoValue)
    : option (Env → Env) :=
  match handler with
  | FuncBroadcast f =>
      match params !! 0 with
      | Some (VBroadcast b) => Some (f b)
      | _ => None
      end
  | _ => None
  end.

(** The Caller New registers for the kind of an event. *)
Definition callerOf (ev : Event) : GoFunc → list GoValue → option (Env → Env) :=
  match ev with
  | MessageProcessed _ _ _ => MessageProcessedCaller
  | BroadcastMessage _ => BroadcastCaller
  end.

(** The handler signature an event's kind asks for. *)
Definition fits (ev : Event) (handler : GoFunc) : bool :=
  match ev, handler with
  | MessageProcessed _ _ _, FuncMessageProcessed _ => true
  | BroadcastMessage _, FuncBroadcast _ => true
  | _, _ => false
  end.

End Processor.

Arguments World {C}.
Arguments ProcState {C}.
Arguments System {C}.

(** * Package dag: FindAllTails (helper.go)

    The traversal of the tangle from a transaction towards its tails.
    trinary.Hash is a string.  The tangle is what FindAllTails reads of
    it; it does not change during a call. *)
Class DagTangle := {
  Transaction : Type;
  (** tangle.SolidEntryPointsContain *)
  SolidEntryPointsContain : string → bool;
  (** tangle.GetCachedTransaction: None when Exists() is false *)
  GetCachedTransaction : string → option Transaction;
  IsTail : Transaction → bool;
  GetTrunk : Transaction → string;
  GetBranch : Transaction → string;
}.

Section Dag.
Context `{T : DagTangle}.

(** The three maps of FindAllTails, used as sets. *)
Record Traversal := {
  txsToTraverse : gset string;
  txsChecked : gset string;
  tails : gset string;
}.

(** One pass through the body of the inner loop. *)
Inductive Visit :=
| Next (st : Traversal)
| NotFound (txHash : string).

(** The body of the inner loop for the key [txHash] the range statement
    produced. *)
Definition visit (txHash : string) (st : Traversal) : Visit :=
  let toTraverse := txsToTraverse st ∖ {[txHash]} in
  if decide (txHash ∈ txsChecked st) then
    Next {| txsToTraverse := toTraverse; txsChecked := txsChecked st;
            tails := tails st |}
  else
    let checked := {[txHash]} ∪ txsChecked st in
    if SolidEntryPointsContain txHash then
      Next {| txsToTraverse := toTraverse; txsChecked := checked; tails := tails st |}
    else
      match GetCachedTransaction txHash with
      | None => NotFound txHash
      | Some tx =>
          if IsTail tx then
            Next {| txsToTraverse := toTraverse; txsChecked := checked;
                    tails := {[txHash]} ∪ tails st |}
          else
            Next {| txsToTraverse :=
                      {[GetBranch tx]} ∪ ({[GetTrunk tx]} ∪ toTraverse);
                    txsChecked := checked; tails := tails st |}
      end.

(** How a call stands after the range statements produced some keys:
    it returned the tails, it returned ErrFindAllTailsFailed for a
    transaction, it is still in the loops, or the keys are not ones the
    range statements can have produced. *)
Inductive Run :=
| Returned (tails : gset string)
| Failed (txHash : string)
| Looping (st : Traversal)
| NotProduced.

(** The two loops.  Go leaves open in which order a range statement
    produces the keys of a map and whether it produces keys added
    meanwhile; what it produces is a key the map holds at that moment,
    and the outer loop runs until the map is empty.  [order] is the
    sequence of keys produced. *)
Fixpoint traverse (order : list string) (st : Traversal) : Run :=
  if decide (txsToTraverse st = ∅) then Returned (tails st)
  else
    match order with
    | [] => Looping st
    | txHash :: order' =>
        if decide (txHash ∈ txsToTraverse st) then
          match visit txHash st with
          | Next st' => traverse order' st'
          | NotFound h => Failed h
          end
        else NotProduced
    end.

Definition FindAllTails (order : list string) (txHash : string) : Run :=
  traverse order {| txsToTraverse := {[txHash]}; txsChecked := ∅; tails := ∅ |}.

(** The transactions the traversal can come to from [txHash]: it goes on
    from a transaction to its trunk and branch unless that transaction is
    a solid entry point or a tail. *)
Inductive reaches (txHash : string) : string → Prop :=
| reaches_start : reaches txHash txHash
| reaches_trunk h tx :
    reaches txHash h → SolidEntryPointsContain h = false →
    GetCachedTransaction h = Some tx → IsTail tx = false →
    reaches txHash (GetTrunk tx)
| reaches_branch h tx :
    reaches txHash h → SolidEntryPointsContain h = false →
    GetCachedTransaction h = Some tx → IsTail tx = false →
    reaches txHash (GetBranch tx).

(** What the loops keep. *)
Record traversing (txHash : string) (st : Traversal) : Prop := {
  tr_reaches : ∀ h, h ∈ txsToTraverse st ∪ txsChecked st → reaches txHash h;
  tr_start : txHash ∈ txsToTraverse st ∪ txsChecked st;
  tr_checked : ∀ h,
    h ∈ txsChecked st → SolidEntryPointsContain h = false →
    ∃ tx, GetCachedTransaction h = Some tx ∧
          if IsTail tx then h ∈ tails st
          else GetTrunk tx ∈ txsToTraverse st ∪ txsChecked st ∧
               GetBranch tx ∈ txsToTraverse st ∪ txsChecked st;
  tr_tails : ∀ h,
    h ∈ tails st →
    h ∈ txsChecked st ∧ SolidEntryPointsContain h = false ∧
    ∃ tx, GetCachedTransaction h = Some tx ∧ IsTail tx = true;
}.

(** A set of transactions that holds [txHash] and, with each stored
    transaction in it that is neither a solid entry point nor a tail, its
    trunk and branch. *)
Definition closedUnder (V : gset string) (txHash : string) : Prop :=
  txHash ∈ V ∧
  ∀ h tx, h ∈ V → SolidEntryPointsContain h = false →
          GetCachedTransaction h = Some tx → IsTail tx = false →
          GetTrunk tx ∈ V ∧ GetBranch tx ∈ V.

(** What bounds the keys still to be produced. *)
Definition potential (V : gset string) (st : Traversal) : nat :=
  size (txsToTraverse st) + 3 * size (V ∖ txsChecked st).

End Dag.

(** ** A small tangle

    [a] has trunk [b] and branch [c]; [b] is a tail; [c] has trunk [b]
    and branch [s], a solid entry point.  In [pruned] the transaction [c]
    is not stored. *)
Module DagFixture.

Record Tx := { trunkOf : string; branchOf : string; isTail : bool }.

Definition stored : gmap string Tx :=
  <["a" := {| trunkOf := "b"; branchOf := "c"; isTail := false |}]>
  (<["b" := {| trunkOf := "x"; branchOf := "y"; isTail := true |}]>
  (<["c" := {| trunkOf := "b"; branchOf := "s"; isTail := false |}]> ∅)).

Definition tangleOf (txs : gmap string Tx) : DagTangle :=
  {| Transaction := Tx;
     SolidEntryPointsContain h := bool_decide (h = "s");
     GetCachedTransaction h := txs !! h;
     IsTail := isTail;
     GetTrunk := trunkOf;
     GetBranch := branchOf |}.

Definition tangle : DagTangle := tangleOf stored.
Definition pruned : DagTangle := tangleOf (delete "c" stored).

Definition cone : gset string := {["a"; "b"; "c"; "s"]}.

End DagFixture.

(** * Package snapshot: pruning (pruning.go)

    The pruning functions work on the database of package tangle.  Its
    code is not part of the package, so it is an interface here: reads
    are functions of the store, writes take the store to the store after
    them.  An error a write returns is only logged by the callers; what
    the failed write left of the store is part of the store after it.
    Logging is not modelled. *)
Module snapshot.

(** tangle.TxHashForAddress *)
Record TxHashForAddress := {
  TxHash : string;
  Address : string;
}.

(** The fields of tangle.SnapshotInfo that pruneDatabase reads. *)
Record SnapshotInfo := {
  SnapshotIndex : MilestoneIndex;
  PruningIndex : MilestoneIndex;
}.

Class Database := {
  Store : Type;
  (** the transaction of a cached transaction that exists *)
  Transaction : Type;
  GoError : Type;

  (** tangle.ReadFirstSeenTxHashOperations *)
  ReadFirstSeenTxHashOperations : MilestoneIndex → Store → GoError + list string;
  (** tangle.GetCachedTransaction: None when Exists() is false *)
  GetCachedTransaction : string → Store → option Transaction;
  (** first result of GetConfirmed; the Address field of the Tx *)
  GetConfirmed : Transaction → bool;
  TxAddress : Transaction → string;

  (** tangle.RemoveTransactionFromBundle: the keys of the map it returns,
      and the store after it *)
  RemoveTransactionFromBundle : Transaction → Store → gset string * Store;
  DeleteApprovers : string → Store → Store;
  DeleteTransaction : string → Store → Store;
  DeleteTransactionHashesForAddressesInDatabase :
    list TxHashForAddress → Store → Store;
  DeleteFirstSeenTxHashOperations : MilestoneIndex → Store → Store;
  DeleteLedgerDiffForMilestone : MilestoneIndex → Store → Store;
  DeleteMilestone : MilestoneIndex → Store → Store;

  (** the number of bits of milestone_index.MilestoneIndex, an unsigned
      integer type *)
  IndexBits : N;
  (** declared in other files of the package *)
  pruningDelay : MilestoneIndex;
  SolidEntryPointCheckThresholdPast : MilestoneIndex;
  (** a cached milestone that is not nil, and the tail of its bundle *)
  Milestone : Type;
  Tail : Type;
  (** tangle.GetSnapshotInfo: None for nil, else the two fields read *)
  GetSnapshotInfo : Store → option SnapshotInfo;
  (** the assignment to snapshotInfo.PruningIndex with the call of
      tangle.SetSnapshotInfo that follows it *)
  SetSnapshotInfo : MilestoneIndex → Store → Store;
  GetMilestoneOrNil : MilestoneIndex → Store → option Milestone;
  GetTail : Milestone → Tail;
  (** getMilestoneApprovees(milestoneIndex, tail, false, nil), a function
      of the package declared in another file: its results, and the store
      after it *)
  getMilestoneApprovees :
    MilestoneIndex → Tail → Store → (GoError + list string) * Store;
}.

(** How a call ends: it returns, it panics (log.Panicf), [ranges] does
    not hold what a range statement can produce, or the loop of
    pruneDatabase is still running when the fuel is used up. *)
Inductive Outcome (A : Type) :=
| Returns (a : A)
| Panics
| NotARange
| OutOfFuel.
Arguments Returns {A} a.
Arguments Panics {A}.
Arguments NotARange {A}.
Arguments OutOfFuel {A}.

Section Pruning.
Context `{D : Database}.

(** The calls on package tangle that take or give back a cached
    object or write to the database, in program order.
    [Acquire] is GetCachedTransaction (tx +1 in the source's comments),
    [Release] the Release of what it returned (tx -1); likewise for the
    cached milestone and the tail of its bundle in pruneDatabase, where
    [RetainTail] is the Retain handed to getMilestoneApprovees. *)
Inductive Call :=
| Acquire (txHash : string)
| Release (txHash : string)
| CallRemoveTransactionFromBundle (txHash : string) (txsToRemove : gset string)
| CallDeleteApprovers (txHash : string)
| CallDeleteTransaction (txHash : string)
| CallDeleteTransactionHashesForAddressesInDatabase
    (addresses : list TxHashForAddress)
| CallDeleteFirstSeenTxHashOperations (index : MilestoneIndex)
| CallDeleteLedgerDiffForMilestone (index : MilestoneIndex)
| CallDeleteMilestone (index : MilestoneIndex)
| AcquireMilestone (index : MilestoneIndex)
| ReleaseMilestone (index : MilestoneIndex)
| AcquireTail (index : MilestoneIndex)
| RetainTail (index : MilestoneIndex)
| ReleaseTail (index : MilestoneIndex)
| CallGetMilestoneApprovees (index : MilestoneIndex)
| CallSetSnapshotInfo (pruningIndex : MilestoneIndex).

(** Go leaves open in which order a range statement produces the keys of
    a map.  [ranges] holds, for the range statements still to come whose
    order shows in what the code does, the keys in the order in which
    they will be produced. *)
Record World := {
  calls : list Call;
  store : Store;
  ranges : list (list string);
}.

Definition M (A : Type) : Type := World → Outcome A * World.

Definition ret {A} (a : A) : M A := λ w, (Returns a, w).
Definition bind {A B} (m : M A) (k : A → M B) : M B :=
  λ w, match m w with
       | (Returns a, w') => k a w'
       | (Panics, w') => (Panics, w')
       | (NotARange, w') => (NotARange, w')
       | (OutOfFuel, w') => (OutOfFuel, w')
       end.
Definition panic {A} : M A := λ w, (Panics, w).

Notation "x ←' m ; k" := (bind m (λ x, k))
  (at level 100, m at next level, right associativity, only parsing).
Notation "m ;;' k" := (bind m (λ _, k))
  (at level 100, right associativity, only parsing).

Definition call (c : Call) (write : Store → Store) : M unit :=
  λ w, (Returns tt,
        {| calls := calls w ++ [c]; store := write (store w); ranges := ranges w |}).

Definition read {A} (f : Store → A) : M A := λ w, (Returns (f (store w)), w).

Definition getCachedTransaction (txHash : string) : M (option Transaction) :=
  call (Acquire txHash) id ;;' read (GetCachedTransaction txHash).

Definition release (txHash : string) : M unit := call (Release txHash) id.

Definition removeTransactionFromBundle (txHash : string) (tx : Transaction)
    : M (gset string) :=
  λ w, let '(txsToRemove, s) := RemoveTransactionFromBundle tx (store w) in
       (Returns txsToRemove,
        {| calls := calls w ++ [CallRemoveTransactionFromBundle txHash txsToRemove];
           store := s; ranges := ranges w |}).

(** A range statement over a map with the keys [keys]: each key is
    produced once. *)
Definition range (keys : gset string) : M (list string) :=
  λ w, match ranges w with
       | order :: rest =>
           if decide (NoDup order ∧ list_to_set order = keys) then
             (Returns order,
              {| calls := calls w; store := store w; ranges := rest |})
           else (NotARange, w)
       | [] => (NotARange, w)
       end.

(** The world after the calls [l] were made on top of [w], the store
    then being [s]. *)
Definition after (w : World) (l : list Call) (s : Store) : World :=
  {| calls := calls w ++ l; store := s; ranges := ranges w |}.

(** ** pruneUnconfirmedTransactions *)

(** The loop over the first seen transactions (lines 30 to 52), with the
    map and the slice it fills. *)
Fixpoint stillUnconfirmed (txHashes : list string) (txsToRemoveMap : gset string)
    (txsToRemoveSlice : list string) : M (list string) :=
  match txHashes with
  | [] => ret txsToRemoveSlice
  | txHash :: txHashes' =>
      cachedTx ←' getCachedTransaction txHash;
      match cachedTx with
      | None =>
          release txHash ;;'
          stillUnconfirmed txHashes' txsToRemoveMap txsToRemoveSlice
      | Some tx =>
          if GetConfirmed tx then
            release txHash ;;'
            stillUnconfirmed txHashes' txsToRemoveMap txsToRemoveSlice
          else if decide (txHash ∈ txsToRemoveMap) then
            release txHash ;;'
            stillUnconfirmed txHashes' txsToRemoveMap txsToRemoveSlice
          else
            release txHash ;;'
            stillUnconfirmed txHashes' ({[txHash]} ∪ txsToRemoveMap)
              (txsToRemoveSlice ++ [txHash])
      end
  end.

(** ** pruneTransactions *)

(** The first loop (lines 81 to 92).  The inner range statement puts the
    keys of the returned map into txsToRemove; in whatever order it does
    so, the map then holds them all. *)
Fixpoint bundleTxsToRemove (txHashes : list string) (txsToRemove : gset string)
    : M (gset string) :=
  match txHashes with
  | [] => ret txsToRemove
  | txHash :: txHashes' =>
      cachedTx ←' getCachedTransaction txHash;
      match cachedTx with
      | None => release txHash ;;' panic
      | Some tx =>
          removed ←' removeTransactionFromBundle txHash tx;
          release txHash ;;'
          bundleTxsToRemove txHashes' (removed ∪ txsToRemove)
      end
  end.

(** The second loop (lines 94 to 106) for the keys in the order in which
    the range statement produces them. *)
Fixpoint deleteTransactions (order : list string) (addresses : list TxHashForAddress)
    : M (list TxHashForAddress) :=
  match order with
  | [] => ret addresses
  | txHash :: order' =>
      cachedTx ←' getCachedTransaction txHash;
      match cachedTx with
      | None => release txHash ;;' panic
      | Some tx =>
          let addresses :=
            addresses ++ [{| TxHash := txHash; Address := TxAddress tx |}] in
          release txHash ;;'
          call (CallDeleteApprovers txHash) (DeleteApprovers txHash) ;;'
          call (CallDeleteTransaction txHash) (DeleteTransaction txHash) ;;'
          deleteTransactions order' addresses
      end
  end.

Definition pruneTransactions (txHashes : list string) : M nat :=
  txsToRemove ←' bundleTxsToRemove txHashes ∅;
  order ←' range txsToRemove;
  addresses ←' deleteTransactions order [];
  call (CallDeleteTransactionHashesForAddressesInDatabase addresses)
       (DeleteTransactionHashesForAddressesInDatabase addresses) ;;'
  ret (size txsToRemove).

Definition pruneUnconfirmedTransactions (targetIndex : MilestoneIndex) : M nat :=
  read ←' read (ReadFirstSeenTxHashOperations targetIndex);
  match read with
  | inl err => panic
  | inr txHashes =>
      txsToRemoveSlice ←' stillUnconfirmed txHashes ∅ [];
      txCount ←' pruneTransactions txsToRemoveSlice;
      call (CallDeleteFirstSeenTxHashOperations targetIndex)
           (DeleteFirstSeenTxHashOperations targetIndex) ;;'
      ret txCount
  end.

(** ** pruneMilestone *)

Definition pruneMilestone (milestoneIndex : MilestoneIndex) : M unit :=
  call (CallDeleteLedgerDiffForMilestone milestoneIndex)
       (DeleteLedgerDiffForMilestone milestoneIndex) ;;'
  call (CallDeleteMilestone milestoneIndex) (DeleteMilestone milestoneIndex).

(** ** pruneDatabase *)

Definition AdditionalPruningThreshold : MilestoneIndex := 50%N.

(** The arithmetic of the unsigned type. *)
Definition wrap (z : Z) : MilestoneIndex := Z.to_N (z mod 2 ^ Z.of_N IndexBits).
Definition sub (a b : MilestoneIndex) : MilestoneIndex := wrap (Z.of_N a - Z.of_N b).
Definition inc (a : MilestoneIndex) : MilestoneIndex := wrap (Z.of_N a + 1).

Definition getMilestoneOrNil (milestoneIndex : MilestoneIndex) : M (option Milestone) :=
  cachedMs ←' read (GetMilestoneOrNil milestoneIndex);
  match cachedMs with
  | None => ret None
  | Some ms => call (AcquireMilestone milestoneIndex) id ;;' ret (Some ms)
  end.

Definition callGetMilestoneApprovees (milestoneIndex : MilestoneIndex) (tail : Tail)
    : M (GoError + list string) :=
  λ w, let '(r, s) := getMilestoneApprovees milestoneIndex tail (store w) in
       (Returns r,
        {| calls := calls w ++ [CallGetMilestoneApprovees milestoneIndex];
           store := s; ranges := ranges w |}).

(** The body of the loop after the select statement (lines 144 to 169);
    it is left early where the source has continue. *)
Definition pruneNext (milestoneIndex : MilestoneIndex) : M unit :=
  txCount ←' pruneUnconfirmedTransactions milestoneIndex;
  cachedMs ←' getMilestoneOrNil milestoneIndex;
  match cachedMs with
  | None => panic
  | Some ms =>
      let cachedMsTailTx := GetTail ms in
      call (AcquireTail milestoneIndex) id ;;'
      call (ReleaseMilestone milestoneIndex) id ;;'
      call (RetainTail milestoneIndex) id ;;'
      approvees ←' callGetMilestoneApprovees milestoneIndex cachedMsTailTx;
      call (ReleaseTail milestoneIndex) id ;;'
      match approvees with
      | inl err => ret tt
      | inr approvees =>
          pruned ←' pruneTransactions approvees;
          let txCount := txCount + pruned in
          pruneMilestone milestoneIndex
      end
  end.

(** The loop (lines 136 to 170).  [abortSignal k] tells whether the
    receive of the select statement succeeds when it is tried for the
    [k]-th time.  The result tells whether the loop was left through the
    abort signal. *)
Fixpoint pruneMilestones (fuel : nat) (abortSignal : nat → bool) (tried : nat)
    (milestoneIndex targetIndex : MilestoneIndex) : M bool :=
  if (milestoneIndex <=? targetIndex)%N then
    match fuel with
    | 0 => λ w, (OutOfFuel, w)
    | S fuel' =>
        if abortSignal tried then ret true
        else
          pruneNext milestoneIndex ;;'
          pruneMilestones fuel' abortSignal (S tried) (inc milestoneIndex) targetIndex
    end
  else ret false.

(** targetIndex as it stands at line 130. *)
Definition targetIndexOf (solidMilestoneIndex : MilestoneIndex)
    (snapshotInfo : SnapshotInfo) : MilestoneIndex :=
  let targetIndex := sub solidMilestoneIndex pruningDelay in
  let targetIndexMax :=
    sub (sub (sub (SnapshotIndex snapshotInfo) SolidEntryPointCheckThresholdPast)
             AdditionalPruningThreshold) 1%N in
  if (targetIndexMax <? targetIndex)%N then targetIndexMax else targetIndex.

Definition pruneDatabase (fuel : nat) (solidMilestoneIndex : MilestoneIndex)
    (abortSignal : nat → bool) : M unit :=
  snapshotInfo ←' read GetSnapshotInfo;
  match snapshotInfo with
  | None => panic
  | Some snapshotInfo =>
      let targetIndex := targetIndexOf solidMilestoneIndex snapshotInfo in
      if (targetIndex <=? PruningIndex snapshotInfo)%N then ret tt
      else
        aborted ←' pruneMilestones fuel abortSignal 0
                     (inc (PruningIndex snapshotInfo)) targetIndex;
        if aborted : bool then ret tt
        else call (CallSetSnapshotInfo targetIndex) (SetSnapshotInfo targetIndex)
  end.

(** The milestone indices the loop takes, [n] of them from
    [milestoneIndex] on. *)
Fixpoint milestonesFrom (milestoneIndex : MilestoneIndex) (n : nat)
    : list MilestoneIndex :=
  match n with
  | 0 => []
  | S n' => milestoneIndex :: milestonesFrom (inc milestoneIndex) n'
  end.

(** The value of milestoneIndex after [n] passes. *)
Fixpoint indexAfter (milestoneIndex : MilestoneIndex) (n : nat) : MilestoneIndex :=
  match n with
  | 0 => milestoneIndex
  | S n' => indexAfter (inc milestoneIndex) n'
  end.

(** The milestone indices from [first] to [last]. *)
Definition fromTo (first last : MilestoneIndex) : list MilestoneIndex :=
  (λ k, (first + N.of_nat k)%N) <$> seq 0 (N.to_nat (last + 1 - first)).

(** ** What the calls show *)

Definition isAcquire (h : string) (c : Call) : bool :=
  match c with Acquire h' => bool_decide (h' = h) | _ => false end.
Definition isRelease (h : string) (c : Call) : bool :=
  match c with Release h' => bool_decide (h' = h) | _ => false end.

(** The cached transactions of [h] held after the calls [l]. *)
Definition held (h : string) (l : list Call) : Z :=
  Z.of_nat (count (isAcquire h) l) - Z.of_nat (count (isRelease h) l).

(** Taking and giving back the cached transaction of [h]. *)
Definition peek (h : string) : list Call := [Acquire h; Release h].

(** The calls of the first loop of pruneTransactions for transactions
    that exist, with the keys RemoveTransactionFromBundle returned, and
    of its second loop. *)
Definition bundleCalls (removed : list (string * gset string)) : list Call :=
  flat_map (λ p, [Acquire p.1; CallRemoveTransactionFromBundle p.1 p.2; Release p.1])
           removed.
Definition deleteCalls (order : list string) : list Call :=
  flat_map (λ h, [Acquire h; Release h; CallDeleteApprovers h; CallDeleteTransaction h])
           order.

Definition deletedTransactions (l : list Call) : list string :=
  flat_map (λ c, match c with CallDeleteTransaction h => [h] | _ => [] end) l.
Definition deletedApprovers (l : list Call) : list string :=
  flat_map (λ c, match c with CallDeleteApprovers h => [h] | _ => [] end) l.
Definition deletedAddresses (l : list Call) : list (list TxHashForAddress) :=
  flat_map (λ c, match c with
                 | CallDeleteTransactionHashesForAddressesInDatabase a => [a]
                 | _ => []
                 end) l.
Definition removedFromBundle (l : list Call) : list (string * gset string) :=
  flat_map (λ c, match c with
                 | CallRemoveTransactionFromBundle h r => [(h, r)]
                 | _ => []
                 end) l.
Definition deletedFirstSeen (l : list Call) : list MilestoneIndex :=
  flat_map (λ c, match c with
                 | CallDeleteFirstSeenTxHashOperations i => [i]
                 | _ => []
                 end) l.

Definition deletedMilestones (l : list Call) : list MilestoneIndex :=
  flat_map (λ c, match c with CallDeleteMilestone i => [i] | _ => [] end) l.
Definition setPruningIndices (l : list Call) : list MilestoneIndex :=
  flat_map (λ c, match c with CallSetSnapshotInfo i => [i] | _ => [] end) l.

(** What shows of the milestones in the calls [l] a function made. *)
Record milestoneCalls (l : list Call) (firstSeen deleted : list MilestoneIndex)
    : Prop := {
  mc_firstSeen : deletedFirstSeen l = firstSeen;
  mc_deleted : deletedMilestones l = deleted;
  mc_set : setPruningIndices l = [];
}.


End Pruning.

End snapshot.

(** ** A small database

    Transactions [a] and [b] are unconfirmed and of one bundle, [c] is
    confirmed; milestones 1 to 3 are stored, the approvees of milestone 3
    cannot be found; the snapshot index is 60 and nothing is pruned
    yet. *)
Module PruningFixture.
Import snapshot.

Record Tx := { confirmed : bool; address : string; bundle : gset string }.

Record Db := {
  txs : gmap string Tx;
  firstSeen : gmap N (list string);
  approvees : gmap N (list string);
  milestones : gset N;
  snapshotInfo : option SnapshotInfo;
}.

Definition database (delay : MilestoneIndex) : Database :=
  {| Store := Db;
     Transaction := Tx;
     GoError := unit;
     ReadFirstSeenTxHashOperations i s :=
       match firstSeen s !! i with Some l => inr l | None => inl tt end;
     GetCachedTransaction h s := txs s !! h;
     GetConfirmed := confirmed;
     TxAddress := address;
     RemoveTransactionFromBundle tx s := (bundle tx, s);
     DeleteApprovers h s := s;
     DeleteTransaction h s :=
       {| txs := delete h (txs s); firstSeen := firstSeen s;
          approvees := approvees s; milestones := milestones s;
          snapshotInfo := snapshotInfo s |};
     DeleteTransactionHashesForAddressesInDatabase a s := s;
     DeleteFirstSeenTxHashOperations i s :=
       {| txs := txs s; firstSeen := delete i (firstSeen s);
          approvees := approvees s; milestones := milestones s;
          snapshotInfo := snapshotInfo s |};
     DeleteLedgerDiffForMilestone i s := s;
     DeleteMilestone i s :=
       {| txs := txs s; firstSeen := firstSeen s;
          approvees := approvees s; milestones := milestones s ∖ {[i]};
          snapshotInfo := snapshotInfo s |};
     IndexBits := 32%N;
     pruningDelay := delay;
     SolidEntryPointCheckThresholdPast := 1%N;
     Milestone := N;
     Tail := N;
     GetSnapshotInfo := snapshotInfo;
     SetSnapshotInfo i s :=
       {| txs := txs s; firstSeen := firstSeen s;
          approvees := approvees s; milestones := milestones s;
          snapshotInfo :=
            (λ info, {| SnapshotIndex := SnapshotIndex info; PruningIndex := i |})
              <$> snapshotInfo s |};
     GetMilestoneOrNil i s := if decide (i ∈ milestones s) then Some i else None;
     GetTail ms := ms;
     getMilestoneApprovees i tail s :=
       (match approvees s !! i with Some l => inr l | None => inl tt end, s) |}.

Definition db (snapshotIndex : MilestoneIndex) : Db :=
  {| txs :=
       <["a" := {| confirmed := false; address := "A"; bundle := {["a"; "b"]} |}]>
       (<["b" := {| confirmed := false; address := "B"; bundle := {["b"]} |}]>
       (<["c" := {| confirmed := true; address := "C"; bundle := {["c"]} |}]> ∅));
     firstSeen :=
       <[1%N := ["a"; "c"; "a"; "x"]]> (<[2%N := ["b"]]> (<[3%N := []]> ∅));
     approvees := <[1%N := ["c"]]> (<[2%N := []]> ∅);
     milestones := {[1%N; 2%N; 3%N]};
     snapshotInfo := Some {| SnapshotIndex := snapshotIndex; PruningIndex := 0%N |} |}.

Definition world (delay : MilestoneIndex) (snapshotIndex : MilestoneIndex)
    (orders : list (list string)) : World (D:=database delay) :=
  @Build_World (database delay) [] (db snapshotIndex) orders.

Definition never : nat → bool := λ _, false.
Definition atSecond : nat → bool := λ k, bool_decide (k = 1).

End PruningFixture.


(** ** A small concrete node

    Collaborators that can be run: a message is its raw bytes and is its
    own identifier, a payload starting with a zero byte does not parse,
    the request queue and the tangle are finite maps, and the handler of
    MessageProcessed stores the message, as a node does. *)
Module Fixture.

Record TEnv := {
  stored : gmap bytes bytes;
  pending : gmap bytes nat;
  latest : N;
  milestones : gmap N (list bytes);
}.

Definition parse (data : bytes) (mode : bool) : string + bytes :=
  match data with
  | x00 :: _ => inl "invalid payload"%string
  | _ => inr data
  end.

Definition serialize (m : bytes) (mode : bool) : string + bytes :=
  if mode then inr m else inl "unsupported mode"%string.

Definition extractIndex (data : bytes) : string + N :=
  match data with
  | [a; b; c; d] =>
      inr (Byte.to_N a + 256 * (Byte.to_N b + 256 * (Byte.to_N c + 256 * Byte.to_N d)))%N
  | _ => inl "invalid length"%string
  end.

#[export] Instance node : Collaborators := {|
  Env := TEnv;
  Message := bytes;
  Request := nat;
  WireMessage := bytes;
  DeSeriMode := bool;
  GoError := string;
  Milestone := list bytes;
  DeSeriModePerformValidation := true;
  GetMessageID := λ m, m;
  RawBytes := λ m, m;
  MessageFromBytes := parse;
  Serialize := serialize;
  Received := λ id e,
    (pending e !! id,
     {| stored := stored e; pending := delete id (pending e);
        latest := latest e; milestones := milestones e |});
  ContainsMessage := λ id e, bool_decide (is_Some (stored e !! id));
  GetCachedMessageOrNil := λ id e, stored e !! id;
  GetLatestMilestoneIndex := latest;
  GetMilestoneOrNil := λ i e, milestones e !! i;
  GetTransactionsRawBytes := λ ms, ms;
  MessageTypeTransaction := 2%N;
  MessageTypeTransactionRequest := 3%N;
  MessageTypeMilestoneRequest := 1%N;
  LatestMilestoneRequestIndex := 0%N;
  ExtractRequestedMilestoneIndex := extractIndex;
  NewTransactionMessage := λ raw, raw;
  invalidMilestoneHashes := λ h, bool_decide (h = [xff]);
|}.

Definition storing : Handlers :=
  {| onEvent := λ ev e,
       match ev with
       | MessageProcessed m _ _ =>
           {| stored := <[m := m]> (stored e); pending := pending e;
              latest := latest e; milestones := milestones e |}
       | BroadcastMessage _ => e
       end |}.

Definition emptyEnv : TEnv :=
  {| stored := ∅; pending := ∅; latest := 0%N; milestones := ∅ |}.

Definition fresh (e : TEnv) : World := {| env := e; log := [] |}.

Definition good : bytes := [x01; x02; x03].
Definition bad : bytes := [x00; x02; x03].
Definition id49 : bytes := replicate 49 x07.

(** A node that stores one message under a 49-byte identifier, has one
    request outstanding and knows milestone 5, the latest. *)
Definition busyEnv : TEnv :=
  {| stored := {[ id49 := good ]};
     pending := {[ good := 7 ]};
     latest := 5%N;
     milestones := {[ 5%N := [good; [x09]] ]} |}.

(** The same node once the outstanding request has been served. *)
Definition servedEnv : TEnv :=
  {| stored := stored busyEnv; pending := delete good (pending busyEnv);
     latest := latest busyEnv; milestones := milestones busyEnv |}.

Definition idle : ProcState := {| workUnits := ∅; world := fresh emptyEnv |}.

(** WorkUnits as processTransaction hands them to processWorkUnit. *)
Definition wuBad : WorkUnit := addReceivedFrom "A" None (newWorkUnit bad).
Definition wuGood : WorkUnit := addReceivedFrom "A" None (newWorkUnit good).
Definition wuHashed : WorkUnit :=
  {| receivedMsgBytes := good; receivedTxHash := []; state := Hashed;
     receivedMsgID := Some good; msg := Some good;
     receivedFrom := {[ "A"%string := None ]} |}.

Definition wuInvalid : WorkUnit := UpdateState Invalid wuBad.
Definition wuHashing : WorkUnit := UpdateState Hashing wuGood.
(** A WorkUnit whose hash is on the blocklist of the node. *)
Definition wuBlocked : WorkUnit :=
  {| receivedMsgBytes := good; receivedTxHash := [xff]; state := Unhashed;
     receivedMsgID := None; msg := None;
     receivedFrom := {[ "A"%string := None ]} |}.
(** The processor while a worker is hashing the payload of A. *)
Definition hashingNow : ProcState :=
  {| workUnits := {[ good := wuHashing ]}; world := fresh emptyEnv |}.

(** Peers A and B submit the same payload; their workers alternate. *)
Definition twoPeers : list (PeerID * bytes) := [("A"%string, good); ("B"%string, good)].
Definition alternate : list nat := [0; 1; 0; 1; 0; 1; 0; 1; 0].
Definition twoPeersEnd : System :=
  default (initial [] emptyEnv) (run storing alternate (initial twoPeers emptyEnv)).


End Fixture.

(** * Properties *)

Section Properties.
Context `{C : Collaborators} (handlers : Handlers).

Implicit Types (w : World) (wu : WorkUnit) (p q : PeerID) (l : list Effect).

Lemma logged_nil w : logged w [] = w.
Proof. destruct w; unfold logged; simpl. by rewrite app_nil_r. Qed.

Lemma logged_logged w l1 l2 : logged (logged w l1) l2 = logged w (l1 ++ l2).
Proof. unfold logged; simpl. by rewrite app_assoc. Qed.

Lemma emit_emit_logged (a b : Effect) w :
  bind (emit a) (λ _, emit b) w = Some (tt, logged w [a; b]).
Proof. unfold bind, emit. by rewrite logged_logged. Qed.

(** A loop whose body only logs, logs the bodies' effects in order. *)
Lemma forEach_logged {A} (body : A → M unit) (g : A → list Effect) (xs : list A) w :
  (∀ x w0, body x w0 = Some (tt, logged w0 (g x))) →
  forEach xs body w = Some (tt, logged w (flat_map g xs)).
Proof.
  intros Hbody. revert w.
  induction xs as [|x xs IH]; intros w; simpl.
  - unfold ret. by rewrite logged_nil.
  - unfold bind. rewrite Hbody, IH, logged_logged. reflexivity.
Qed.

Lemma flat_map_singleton_fmap {A B} (f : A → B) (xs : list A) :
  flat_map (λ x, [f x]) xs = f <$> xs.
Proof. induction xs as [|x xs IH]; [done|]. rewrite fmap_cons, <- IH. reflexivity. Qed.

Lemma punish_logged wu w :
  punish wu w =
  Some (tt, logged w (flat_map (λ p, [IncInvalidTransactions; PmRemove p])
                               (receivedFromPeers wu))).
Proof.
  unfold punish.
  apply (forEach_logged _ (λ p, [IncInvalidTransactions; PmRemove p])).
  intros p w0. apply emit_emit_logged.
Qed.

Lemma increaseKnownTxCount_logged wu p w :
  increaseKnownTxCount wu p w =
  Some (tt, logged w (PeerIncKnownTransactions <$>
                        filter (λ q, q ≠ p) (receivedFromPeers wu))).
Proof.
  unfold increaseKnownTxCount.
  rewrite (forEach_logged _ (λ q, [PeerIncKnownTransactions q])); [|done].
  by rewrite flat_map_singleton_fmap.
Qed.

Lemma count_app {A} (f : A → bool) (l1 l2 : list A) :
  count f (l1 ++ l2) = count f l1 + count f l2.
Proof. induction l1 as [|x l1 IH]; simpl; [done|]. rewrite IH. lia. Qed.

Lemma firedEvents_app l1 l2 : firedEvents (l1 ++ l2) = firedEvents l1 ++ firedEvents l2.
Proof. apply omap_app. Qed.

Lemma removedPeers_app l1 l2 : removedPeers (l1 ++ l2) = removedPeers l1 ++ removedPeers l2.
Proof. apply omap_app. Qed.

Lemma enqueued_app l1 l2 : enqueued (l1 ++ l2) = enqueued l1 ++ enqueued l2.
Proof. apply omap_app. Qed.

(** What punish logs, seen through the observations. *)
Lemma punish_effects (ps : list PeerID) :
  let l := flat_map (λ p, [IncInvalidTransactions; PmRemove p]) ps in
  firedEvents l = [] ∧ removedPeers l = ps ∧
  count isIncInvalidTransactions l = length ps ∧
  ∀ k, count (isCallMessageFromBytes k) l = 0.
Proof.
  induction ps as [|p ps (IH1 & IH2 & IH3 & IH4)]; simpl; [done|].
  repeat split; [done|by f_equal|lia|done].
Qed.

(** ** SerializeAndEmit *)

(** C5. SerializeAndEmit returns the serialization error and fires no
    event (it leaves the world as it was) when serialization fails; when
    it succeeds it fires MessageProcessed with the message, a nil request
    and a nil peer, then BroadcastMessage, nothing else, and returns
    nil. *)
Theorem SerializeAndEmit_result (m : Message) (deSeriMode : DeSeriMode) w :
  match Serialize m deSeriMode with
  | inl err =>
      SerializeAndEmit handlers m deSeriMode w = Some (Some err, w)
  | inr msgData =>
      ∃ w' b,
        SerializeAndEmit handlers m deSeriMode w = Some (None, w') ∧
        log w' = log w ++ [Trigger (MessageProcessed m None None);
                           Trigger (BroadcastMessage b)]
  end.
Proof.
  unfold SerializeAndEmit.
  destruct (Serialize m deSeriMode) as [err|msgData]; [done|].
  eexists _, _. split; [reflexivity|]. simpl. by rewrite <- app_assoc.
Qed.

(** C10. When serialization succeeds, the Broadcast that SerializeAndEmit
    hands to BroadcastMessage holds the serialized bytes and an empty
    exclusion set, and it is the only Broadcast fired. *)
Theorem SerializeAndEmit_broadcast (m : Message) (deSeriMode : DeSeriMode)
    (msgData : bytes) w :
  Serialize m deSeriMode = inr msgData →
  ∃ w',
    SerializeAndEmit handlers m deSeriMode w = Some (None, w') ∧
    ∀ b, BroadcastMessage b ∈ firedEvents (log w') ↔
         BroadcastMessage b ∈ firedEvents (log w) ∨
         (MsgData b = msgData ∧ ExcludePeers b = ∅).
Proof.
  intros Hser. unfold SerializeAndEmit. rewrite Hser.
  eexists. split; [reflexivity|]. intros b. simpl.
  rewrite <- app_assoc, firedEvents_app. simpl.
  rewrite elem_of_app, !elem_of_cons, elem_of_nil.
  split.
  - intros [?|[?|[[= ->]|[]]]]; [by left|done|by right].
  - intros [?|[? ?]]; [by left|]. right; right; left.
    destruct b; simpl in *; by subst.
Qed.

(** ** The request handlers *)

(** C6. processMessageRequest drops a request whose length is not 49
    bytes, and one whose identifier the tangle does not hold: nothing is
    enqueued, no metric moves, no peer is removed (the world is as
    before).  For a 49-byte identifier the tangle holds, exactly one
    message, built from the stored raw bytes, is enqueued on the peer that
    asked and nothing else happens. *)
Theorem processMessageRequest_spec p (data : bytes) w :
  (length data ≠ 49 → processMessageRequest p data w = Some (tt, w)) ∧
  (length data = 49 → GetCachedMessageOrNil data (env w) = None →
   processMessageRequest p data w = Some (tt, w)) ∧
  (∀ m, length data = 49 → GetCachedMessageOrNil data (env w) = Some m →
   processMessageRequest p data w =
   Some (tt, logged w [EnqueueForSending p (NewTransactionMessage (RawBytes m))])).
Proof.
  unfold processMessageRequest, bind, readEnv.
  repeat split.
  - intros Hlen. by rewrite decide_True.
  - intros Hlen Hmiss. rewrite decide_False by (intros ?; done). by rewrite Hmiss.
  - intros m Hlen Hhit. rewrite decide_False by (intros ?; done). by rewrite Hhit.
Qed.

(** C7. processMilestoneRequest increments the invalid-requests metric
    and removes the peer when the index cannot be extracted.  Otherwise
    the sentinel index stands for the latest milestone index; the request
    is dropped without a trace when the tangle has no such milestone, and
    else every transaction of the milestone is enqueued on the peer as a
    transaction message, in order, and nothing else happens. *)
Theorem processMilestoneRequest_spec p (data : bytes) w :
  (∀ err, ExtractRequestedMilestoneIndex data = inl err →
   processMilestoneRequest p data w =
   Some (tt, logged w [IncInvalidRequests; PmRemove p])) ∧
  (∀ i, ExtractRequestedMilestoneIndex data = inr i →
   let msIndex := if decide (i = LatestMilestoneRequestIndex)
                  then GetLatestMilestoneIndex (env w) else i in
   match GetMilestoneOrNil msIndex (env w) with
   | None => processMilestoneRequest p data w = Some (tt, w)
   | Some ms =>
       processMilestoneRequest p data w =
       Some (tt, logged w ((λ raw, EnqueueForSending p (NewTransactionMessage raw))
                             <$> GetTransactionsRawBytes ms))
   end).
Proof.
  unfold processMilestoneRequest. split.
  - intros err ->. apply emit_emit_logged.
  - intros i ->. unfold bind, readEnv, ret. simpl.
    destruct (decide (i = LatestMilestoneRequestIndex)) as [->|Hne];
      (destruct (GetMilestoneOrNil _ (env w)) as [ms|]; [|done]);
      rewrite (forEach_logged _
                 (λ raw, [EnqueueForSending p (NewTransactionMessage raw)])) by done;
      by rewrite flat_map_singleton_fmap.
Qed.

(** ** The worker *)

(** C9. A task whose message type is none of the three handled ones
    leaves the processor as it was: no handler ran, so no metric, reply,
    event or removal. *)
Theorem worker_other_type p (msgType : MessageType) (data : bytes) (s : ProcState) :
  msgType ≠ MessageTypeTransaction →
  msgType ≠ MessageTypeTransactionRequest →
  msgType ≠ MessageTypeMilestoneRequest →
  worker handlers p msgType data s = Some s.
Proof.
  intros H1 H2 H3. unfold worker.
  by rewrite !decide_False.
Qed.

(** ** processWorkUnit *)

Lemma lockedSection_Unhashed wu :
  state wu = Unhashed → lockedSection wu = (WonHashing, UpdateState Hashing wu).
Proof. intros H. unfold lockedSection, Is. rewrite H. reflexivity. Qed.

Lemma lockedSection_Hashing wu :
  state wu = Hashing → lockedSection wu = (SawHashing, wu).
Proof. intros H. unfold lockedSection, Is. rewrite H. reflexivity. Qed.

Lemma lockedSection_Invalid wu :
  state wu = Invalid → lockedSection wu = (SawInvalid, wu).
Proof. intros H. unfold lockedSection, Is. rewrite H. reflexivity. Qed.

Lemma lockedSection_Hashed wu :
  state wu = Hashed → lockedSection wu = (SawHashed, wu).
Proof. intros H. unfold lockedSection, Is. rewrite H. reflexivity. Qed.

Lemma elem_of_receivedFromPeers wu q :
  q ∈ receivedFromPeers wu ↔ is_Some (receivedFrom wu !! q).
Proof. unfold receivedFromPeers. by rewrite elem_of_elements, elem_of_dom. Qed.

Lemma length_receivedFromPeers wu :
  length (receivedFromPeers wu) = size (receivedFrom wu).
Proof. unfold receivedFromPeers. by rewrite <- size_dom. Qed.

(** C1. When the parse of the payload fails on a WorkUnit found Unhashed,
    processWorkUnit leaves the WorkUnit Invalid with its senders as they
    were, removes exactly the peers of received_from through the peer
    manager, increments the invalid-transactions metric (once per punished
    peer, so at least once when the submitting peer is recorded), and
    fires no event. *)
Theorem processWorkUnit_parse_failure wu p w (err : GoError) :
  state wu = Unhashed →
  MessageFromBytes (receivedMsgBytes wu) DeSeriModePerformValidation = inl err →
  ∃ wu' w' l,
    processWorkUnit handlers wu p w = Some (wu', w') ∧
    state wu' = Invalid ∧ receivedFrom wu' = receivedFrom wu ∧
    log w' = log w ++ l ∧
    (∀ q, q ∈ removedPeers l ↔ is_Some (receivedFrom wu !! q)) ∧
    InvalidTransactions l = size (receivedFrom wu) ∧
    (is_Some (receivedFrom wu !! p) → 0 < InvalidTransactions l) ∧
    firedEvents l = [].
Proof.
  intros Hst Herr. unfold processWorkUnit.
  rewrite (lockedSection_Unhashed _ Hst).
  unfold bind, hash, emit, ret. simpl. rewrite Herr. simpl.
  unfold bind, ret. rewrite punish_logged, logged_logged.
  set (wu' := UpdateState Invalid (UpdateState Hashing wu)).
  destruct (punish_effects (receivedFromPeers wu')) as (Hev & Hrm & Hcnt & _).
  rewrite (length_receivedFromPeers wu') in Hcnt.
  eexists wu', _, _. split; [reflexivity|].
  split; [done|]. split; [done|]. split; [done|].
  rewrite removedPeers_app, firedEvents_app, Hrm, Hev.
  unfold InvalidTransactions. rewrite count_app, Hcnt. simpl.
  split; [apply (elem_of_receivedFromPeers wu')|]. split; [done|]. split; [|done].
  intros Hp.
  assert (size (receivedFrom wu) ≠ 0) by (apply map_size_ne_0_lookup; eauto).
  change (size (receivedFrom wu')) with (size (receivedFrom wu)). lia.
Qed.

(** What the Hashed branch does after the unlock. *)
Lemma afterHashed_logged wu p w (m : Message) (request : option Request) (e1 : Env) :
  msg wu = Some m →
  Received (GetMessageID m) (env w) = (request, e1) →
  ∃ w' l,
    afterHashed handlers wu p w = Some (tt, w') ∧ log w' = log w ++ l ∧
    l = CallReceived (GetMessageID m) ::
        match request with
        | Some r => [Trigger (MessageProcessed m (Some r) (Some p))]
        | None =>
            CallContainsMessage (GetMessageID m) ::
            if ContainsMessage (GetMessageID m) e1
            then [IncKnownTransactions; PeerIncKnownTransactions p] else []
        end.
Proof.
  intros Hm Hrq. unfold afterHashed. rewrite Hm.
  unfold bind, callReceived. rewrite Hrq.
  destruct request as [r|].
  - eexists _, _. split; [reflexivity|]. split; [|reflexivity].
    simpl. by rewrite <- app_assoc.
  - unfold callContainsMessage, bind, emit, readEnv. simpl.
    destruct (ContainsMessage (GetMessageID m) e1).
    + eexists _, _. split; [reflexivity|].
      split; [|reflexivity]. simpl. by rewrite <- !app_assoc.
    + eexists _, _. split; [reflexivity|]. split; [|reflexivity].
      simpl. by rewrite <- !app_assoc.
Qed.

(** C3. On a WorkUnit that is Hashed (its message set), processWorkUnit
    fires MessageProcessed(msg, request, peer) exactly when the request
    queue returns a request for the message id, and fires nothing else;
    when the queue returns none and the tangle contains the message, the
    server-wide and the calling peer's known-transactions counters go up
    by one each, and otherwise not at all; the WorkUnit is left as it
    was. *)
Theorem processWorkUnit_Hashed wu p w (m : Message) (request : option Request) (e1 : Env) :
  state wu = Hashed →
  msg wu = Some m →
  Received (GetMessageID m) (env w) = (request, e1) →
  ∃ w' l,
    processWorkUnit handlers wu p w = Some (wu, w') ∧
    log w' = log w ++ l ∧
    firedEvents l =
      match request with
      | Some r => [MessageProcessed m (Some r) (Some p)]
      | None => []
      end ∧
    let known := bool_decide (request = None) && ContainsMessage (GetMessageID m) e1 in
    KnownTransactions l = (if known then 1 else 0) ∧
    ∀ q, PeerKnownTransactions q l = if known && bool_decide (p = q) then 1 else 0.
Proof.
  intros Hst Hm Hrq. unfold processWorkUnit.
  rewrite (lockedSection_Hashed _ Hst). unfold bind at 1.
  destruct (afterHashed_logged wu p w m request e1 Hm Hrq) as (w' & l & -> & Hlog & ->).
  eexists w', _. split; [reflexivity|]. split; [exact Hlog|].
  destruct request as [r|]; [by repeat split|].
  destruct (ContainsMessage (GetMessageID m) e1); [|by repeat split].
  repeat split. intros q. unfold PeerKnownTransactions. simpl.
  by destruct (bool_decide (p = q)).
Qed.

(** One call on a WorkUnit in a terminal state returns, and leaves the
    WorkUnit as it found it. *)
Lemma processWorkUnit_terminal wu p w :
  state wu = Hashed ∨ state wu = Invalid →
  (state wu = Hashed → is_Some (msg wu)) →
  ∃ w', processWorkUnit handlers wu p w = Some (wu, w').
Proof.
  intros [Hst|Hst] Hmsg.
  - destruct (Hmsg Hst) as [m Hm].
    destruct (Received (GetMessageID m) (env w)) as [request e1] eqn:Hrq.
    destruct (afterHashed_logged wu p w m request e1 Hm Hrq) as (w' & l & Hrun & _).
    unfold processWorkUnit. rewrite (lockedSection_Hashed _ Hst).
    unfold bind. rewrite Hrun. eauto.
  - unfold processWorkUnit. rewrite (lockedSection_Invalid _ Hst).
    unfold bind, afterInvalid. rewrite emit_emit_logged. eauto.
Qed.

(** C4. Whatever sequence of processWorkUnit calls is made on a WorkUnit
    that is Hashed or Invalid, every call returns and the WorkUnit comes
    out as it went in: its state never changes again. *)
Theorem terminal_state_stable (ps : list PeerID) wu w :
  state wu = Hashed ∨ state wu = Invalid →
  (state wu = Hashed → is_Some (msg wu)) →
  ∃ w', processEach handlers ps wu w = Some (wu, w').
Proof.
  intros Hst Hmsg. revert w.
  induction ps as [|p ps IH]; intros w; simpl.
  - by eexists.
  - destruct (processWorkUnit_terminal wu p w Hst Hmsg) as [w1 H1].
    unfold bind. rewrite H1. apply IH.
Qed.

(** The whole log of the first-hash path that succeeds. *)
Lemma first_hash_path_log wu p w (m : Message)
    (request : option Request) (e1 : Env) :
  state wu = Unhashed →
  MessageFromBytes (receivedMsgBytes wu) DeSeriModePerformValidation = inr m →
  invalidMilestoneHashes (receivedTxHash wu) = false →
  Received (GetMessageID m) (env w) = (request, e1) →
  let containsTx := ContainsMessage (GetMessageID m) e1 in
  ∃ wu' w',
    processWorkUnit handlers wu p w = Some (wu', w') ∧
    state wu' = Hashed ∧
    log w' = log w ++
      [CallMessageFromBytes (receivedMsgBytes wu);
       CallReceived (GetMessageID m);
       CallContainsMessage (GetMessageID m);
       Trigger (MessageProcessed m request (Some p))] ++
      (PeerIncKnownTransactions <$> filter (λ q, q ≠ p) (receivedFromPeers wu)) ++
      (if bool_decide (request = None) && negb containsTx
       then [Trigger (BroadcastMessage (broadcast wu'))] else []).
Proof.
  intros Hst Hparse Hblock Hrq containsTx. unfold processWorkUnit.
  rewrite (lockedSection_Unhashed _ Hst).
  unfold bind at 1. unfold hash, bind, emit, ret. simpl. rewrite Hparse.
  unfold afterHash, bind, callReceived. simpl. rewrite Hrq, Hblock.
  unfold callContainsMessage, bind, emit, readEnv, trigger. simpl.
  rewrite increaseKnownTxCount_logged. fold containsTx.
  destruct (bool_decide (request = None) && negb containsTx);
    eexists _, _; (split; [reflexivity|]); (split; [done|]); simpl;
    rewrite <- ?app_assoc; simpl; by rewrite ?app_nil_r.
Qed.

Lemma probesAndEvents_app l1 l2 :
  probesAndEvents (l1 ++ l2) = probesAndEvents l1 ++ probesAndEvents l2.
Proof. apply omap_app. Qed.

Lemma probesAndEvents_increments (ps : list PeerID) :
  probesAndEvents (PeerIncKnownTransactions <$> ps) = [].
Proof. induction ps as [|q ps IH]; [done|]. exact IH. Qed.

(** C8. On the first-hash path that succeeds (WorkUnit found Unhashed,
    payload parsed, not on the blocklist) one call probes the tangle for
    the message id, then fires MessageProcessed, then, last, fires
    BroadcastMessage, and this exactly when the request queue returned no
    request and the probe, made on the tangle as it was before any handler
    ran, found the message absent.  Nothing else is probed or fired. *)
Theorem processWorkUnit_first_hash wu p w (m : Message)
    (request : option Request) (e1 : Env) :
  state wu = Unhashed →
  MessageFromBytes (receivedMsgBytes wu) DeSeriModePerformValidation = inr m →
  invalidMilestoneHashes (receivedTxHash wu) = false →
  Received (GetMessageID m) (env w) = (request, e1) →
  let containsTx := ContainsMessage (GetMessageID m) e1 in
  ∃ wu' w' l,
    processWorkUnit handlers wu p w = Some (wu', w') ∧
    state wu' = Hashed ∧
    log w' = log w ++ l ∧
    probesAndEvents l =
      [Probed (GetMessageID m); Fired (MessageProcessed m request (Some p))] ++
      (if bool_decide (request = None) && negb containsTx
       then [Fired (BroadcastMessage (broadcast wu'))] else []).
Proof.
  intros Hst Hparse Hblock Hrq containsTx.
  destruct (first_hash_path_log wu p w m request e1 Hst Hparse Hblock Hrq)
    as (wu' & w' & Hrun & Hst' & Hlog).
  eexists wu', w', _. split; [exact Hrun|]. split; [exact Hst'|].
  split; [exact Hlog|].
  rewrite !probesAndEvents_app, probesAndEvents_increments. simpl.
  fold containsTx. by destruct (bool_decide (request = None) && negb containsTx).
Qed.

(** ** Workers side by side *)

Lemma ensures_ret {A} (a : A) (Q : A → Prop) : Q a → ensures (ret a) Q.
Proof. intros HQ w a' w' [= <- <-]. done. Qed.

Lemma ensures_panic {A} (Q : A → Prop) : ensures panic Q.
Proof. intros w a w' [=]. Qed.

Lemma ensures_bind {A B} (m : M A) (f : A → M B) (Q : B → Prop) :
  ensures m (λ _, True) → (∀ a, ensures (f a) Q) → ensures (bind m f) Q.
Proof.
  intros Hm Hf w b w' Hrun. unfold bind in Hrun.
  destruct (m w) as [[a w1]|] eqn:Hmw; [|done].
  destruct (Hm _ _ _ Hmw) as [_ H1]. destruct (Hf a _ _ _ Hrun) as [HQ H2].
  split; [done|]. intros k. by rewrite H2, H1.
Qed.

Lemma parses_logged_other k w l :
  count (isCallMessageFromBytes k) l = 0 →
  parses k (log (logged w l)) = parses k (log w).
Proof. intros H. unfold parses. simpl. rewrite count_app, H. lia. Qed.

Lemma ensures_emit (e : Effect) :
  (∀ k, isCallMessageFromBytes k e = false) → ensures (emit e) (λ _, True).
Proof.
  intros He w [] w' [= <-]. split; [done|]. intros k.
  apply parses_logged_other. simpl. by rewrite He.
Qed.

Lemma ensures_readEnv {A} (f : Env → A) : ensures (readEnv f) (λ _, True).
Proof. intros w a w' [= <- <-]. done. Qed.

Lemma ensures_trigger (ev : Event) : ensures (trigger handlers ev) (λ _, True).
Proof.
  intros w [] w' [= <-]. split; [done|]. intros k.
  unfold parses. simpl. rewrite count_app. simpl. lia.
Qed.

Lemma ensures_callReceived (id : bytes) : ensures (callReceived id) (λ _, True).
Proof.
  intros w r w' Hrun. unfold callReceived in Hrun.
  destruct (Received id (env w)) as [r' e']. injection Hrun as <- <-.
  split; [done|]. intros k. unfold parses. simpl. rewrite count_app. simpl. lia.
Qed.

Lemma ensures_callContainsMessage (id : bytes) :
  ensures (callContainsMessage id) (λ _, True).
Proof.
  apply ensures_bind; [by apply ensures_emit|]. intros _. apply ensures_readEnv.
Qed.

Lemma ensures_forEach {A} (xs : list A) (body : A → M unit) :
  (∀ x, ensures (body x) (λ _, True)) → ensures (forEach xs body) (λ _, True).
Proof.
  intros Hbody. induction xs as [|x xs IH]; simpl.
  - by apply ensures_ret.
  - apply ensures_bind; [apply Hbody|]. intros _. apply IH.
Qed.

Lemma ensures_punish wu : ensures (punish wu) (λ _, True).
Proof.
  apply ensures_forEach. intros q.
  apply ensures_bind; [by apply ensures_emit|]. intros _. by apply ensures_emit.
Qed.

Lemma ensures_increaseKnownTxCount wu p :
  ensures (increaseKnownTxCount wu p) (λ _, True).
Proof. apply ensures_forEach. intros q. by apply ensures_emit. Qed.

Lemma ensures_afterInvalid p : ensures (afterInvalid p) (λ _, True).
Proof.
  apply ensures_bind; [by apply ensures_emit|]. intros _. by apply ensures_emit.
Qed.

Lemma ensures_afterHashed wu p : ensures (afterHashed handlers wu p) (λ _, True).
Proof.
  unfold afterHashed. destruct (msg wu) as [m|]; [|apply ensures_panic].
  apply ensures_bind; [apply ensures_callReceived|]. intros [r|].
  - apply ensures_trigger.
  - apply ensures_bind; [apply ensures_callContainsMessage|]. intros [|].
    + apply ensures_bind; [by apply ensures_emit|]. intros _. by apply ensures_emit.
    + by apply ensures_ret.
Qed.

(** After the parse the WorkUnit ends Hashed or Invalid, under its key,
    and no second parse is made. *)
Lemma ensures_afterHash (parsed : GoError + Message) wu p :
  ensures (afterHash handlers parsed wu p)
    (λ wu', (state wu' = Hashed ∨ state wu' = Invalid) ∧
            receivedMsgBytes wu' = receivedMsgBytes wu ∧
            (state wu' = Hashed → is_Some (msg wu'))).
Proof.
  unfold afterHash. destruct parsed as [err|m].
  - apply ensures_bind; [apply ensures_punish|]. intros _.
    apply ensures_ret. simpl. by repeat split; [right|..].
  - apply ensures_bind; [apply ensures_callReceived|]. intros request. simpl.
    destruct (invalidMilestoneHashes (receivedTxHash wu)).
    + apply ensures_bind; [apply ensures_punish|]. intros _.
      apply ensures_ret. simpl. by repeat split; [right|..].
    + apply ensures_bind; [apply ensures_callContainsMessage|]. intros containsTx.
      apply ensures_bind; [apply ensures_trigger|]. intros _.
      apply ensures_bind; [apply ensures_increaseKnownTxCount|]. intros _.
      apply ensures_bind.
      * destruct (_ && _); [apply ensures_trigger|by apply ensures_ret].
      * intros _. apply ensures_ret. simpl. repeat split; eauto.
Qed.

Lemma stateOf_insert (k d : bytes) wu (s : gmap bytes WorkUnit) w :
  stateOf k {| workUnits := <[d := wu]> s; world := w |} =
  if decide (d = k) then Some (state wu)
  else stateOf k {| workUnits := s; world := w |}.
Proof. unfold stateOf. simpl. rewrite lookup_insert. by case_decide. Qed.

Lemma lockedSection_Trans wu branch wu' :
  lockedSection wu = (branch, wu') →
  receivedMsgBytes wu' = receivedMsgBytes wu ∧
  Trans AtLock (Some (state wu)) (AfterLock branch) (Some (state wu')) 0.
Proof.
  unfold lockedSection, Is. intros H.
  destruct (state wu) eqn:Hst; simpl in H; injection H as <- <-;
    (split; [done|]); simpl; rewrite ?Hst; constructor.
Qed.

(** Reduce the projections of threads and states, and nothing else. *)
Ltac step_simpl :=
  cbn [stage peerOf dataOf at_stage workUnits world mbind option_bind] in *.

(** The summary of one step of a worker. *)
Lemma threadStep_summary (t t' : Thread) (s s' : ProcState) :
  (∀ k wu, workUnits s !! k = Some wu → receivedMsgBytes wu = k) →
  threadStep handlers t s = Some (t', s') →
  dataOf t' = dataOf t ∧
  (∀ k wu, workUnits s' !! k = Some wu → receivedMsgBytes wu = k) ∧
  (∀ k, k ≠ dataOf t →
     stateOf k s' = stateOf k s ∧
     parses k (log (world s')) = parses k (log (world s))) ∧
  ∃ n, Trans (stage t) (stateOf (dataOf t) s) (stage t') (stateOf (dataOf t) s') n ∧
       parses (dataOf t) (log (world s')) = parses (dataOf t) (log (world s)) + n.
Proof.
  intros Hkey Hstep. destruct t as [p d st], s as [cache w].
  unfold threadStep in Hstep. step_simpl.
  assert (Hins : ∀ wu0 wu1, cache !! d = Some wu0 →
            receivedMsgBytes wu1 = receivedMsgBytes wu0 →
            ∀ k wu, <[d := wu1]> cache !! k = Some wu → receivedMsgBytes wu = k).
  { intros wu0 wu1 H0 H1 k wu. rewrite lookup_insert. case_decide as Hk.
    - intros [= <-]. rewrite H1, <- Hk. eauto.
    - apply Hkey. }
  assert (Hother : ∀ wu1 w1 k, k ≠ d →
            stateOf k {| workUnits := <[d := wu1]> cache; world := w1 |} =
            stateOf k {| workUnits := cache; world := w |}).
  { intros wu1 w1 k Hk. rewrite stateOf_insert. by rewrite decide_False. }
  destruct st as [| | |branch|parsed|].
  - (* workUnitFor *)
    unfold workUnitFor in Hstep.
    destruct (cache !! d) as [wu0|] eqn:Hd; injection Hstep as <- <-; step_simpl.
    + repeat split; try done. exists 0. split; [|lia].
      unfold stateOf. simpl. rewrite Hd. constructor.
    + repeat split; try done.
      * intros k wu. rewrite lookup_insert. case_decide as Hk; [|apply Hkey].
        intros [= <-]. done.
      * by apply Hother.
      * exists 0. split; [|lia]. rewrite stateOf_insert, decide_True by done.
        unfold stateOf. simpl. rewrite Hd. constructor.
  - (* addReceivedFrom *)
    destruct (cache !! d) as [wu0|] eqn:Hd; [|done].
    injection Hstep as <- <-; step_simpl.
    repeat split; try done; [by apply (Hins wu0)|by apply Hother|].
    exists 0. split; [|lia]. rewrite stateOf_insert, decide_True by done.
    unfold stateOf. simpl. rewrite Hd. constructor.
  - (* the section under processingLock *)
    destruct (cache !! d) as [wu0|] eqn:Hd; [|done]. step_simpl.
    destruct (lockedSection wu0) as [branch wu1] eqn:Hlock.
    injection Hstep as <- <-; step_simpl.
    destruct (lockedSection_Trans _ _ _ Hlock) as [Hbytes Htrans].
    repeat split; try done; [by apply (Hins wu0)|by apply Hother|].
    exists 0. split; [|lia]. rewrite stateOf_insert, decide_True by done.
    unfold stateOf. simpl. by rewrite Hd.
  - destruct branch.
    + (* Hashing seen *)
      injection Hstep as <- <-; step_simpl. repeat split; try done.
      exists 0. split; [by constructor|lia].
    + (* Invalid seen *)
      destruct (afterInvalid p w) as [[[] w1]|] eqn:Hrun; [|done].
      injection Hstep as <- <-; step_simpl.
      destruct (ensures_afterInvalid _ _ _ _ Hrun) as [_ Hq].
      repeat split; try done. exists 0. split; [by constructor|]. rewrite Hq. lia.
    + (* Hashed seen *)
      destruct (cache !! d) as [wu0|] eqn:Hd; [|done]. step_simpl.
      destruct (afterHashed handlers wu0 p w) as [[[] w1]|] eqn:Hrun; [|done].
      injection Hstep as <- <-; step_simpl.
      destruct (ensures_afterHashed _ _ _ _ _ Hrun) as [_ Hq].
      repeat split; try done. exists 0. split; [by constructor|]. rewrite Hq. lia.
    + (* the parse *)
      destruct (cache !! d) as [wu0|] eqn:Hd; [|done]. step_simpl.
      pose proof (Hkey _ _ Hd) as Hbytes.
      assert (Hp : ∀ k, parses k (log (logged w [CallMessageFromBytes d])) =
                        parses k (log w) + Nat.b2n (bool_decide (d = k))).
      { intros k. unfold parses. simpl. rewrite count_app. simpl.
        destruct (bool_decide (d = k)); simpl; lia. }
      unfold hash, bind, emit, ret in Hstep. rewrite Hbytes in Hstep.
      injection Hstep as <- <-; step_simpl.
      repeat split; try done.
      * rewrite Hp, bool_decide_eq_false_2 by done. simpl. lia.
      * exists 1. split.
        -- unfold stateOf. simpl. rewrite Hd. constructor.
        -- by rewrite Hp, bool_decide_eq_true_2.
  - (* after the parse *)
    destruct (cache !! d) as [wu0|] eqn:Hd; [|done]. step_simpl.
    destruct (afterHash handlers parsed wu0 p w) as [[wu1 w1]|] eqn:Hrun; [|done].
    injection Hstep as <- <-; step_simpl.
    destruct (ensures_afterHash _ _ _ _ _ _ Hrun) as [(Hst & Hbytes & _) Hq].
    repeat split; try done; [by apply (Hins wu0)| |].
    + by rewrite stateOf_insert, decide_False.
    + exists 0. split; [|rewrite Hq; lia].
      rewrite stateOf_insert, decide_True by done.
      unfold stateOf. simpl. rewrite Hd. by constructor.
  - done.
Qed.

Lemma count_insert {A} (f : A → bool) (l : list A) (i : nat) (x y : A) :
  l !! i = Some x →
  count f (<[i := y]> l) + Nat.b2n (f x) = count f l + Nat.b2n (f y).
Proof.
  revert i. induction l as [|z l IH]; intros [|i] Hi; try done; simpl in *.
  - injection Hi as ->. unfold Nat.b2n. destruct (f x), (f y); lia.
  - specialize (IH i Hi). lia.
Qed.

Lemma Trans_mono a st b st' n :
  Trans a st b st' n →
  (is_Some st → is_Some st') ∧
  (leftUnhashed st = true → leftUnhashed st' = true).
Proof.
  intros H. destruct H as [| | | | | | | | |? ? ? [-> | ->]];
    split; try done; by intros [? [=]].
Qed.

Lemma hashingOf_other (k : bytes) (t : Thread) : k ≠ dataOf t → hashingOf k t = false.
Proof. intros Hk. unfold hashingOf. by rewrite bool_decide_eq_false_2. Qed.

Lemma winnerOf_other (k : bytes) (t : Thread) : k ≠ dataOf t → winnerOf k t = false.
Proof. intros Hk. unfold winnerOf. by rewrite bool_decide_eq_false_2. Qed.

Lemma hashingOf_own (k : bytes) (t : Thread) :
  dataOf t = k →
  hashingOf k t =
  match stage t with AfterLock WonHashing | AfterHash _ => true | _ => false end.
Proof. intros Hk. unfold hashingOf. by rewrite bool_decide_eq_true_2. Qed.

Lemma winnerOf_own (k : bytes) (t : Thread) :
  dataOf t = k →
  winnerOf k t =
  match stage t with AfterLock WonHashing => true | _ => false end.
Proof. intros Hk. unfold winnerOf. by rewrite bool_decide_eq_true_2. Qed.

(** A step keeps the message of every Hashed WorkUnit set. *)
Lemma threadStep_msg (t t' : Thread) (s s' : ProcState) :
  (∀ k wu, workUnits s !! k = Some wu → state wu = Hashed → is_Some (msg wu)) →
  threadStep handlers t s = Some (t', s') →
  ∀ k wu, workUnits s' !! k = Some wu → state wu = Hashed → is_Some (msg wu).
Proof.
  intros Hmsg Hstep. destruct t as [p d st], s as [cache w].
  unfold threadStep in Hstep. step_simpl.
  assert (Hins : ∀ wu1, (state wu1 = Hashed → is_Some (msg wu1)) →
            ∀ k wu, <[d := wu1]> cache !! k = Some wu →
                    state wu = Hashed → is_Some (msg wu)).
  { intros wu1 H1 k wu. rewrite lookup_insert. case_decide.
    - by intros [= <-].
    - apply Hmsg. }
  destruct st as [| | |branch|parsed|].
  - unfold workUnitFor in Hstep.
    destruct (cache !! d) as [wu0|] eqn:Hd; injection Hstep as <- <-; step_simpl;
      [done|]. by apply Hins.
  - destruct (cache !! d) as [wu0|] eqn:Hd; [|done]. step_simpl.
    injection Hstep as <- <-; step_simpl. apply Hins. apply (Hmsg d wu0 Hd).
  - destruct (cache !! d) as [wu0|] eqn:Hd; [|done]. step_simpl.
    destruct (lockedSection wu0) as [branch wu1] eqn:Hlock.
    injection Hstep as <- <-; step_simpl. apply Hins.
    unfold lockedSection in Hlock.
    repeat match type of Hlock with
           | (if ?b then _ else _) = _ => destruct b
           end; injection Hlock as <- <-; try done; apply (Hmsg d wu0 Hd).
  - destruct branch.
    + by injection Hstep as <- <-.
    + destruct (afterInvalid p w) as [[[] w1]|]; [|done].
      by injection Hstep as <- <-.
    + destruct (cache !! d) as [wu0|]; [|done]. step_simpl.
      destruct (afterHashed handlers wu0 p w) as [[[] w1]|]; [|done].
      by injection Hstep as <- <-.
    + destruct (cache !! d) as [wu0|]; [|done]. step_simpl.
      destruct (hash wu0 w) as [[parsed w1]|]; [|done].
      by injection Hstep as <- <-.
  - destruct (cache !! d) as [wu0|] eqn:Hd; [|done]. step_simpl.
    destruct (afterHash handlers parsed wu0 p w) as [[wu1 w1]|] eqn:Hrun; [|done].
    injection Hstep as <- <-; step_simpl. apply Hins.
    by destruct (ensures_afterHash _ _ _ _ _ _ Hrun) as [(_ & _ & ?) _].
  - done.
Qed.

(** A step leaves a WorkUnit that is Hashed or Invalid in its state:
    the one worker that could change it has finished. *)
Lemma threadStep_terminal (sys : System) (i : nat) (t t' : Thread) (s' : ProcState)
    (k : bytes) (st : WorkUnitState) :
  Inv sys → threads sys !! i = Some t →
  threadStep handlers t (shared sys) = Some (t', s') →
  stateOf k (shared sys) = Some st → st = Hashed ∨ st = Invalid →
  stateOf k s' = Some st.
Proof.
  intros HI Ht Hstep Hst Hterm.
  destruct (threadStep_summary _ _ _ _ (inv_key _ HI) Hstep)
    as (Hd & _ & Hoth & n & Htr & _).
  destruct (decide (k = dataOf t)) as [->|Hne].
  - pose proof (inv_hashing _ HI (dataOf t)) as Hh.
    pose proof (count_insert (hashingOf (dataOf t)) _ i t t' Ht) as Hcnt.
    rewrite (hashingOf_own _ t eq_refl), (hashingOf_own _ t' Hd) in Hcnt.
    rewrite Hst in Hh, Htr.
    rewrite decide_False in Hh by (destruct Hterm; congruence).
    inversion Htr as [| | | | | | |b ? Hb| |? ? ? Hterm']; subst; try done;
      try (destruct Hterm; congruence).
    repeat match goal with H : _ = stage _ |- _ => rewrite <- H in * end.
    simpl in Hcnt. lia.
  - destruct (Hoth k Hne) as [-> _]. done.
Qed.

(** A step of any worker keeps the invariant. *)
Lemma schedule_Inv (i : nat) (sys sys' : System) :
  Inv sys → schedule handlers i sys = Some sys' → Inv sys'.
Proof.
  intros HI Hs. unfold schedule in Hs.
  destruct (threads sys !! i) as [t|] eqn:Ht; [|done]. step_simpl.
  destruct (threadStep handlers t (shared sys)) as [[t' s']|] eqn:Hstep; [|done].
  step_simpl. injection Hs as <-.
  destruct (threadStep_summary _ _ _ _ (inv_key _ HI) Hstep)
    as (Hd & Hkey' & Hoth & n & Htr & Hpar).
  pose proof (λ f, count_insert f _ i t t' Ht) as Hcnt.
  pose proof (λ k st, threadStep_terminal sys i t t' s' k st HI Ht Hstep) as Hkeep.
  destruct (inv_stage _ HI i t Ht) as (Hheld & Hpast & Hsaw).
  constructor; simpl.
  - exact Hkey'.
  - intros k. specialize (Hcnt (hashingOf k)).
    pose proof (inv_hashing _ HI k) as Hk.
    destruct (decide (k = dataOf t)) as [->|Hne].
    + rewrite (hashingOf_own _ t eq_refl), (hashingOf_own _ t' Hd) in Hcnt.
      inversion Htr as [| | | | | | |b ? Hb| |? ? ? Hterm]; subst;
        repeat match goal with H : _ = stage _ |- _ => rewrite <- H in * end;
        repeat match goal with H : _ = stateOf _ _ |- _ => rewrite <- H in * end;
        simpl in *; repeat case_decide; try congruence; try lia.
      * destruct b; simpl in *; try done; lia.
      * destruct Hterm; congruence.
    + rewrite !hashingOf_other in Hcnt by congruence.
      destruct (Hoth k Hne) as [-> _]. simpl in Hcnt. lia.
  - intros k. specialize (Hcnt (winnerOf k)).
    pose proof (inv_parses _ HI k) as Hk.
    destruct (decide (k = dataOf t)) as [->|Hne].
    + rewrite (winnerOf_own _ t eq_refl), (winnerOf_own _ t' Hd) in Hcnt.
      rewrite Hpar.
      inversion Htr as [| | | | | | |b ? Hb| |? ? ? Hterm]; subst;
        repeat match goal with H : _ = stage _ |- _ => rewrite <- H in * end;
        repeat match goal with H : _ = stateOf _ _ |- _ => rewrite <- H in * end;
        simpl in *; try lia.
      * destruct b; simpl in *; try done; lia.
      * specialize (Hpast eq_refl).
        destruct st; try done; destruct Hterm; subst; simpl in *; lia.
    + rewrite !winnerOf_other in Hcnt by congruence.
      destruct (Hoth k Hne) as [-> ->]. simpl in Hcnt. lia.
  - intros j t2 Hj.
    apply list_lookup_insert_Some in Hj as [(<- & <- & _)|(Hne & Hj)].
    + rewrite Hd. destruct (Trans_mono _ _ _ _ _ Htr) as [Hm1 Hm2].
      inversion Htr as [| | | | | | |b ? Hb| |? ? ? Hterm]; subst;
        repeat match goal with H : _ = stage _ |- _ => rewrite <- H in * end;
        repeat match goal with H : _ = stateOf _ _ |- _ => rewrite <- H in * end;
        (split; [|split]); intros; try done; eauto.
    + destruct (inv_stage _ HI j t2 Hj) as (H1 & H2 & H3).
      split; [|split].
      * destruct (decide (dataOf t2 = dataOf t)) as [Heq|Hneq].
        -- rewrite Heq in *. destruct (Trans_mono _ _ _ _ _ Htr) as [Hm1 Hm2]. eauto.
        -- destruct (Hoth _ Hneq) as [-> _]. done.
      * destruct (decide (dataOf t2 = dataOf t)) as [Heq|Hneq].
        -- rewrite Heq in *. destruct (Trans_mono _ _ _ _ _ Htr) as [Hm1 Hm2]. eauto.
        -- destruct (Hoth _ Hneq) as [-> _]. done.
      * intros Hst2. apply Hkeep; [by apply H3|by left].
  - apply (threadStep_msg _ _ _ _ (inv_msg _ HI) Hstep).
Qed.

Lemma run_Inv (order : list nat) (sys sys' : System) :
  Inv sys → run handlers order sys = Some sys' → Inv sys'.
Proof.
  revert sys. induction order as [|i order IH]; intros sys HI Hrun; simpl in Hrun.
  - by injection Hrun as <-.
  - destruct (schedule handlers i sys) as [sys1|] eqn:Hs; [|done].
    eapply IH; [|done]. by eapply schedule_Inv.
Qed.

Lemma count_none {A} (f : A → bool) (l : list A) :
  (∀ x, x ∈ l → f x = false) → count f l = 0.
Proof.
  induction l as [|x l IH]; intros H; simpl; [done|].
  rewrite (H x) by by left. rewrite IH; [done|]. intros y Hy. apply H. by right.
Qed.

Lemma initial_stage (tasks : list (PeerID * bytes)) (e : Env) (t : Thread) :
  t ∈ threads (initial tasks e) → stage t = AtWorkUnitFor.
Proof.
  unfold initial. simpl. intros Ht.
  apply list_elem_of_fmap in Ht as ([p d] & -> & _). done.
Qed.

Lemma initial_Inv (tasks : list (PeerID * bytes)) (e : Env) : Inv (initial tasks e).
Proof.
  constructor.
  - intros k wu H. done.
  - intros k. rewrite count_none; [done|]. intros t Ht.
    unfold hashingOf. rewrite (initial_stage _ _ _ Ht). apply andb_false_r.
  - intros k. rewrite count_none; [done|]. intros t Ht.
    unfold winnerOf. rewrite (initial_stage _ _ _ Ht). apply andb_false_r.
  - intros i t Ht. apply list_elem_of_lookup_2 in Ht.
    rewrite (initial_stage _ _ _ Ht). done.
  - intros k wu H. done.
Qed.

(** The workers keep their tasks. *)
Lemma run_data (order : list nat) (sys sys' : System) :
  Inv sys → run handlers order sys = Some sys' →
  dataOf <$> threads sys' = dataOf <$> threads sys.
Proof.
  revert sys. induction order as [|i order IH]; intros sys HI Hrun; simpl in Hrun.
  - by injection Hrun as <-.
  - destruct (schedule handlers i sys) as [sys1|] eqn:Hs; [|done].
    rewrite (IH sys1); [|by eapply schedule_Inv|done].
    unfold schedule in Hs.
    destruct (threads sys !! i) as [t|] eqn:Ht; [|done]. step_simpl.
    destruct (threadStep handlers t (shared sys)) as [[t' s']|] eqn:Hstep; [|done].
    step_simpl. injection Hs as <-. simpl.
    destruct (threadStep_summary _ _ _ _ (inv_key _ HI) Hstep) as (Hd & _).
    rewrite list_fmap_insert, Hd. apply list_insert_id.
    by rewrite list_lookup_fmap, Ht.
Qed.

(** What follows the parse always returns. *)
Lemma afterHash_total (parsed : GoError + Message) wu p w :
  is_Some (afterHash handlers parsed wu p w).
Proof.
  unfold afterHash. destruct parsed as [err|m].
  - unfold bind. rewrite punish_logged. by eexists.
  - unfold bind, callReceived.
    destruct (Received (GetMessageID m) (env w)) as [request e1]. simpl.
    destruct (invalidMilestoneHashes (receivedTxHash wu)).
    + unfold bind. rewrite punish_logged. by eexists.
    + unfold callContainsMessage, bind, emit, readEnv, trigger. simpl.
      rewrite increaseKnownTxCount_logged.
      destruct (_ && _); by eexists.
Qed.

(** No worker is ever stuck: in every state a run reaches, a worker that
    is not finished can take its next step (no panic, no missing cache
    entry). *)
Lemma schedule_progress (i : nat) (sys : System) (t : Thread) :
  Inv sys → threads sys !! i = Some t → isFinished t = false →
  is_Some (schedule handlers i sys).
Proof.
  intros HI Ht Hfin. unfold schedule. rewrite Ht. step_simpl.
  destruct (inv_stage _ HI i t Ht) as (Hheld & Hpast & Hsaw).
  assert (Hlook : stage t ≠ AtWorkUnitFor →
            ∃ wu, workUnits (shared sys) !! dataOf t = Some wu ∧
                  stateOf (dataOf t) (shared sys) = Some (state wu)).
  { intros Hne. destruct (Hheld Hne) as [st Hst]. unfold stateOf in *.
    destruct (workUnits (shared sys) !! dataOf t) as [wu|]; [|done]. eauto. }
  enough (is_Some (threadStep handlers t (shared sys))) as [[t' s'] ->] by by eexists.
  unfold threadStep, isFinished in *.
  destruct (stage t) as [| | |branch|parsed|] eqn:Hst; [| | | | |done].
  - destruct (workUnitFor _ _). by eexists.
  - destruct Hlook as (wu & -> & _); [done|]. by eexists.
  - destruct Hlook as (wu & -> & _); [done|]. step_simpl.
    destruct (lockedSection wu). by eexists.
  - destruct branch.
    + by eexists.
    + unfold afterInvalid. rewrite emit_emit_logged. by eexists.
    + destruct Hlook as (wu & Hwu & Hstate); [done|]. rewrite Hwu. step_simpl.
      rewrite (Hsaw eq_refl) in Hstate. injection Hstate as Hstate.
      destruct (inv_msg _ HI _ _ Hwu) as [m Hm]; [done|].
      destruct (Received (GetMessageID m) (env (world (shared sys))))
        as [request e1] eqn:Hrq.
      destruct (afterHashed_logged wu (peerOf t) _ m request e1 Hm Hrq)
        as (w' & l & -> & _). by eexists.
    + destruct Hlook as (wu & -> & _); [done|]. by eexists.
  - destruct Hlook as (wu & -> & _); [done|]. step_simpl.
    destruct (afterHash_total parsed wu (peerOf t) (world (shared sys)))
      as [[wu' w'] ->]. by eexists.
Qed.

Lemma remainingAll_insert (ts : list Thread) (i : nat) (t t' : Thread) :
  ts !! i = Some t →
  remainingAll (<[i := t']> ts) + remaining t = remainingAll ts + remaining t'.
Proof.
  revert i.
  induction ts as [|z ts IH]; intros [|i] Hi; try done; simpl in *.
  - injection Hi as ->. lia.
  - specialize (IH i Hi). lia.
Qed.

Lemma remainingAll_zero (ts : list Thread) :
  remainingAll ts = 0 → ∀ t, t ∈ ts → isFinished t = true.
Proof.
  induction ts as [|z ts IH]; simpl; intros H t Ht.
  - by apply elem_of_nil in Ht.
  - apply elem_of_cons in Ht as [->|Ht]; [|apply IH; [lia|done]].
    unfold remaining, isFinished in *. destruct (stage z) as [| | |[]| |]; try done; lia.
Qed.

Lemma remainingAll_pos (ts : list Thread) :
  0 < remainingAll ts → ∃ i t, ts !! i = Some t ∧ isFinished t = false.
Proof.
  induction ts as [|z ts IH]; simpl; [lia|]. intros H.
  destruct (isFinished z) eqn:Hz.
  - destruct IH as (i & t & Hi & Ht).
    { unfold remaining, isFinished in *. by destruct (stage z). }
    by exists (S i), t.
  - by exists 0, z.
Qed.

(** Every step brings a worker nearer to its end. *)
Lemma Trans_remaining (t t' : Thread) st st' n :
  Trans (stage t) st (stage t') st' n → remaining t' < remaining t.
Proof.
  unfold remaining. intros H.
  inversion H as [| | | | | | |b ? Hb| |]; subst; try lia.
  destruct b; try done; lia.
Qed.

(** From every state a run reaches, the workers can all be run to their
    end. *)
Lemma can_finish (sys : System) :
  Inv sys →
  ∃ order sys', run handlers order sys = Some sys' ∧
                ∀ t, t ∈ threads sys' → isFinished t = true.
Proof.
  remember (remainingAll (threads sys)) as n eqn:Hn. revert sys Hn.
  induction (lt_wf n) as [n _ IH]. intros sys Hn HI.
  destruct (decide (n = 0)) as [->|Hpos].
  - exists [], sys. split; [done|]. by apply remainingAll_zero.
  - destruct (remainingAll_pos (threads sys)) as (i & t & Hi & Hfin); [lia|].
    destruct (schedule_progress i sys t HI Hi Hfin) as [sys1 Hs].
    pose proof (schedule_Inv _ _ _ HI Hs) as HI1.
    assert (Hlt : remainingAll (threads sys1) < n).
    { unfold schedule in Hs. rewrite Hi in Hs. step_simpl.
      destruct (threadStep handlers t (shared sys)) as [[t' s']|] eqn:Hstep; [|done].
      step_simpl. injection Hs as <-. simpl.
      destruct (threadStep_summary _ _ _ _ (inv_key _ HI) Hstep)
        as (_ & _ & _ & k & Htr & _).
      pose proof (Trans_remaining _ _ _ _ _ Htr).
      pose proof (remainingAll_insert _ i t t' Hi). lia. }
    destruct (IH _ Hlt sys1 eq_refl HI1) as (order & sys' & Hrun & Hall).
    exists (i :: order), sys'. split; [|done]. simpl. by rewrite Hs.
Qed.

(** C2. However the steps of the workers that process the submitted
    payloads interleave (the cache entries staying live), in every state
    reached: the cache holds at most one WorkUnit per byte sequence; each
    byte sequence has been parsed at most once; the parses made plus the
    workers that took the WorkUnit from Unhashed to Hashing under the lock
    and have yet to parse are one when the WorkUnit has left Unhashed and
    none before; at most one worker is between that transition and the
    end of its work; once all workers are finished every submitted byte
    sequence has been parsed exactly once; and the workers can always be
    run on until all are finished. *)
Theorem parse_exactly_once (tasks : list (PeerID * bytes)) (e : Env)
    (order : list nat) (sys : System) (k : bytes) :
  run handlers order (initial tasks e) = Some sys →
  (∀ k1 k2 wu1 wu2,
     workUnits (shared sys) !! k1 = Some wu1 →
     workUnits (shared sys) !! k2 = Some wu2 →
     receivedMsgBytes wu1 = receivedMsgBytes wu2 → k1 = k2 ∧ wu1 = wu2) ∧
  parses k (log (world (shared sys))) ≤ 1 ∧
  parses k (log (world (shared sys))) + count (winnerOf k) (threads sys) =
    Nat.b2n (leftUnhashed (stateOf k (shared sys))) ∧
  count (hashingOf k) (threads sys) ≤ 1 ∧
  (k ∈ tasks.*2 → (∀ t, t ∈ threads sys → isFinished t = true) →
   parses k (log (world (shared sys))) = 1) ∧
  (∃ order' sys', run handlers order' sys = Some sys' ∧
                  ∀ t, t ∈ threads sys' → isFinished t = true).
Proof.
  intros Hrun.
  pose proof (run_Inv _ _ _ (initial_Inv tasks e) Hrun) as HI.
  pose proof (inv_parses _ HI k) as Hpar.
  pose proof (inv_hashing _ HI k) as Hhash.
  split; [|split; [|split; [|split; [|split; [|by apply can_finish]]]]].
  - intros k1 k2 wu1 wu2 H1 H2 Heq.
    assert (k1 = k2) as ->.
    { by rewrite <- (inv_key _ HI _ _ H1), <- (inv_key _ HI _ _ H2). }
    split; [done|congruence].
  - destruct (leftUnhashed _); simpl in Hpar; lia.
  - exact Hpar.
  - case_decide; lia.
  - intros Hk Hfin.
    assert (∃ t, t ∈ threads sys ∧ dataOf t = k) as (t & Ht & Hd).
    { pose proof (run_data _ _ _ (initial_Inv tasks e) Hrun) as Hdata.
      assert (k ∈ dataOf <$> threads sys) as Hin.
      { rewrite Hdata. unfold initial. simpl. rewrite <- list_fmap_compose.
        apply list_elem_of_fmap in Hk as ([p d] & -> & Hk).
        apply list_elem_of_fmap. by exists (p, d). }
      apply list_elem_of_fmap in Hin as (t & -> & Ht). eauto. }
    pose proof (Hfin t Ht) as Hft. unfold isFinished in Hft.
    apply list_elem_of_lookup in Ht as [i Hi].
    destruct (inv_stage _ HI i t Hi) as (_ & Hpast & _).
    rewrite Hd in Hpast. rewrite Hpast in Hpar by by destruct (stage t).
    rewrite count_none in Hpar; [simpl in Hpar; lia|].
    intros t2 Ht2. specialize (Hfin t2 Ht2). unfold isFinished in Hfin.
    unfold winnerOf. destruct (stage t2); try done. apply andb_false_r.
Qed.

(** A worker alone, run to its end, is processTransaction. *)
Lemma runThread_processTransaction p (data : bytes) (s : ProcState) :
  runThread handlers 5 {| peerOf := p; dataOf := data; stage := AtWorkUnitFor |} s =
  processTransaction handlers p data s.
Proof.
  destruct s as [cache w]. unfold processTransaction.
  cbn [runThread threadStep stage dataOf peerOf workUnits world].
  destruct (workUnitFor data cache) as [wu0 cache0] eqn:Hfor.
  assert (Hwu0 : cache0 !! data = Some wu0).
  { unfold workUnitFor in Hfor. destruct (cache !! data) as [wu|] eqn:Hd.
    - by injection Hfor as <- <-.
    - injection Hfor as <- <-. apply lookup_insert_eq. }
  cbn [mbind option_bind runThread threadStep stage dataOf peerOf at_stage
       workUnits world].
  rewrite Hwu0.
  cbn [mbind option_bind runThread threadStep stage dataOf peerOf at_stage
       workUnits world].
  rewrite lookup_insert_eq.
  cbn [mbind option_bind]. unfold processWorkUnit.
  destruct (lockedSection (addReceivedFrom p None wu0)) as [branch wu1].
  cbn [mbind option_bind runThread threadStep stage dataOf peerOf at_stage
       workUnits world].
  rewrite !insert_insert_eq.
  destruct branch;
    cbn [mbind option_bind runThread threadStep stage dataOf peerOf at_stage
         workUnits world].
  - reflexivity.
  - unfold bind. destruct (afterInvalid p w) as [[[] w1]|]; reflexivity.
  - rewrite lookup_insert_eq. cbn [mbind option_bind]. unfold bind.
    destruct (afterHashed handlers wu1 p w) as [[[] w1]|]; reflexivity.
  - rewrite lookup_insert_eq. cbn [mbind option_bind]. unfold bind at 1.
    destruct (hash wu1 w) as [[parsed w1]|]; [|reflexivity].
    cbn [mbind option_bind runThread threadStep stage dataOf peerOf at_stage
         workUnits world].
    rewrite lookup_insert_eq. cbn [mbind option_bind].
    destruct (afterHash handlers parsed wu1 p w1) as [[wu2 w2]|]; [|reflexivity].
    cbn [mbind option_bind runThread stage at_stage]. by rewrite insert_insert_eq.
Qed.

(** Among workers side by side too, a WorkUnit that is Hashed or
    Invalid stays so at every later step. *)
Lemma terminal_state_kept (tasks : list (PeerID * bytes)) (e : Env)
    (order : list nat) (sys sys' : System) (i : nat) (k : bytes) (st : WorkUnitState) :
  run handlers order (initial tasks e) = Some sys →
  stateOf k (shared sys) = Some st → st = Hashed ∨ st = Invalid →
  schedule handlers i sys = Some sys' →
  stateOf k (shared sys') = Some st.
Proof.
  intros Hrun Hst Hterm Hs.
  pose proof (run_Inv _ _ _ (initial_Inv tasks e) Hrun) as HI.
  unfold schedule in Hs.
  destruct (threads sys !! i) as [t|] eqn:Ht; [|done]. step_simpl.
  destruct (threadStep handlers t (shared sys)) as [[t' s']|] eqn:Hstep; [|done].
  step_simpl. injection Hs as <-. simpl.
  by eapply threadStep_terminal.
Qed.

(** * More of the processor *)

Set Warnings "-clear-no-such-hyp".

(** ** The other branches of processWorkUnit *)

(** A delivery by a peer of a payload whose WorkUnit is Invalid: one
    increment of the invalid-transactions metric and the removal of that
    peer, nothing else (no other sender removed, no event, no parse, no
    access to the request queue or the tangle), the WorkUnit as it
    was. *)
Theorem processWorkUnit_Invalid wu p w :
  state wu = Invalid →
  processWorkUnit handlers wu p w =
  Some (wu, logged w [IncInvalidTransactions; PmRemove p]).
Proof.
  intros Hst. unfold processWorkUnit. rewrite (lockedSection_Invalid _ Hst).
  unfold bind, afterInvalid. by rewrite emit_emit_logged.
Qed.

(** A delivery that comes while another worker is hashing the same
    payload records the sender on the WorkUnit and does nothing else: the
    world (metrics, peers, events, queue, tangle) is as before. *)
Theorem processTransaction_while_hashing p (data : bytes) (s : ProcState) wu :
  workUnits s !! data = Some wu →
  state wu = Hashing →
  processTransaction handlers p data s =
  Some {| workUnits := <[data := addReceivedFrom p None wu]> (workUnits s);
          world := world s |}.
Proof.
  intros Hwu Hst. unfold processTransaction, workUnitFor. rewrite Hwu.
  unfold processWorkUnit.
  by rewrite (lockedSection_Hashing (addReceivedFrom p None wu) Hst).
Qed.

Lemma count_isCallReceived_punish (id : bytes) (ps : list PeerID) :
  count (isCallReceived id)
    (flat_map (λ p, [IncInvalidTransactions; PmRemove p]) ps) = 0.
Proof. induction ps as [|q ps IH]; [done|]. exact IH. Qed.

Lemma probesAndEvents_punish (ps : list PeerID) :
  probesAndEvents (flat_map (λ p, [IncInvalidTransactions; PmRemove p]) ps) = [].
Proof. induction ps as [|q ps IH]; [done|]. exact IH. Qed.

(** A payload that parses but is on the blocklist of milestone hashes:
    the request queue has been told of its arrival before the blocklist
    is looked at (the queue is left as Received left it), the parsed
    message and its id are stored on the WorkUnit, the WorkUnit ends
    Invalid, the tangle is never probed and no event fires. *)
Theorem processWorkUnit_blocklisted wu p w (m : Message)
    (request : option Request) (e1 : Env) :
  state wu = Unhashed →
  MessageFromBytes (receivedMsgBytes wu) DeSeriModePerformValidation = inr m →
  invalidMilestoneHashes (receivedTxHash wu) = true →
  Received (GetMessageID m) (env w) = (request, e1) →
  ∃ wu' w' l,
    processWorkUnit handlers wu p w = Some (wu', w') ∧
    state wu' = Invalid ∧ msg wu' = Some m ∧
    receivedMsgID wu' = Some (GetMessageID m) ∧
    env w' = e1 ∧ log w' = log w ++ l ∧
    count (isCallReceived (GetMessageID m)) l = 1 ∧
    probesAndEvents l = [].
Proof.
  intros Hst Hparse Hblock Hrq. unfold processWorkUnit.
  rewrite (lockedSection_Unhashed _ Hst).
  unfold bind at 1. unfold hash, bind, emit, ret. simpl. rewrite Hparse.
  unfold afterHash, bind, callReceived. simpl. rewrite Hrq, Hblock.
  unfold bind, ret. rewrite punish_logged.
  eexists _, _, _. split; [reflexivity|]. simpl.
  split; [done|]. split; [done|]. split; [done|]. split; [done|].
  split; [by rewrite <- !app_assoc|].
  rewrite !count_app, !probesAndEvents_app, count_isCallReceived_punish,
    probesAndEvents_punish. simpl.
  by rewrite bool_decide_eq_true_2.
Qed.

(** ** Requests *)

Lemma processMessageRequest_answers p (data : bytes) w :
  ∃ l, processMessageRequest p data w = Some (tt, logged w l) ∧
       length l ≤ 1 ∧ ∀ e, e ∈ l → answers p e.
Proof.
  unfold processMessageRequest, bind, readEnv.
  destruct (decide (length data ≠ 49)).
  { exists []. rewrite logged_nil. split; [done|]. split; [simpl; lia|].
    by intros e ?%elem_of_nil. }
  destruct (GetCachedMessageOrNil data (env w)) as [m|].
  - eexists [_]. split; [reflexivity|]. split; [done|].
    intros e ->%list_elem_of_singleton. left. by eexists.
  - exists []. rewrite logged_nil. split; [done|]. split; [simpl; lia|].
    by intros e ?%elem_of_nil.
Qed.

Lemma processMilestoneRequest_answers p (data : bytes) w :
  ∃ l, processMilestoneRequest p data w = Some (tt, logged w l) ∧
       ∀ e, e ∈ l → answers p e.
Proof.
  unfold processMilestoneRequest.
  destruct (ExtractRequestedMilestoneIndex data) as [err|i].
  - eexists. rewrite emit_emit_logged. split; [reflexivity|].
    intros e [->|[->|[]%elem_of_nil]%elem_of_cons]%elem_of_cons;
      [right; by left|right; by right].
  - unfold bind, readEnv, ret.
    assert (∀ i', ∃ l,
      match GetMilestoneOrNil i' (env w) with
      | Some ms =>
          forEach (GetTransactionsRawBytes ms)
            (λ raw, emit (EnqueueForSending p (NewTransactionMessage raw)))
      | None => λ w0, Some ((), w0)
      end w = Some (tt, logged w l) ∧ ∀ e, e ∈ l → answers p e) as Hgen.
    { intros i'. destruct (GetMilestoneOrNil i' (env w)) as [ms|].
      - eexists. rewrite (forEach_logged _
          (λ raw, [EnqueueForSending p (NewTransactionMessage raw)])) by done.
        split; [reflexivity|]. rewrite flat_map_singleton_fmap.
        intros e (raw & -> & _)%list_elem_of_fmap. left. by eexists.
      - exists []. rewrite logged_nil. split; [done|]. by intros e ?%elem_of_nil. }
    destruct (decide (i = LatestMilestoneRequestIndex)); apply Hgen.
Qed.

(** A task that is not a transaction payload leaves the WorkUnit cache,
    the tangle and the request queue as they were and fires no event:
    all it may do is enqueue replies on the peer that sent it, or count
    an invalid request and remove that peer.  It always returns. *)
Theorem worker_request_frame p (msgType : MessageType) (data : bytes) (s : ProcState) :
  msgType ≠ MessageTypeTransaction →
  ∃ l, worker handlers p msgType data s =
         Some {| workUnits := workUnits s; world := logged (world s) l |} ∧
       ∀ e, e ∈ l → answers p e.
Proof.
  intros Hty. unfold worker. rewrite decide_False by done.
  destruct (decide (msgType = MessageTypeTransactionRequest)).
  { destruct (processMessageRequest_answers p data (world s)) as (l & Hrun & _ & Hl).
    exists l. unfold liftM. by rewrite Hrun. }
  destruct (decide (msgType = MessageTypeMilestoneRequest)).
  { destruct (processMilestoneRequest_answers p data (world s)) as (l & Hrun & Hl).
    exists l. unfold liftM. by rewrite Hrun. }
  exists []. rewrite logged_nil. split; [by destruct s|]. by intros e ?%elem_of_nil.
Qed.

(** ** Tasks taken one after the other *)

Lemma started_settled (e : Env) : settled (started e).
Proof. intros k. unfold started. simpl. by rewrite lookup_empty. Qed.

Lemma answers_no_parse p l (k : bytes) :
  (∀ e, e ∈ l → answers p e) → count (isCallMessageFromBytes k) l = 0.
Proof.
  intros Hl. apply count_none. intros e He.
  by destruct (Hl e He) as [[m ->]|[->| ->]].
Qed.

(** A call on a WorkUnit that is not Unhashed parses nothing and returns
    the WorkUnit as it was. *)
Lemma ensures_processWorkUnit_seen wu p :
  state wu ≠ Unhashed →
  ensures (processWorkUnit handlers wu p) (λ wu', wu' = wu).
Proof.
  intros Hst. unfold processWorkUnit.
  destruct (state wu) eqn:Hs; [done| | |].
  - rewrite (lockedSection_Hashing _ Hs). by apply ensures_ret.
  - rewrite (lockedSection_Hashed _ Hs).
    apply ensures_bind; [apply ensures_afterHashed|]. intros _. by apply ensures_ret.
  - rewrite (lockedSection_Invalid _ Hs).
    apply ensures_bind; [apply ensures_afterInvalid|]. intros _. by apply ensures_ret.
Qed.

(** The first call on a WorkUnit returns, parses its bytes once and
    leaves it Hashed or Invalid. *)
Lemma processWorkUnit_first_call wu p w :
  state wu = Unhashed →
  ∃ wu' w',
    processWorkUnit handlers wu p w = Some (wu', w') ∧
    (state wu' = Hashed ∨ state wu' = Invalid) ∧
    receivedMsgBytes wu' = receivedMsgBytes wu ∧
    (state wu' = Hashed → is_Some (msg wu')) ∧
    ∀ k, parses k (log w') =
         parses k (log w) + Nat.b2n (bool_decide (receivedMsgBytes wu = k)).
Proof.
  intros Hst. unfold processWorkUnit. rewrite (lockedSection_Unhashed _ Hst).
  unfold bind at 1. unfold hash, bind, emit, ret. simpl.
  set (parsed := MessageFromBytes _ _). set (w1 := logged w _).
  destruct (afterHash_total parsed (UpdateState Hashing wu) p w1) as [[wu' w'] Hrun].
  destruct (ensures_afterHash _ _ _ _ _ _ Hrun) as [(Hterm & Hbytes & Hmsg) Hq].
  exists wu', w'. split; [exact Hrun|]. split; [done|]. split; [done|].
  split; [done|]. intros k. rewrite Hq. unfold w1, parses. simpl.
  rewrite count_app. simpl. destruct (bool_decide _); simpl; lia.
Qed.

(** The worker function takes the processor from rest to rest, whatever
    the task; a transaction payload gets its cache entry. *)
Lemma worker_settled p (msgType : MessageType) (data : bytes) (s : ProcState) :
  settled s →
  ∃ s', worker handlers p msgType data s = Some s' ∧ settled s' ∧
        dom (workUnits s') =
        (if decide (msgType = MessageTypeTransaction) then {[data]} else ∅)
        ∪ dom (workUnits s).
Proof.
  intros Hs. destruct (decide (msgType = MessageTypeTransaction)) as [Hty|Hty].
  - unfold worker. rewrite decide_True by done.
    unfold processTransaction, workUnitFor.
    pose proof (Hs data) as Hd.
    destruct (workUnits s !! data) as [wu0|] eqn:Hlook.
    + destruct Hd as (Hbytes & Hterm & Hmsg & Hpar).
      set (wu1 := addReceivedFrom p None wu0).
      destruct (processWorkUnit_terminal wu1 p (world s) Hterm Hmsg)
        as [w' Hrun].
      assert (Hne : state wu1 ≠ Unhashed) by (destruct Hterm; simpl; congruence).
      destruct (ensures_processWorkUnit_seen wu1 p Hne _ _ _ Hrun) as [_ Hq].
      rewrite Hrun. eexists. split; [reflexivity|]. split.
      * intros k. simpl. rewrite lookup_insert. case_decide as Hk.
        -- subst k. rewrite Hq. done.
        -- specialize (Hs k). rewrite Hq. exact Hs.
      * simpl. rewrite dom_insert_L. done.
    + set (wu1 := addReceivedFrom p None (newWorkUnit data)).
      destruct (processWorkUnit_first_call wu1 p (world s) eq_refl)
        as (wu' & w' & Hrun & Hterm & Hbytes & Hmsg & Hq).
      rewrite Hrun. eexists. split; [reflexivity|]. split.
      * intros k. simpl. rewrite lookup_insert. case_decide as Hk.
        -- subst k. rewrite Hq, Hd. simpl.
           by rewrite bool_decide_eq_true_2.
        -- rewrite lookup_insert_ne by done. specialize (Hs k). rewrite Hq. simpl.
           rewrite bool_decide_eq_false_2 by done.
           destruct (workUnits s !! k) as [wu|].
           ++ destruct Hs as (? & ? & ? & ->). repeat split; try done.
           ++ rewrite Hs. done.
      * simpl. rewrite !dom_insert_L. set_solver.
  - destruct (worker_request_frame p msgType data s Hty) as (l & -> & Hl).
    eexists. split; [reflexivity|]. split; [|simpl; set_solver].
    intros k. simpl. specialize (Hs k). unfold parses in *.
    rewrite count_app, (answers_no_parse p l k Hl), Nat.add_0_r. exact Hs.
Qed.

Lemma payloadsOf_cons (t : Task) (tasks : list Task) :
  payloadsOf (t :: tasks) =
  (if decide (taskType t = MessageTypeTransaction) then [taskData t] else [])
  ++ payloadsOf tasks.
Proof.
  unfold payloadsOf. rewrite filter_cons. by case_decide.
Qed.

Lemma runTasks_settled (tasks : list Task) (s : ProcState) :
  settled s →
  ∃ s', runTasks handlers tasks s = Some s' ∧ settled s' ∧
        dom (workUnits s') = list_to_set (payloadsOf tasks) ∪ dom (workUnits s).
Proof.
  revert s. induction tasks as [|t tasks IH]; intros s Hs; simpl.
  - exists s. split; [done|]. split; [done|]. set_solver.
  - destruct (worker_settled (taskPeer t) (taskType t) (taskData t) s Hs)
      as (s1 & -> & Hs1 & Hdom1).
    destruct (IH s1 Hs1) as (s' & Hrun & Hs' & Hdom).
    exists s'. split; [done|]. split; [done|].
    rewrite Hdom, Hdom1, payloadsOf_cons. case_decide; set_solver.
Qed.


(** After any tasks taken one after the other from the start,
    WorkUnitsSize is the number of distinct transaction payloads among
    them: requests add no entry, a repeated payload adds none. *)
Theorem WorkUnitsSize_runTasks (tasks : list Task) (e : Env) :
  ∃ s', runTasks handlers tasks (started e) = Some s' ∧
        WorkUnitsSize s' = size (list_to_set (payloadsOf tasks) : gset bytes).
Proof.
  destruct (runTasks_settled tasks (started e) (started_settled e))
    as (s' & Hrun & _ & Hdom).
  exists s'. split; [done|]. unfold WorkUnitsSize.
  rewrite <- size_dom, Hdom. unfold started. simpl.
  by rewrite dom_empty_L, (right_id_L ∅ (∪)).
Qed.

(** ** BroadcastMessage while workers run side by side *)



















(** ** Punishment while workers run side by side *)





























(** ** The Callers *)

(** Whatever event the processor triggers, the Caller of its kind gets
    every parameter through its type assertions and calls a handler of
    the right signature with the fields of the event; a handler of
    another signature makes it panic.  The nil request and nil peer of
    SerializeAndEmit pass because they are nil pointers of their types:
    the nil interface in their place makes MessageProcessedCaller
    panic. *)
Theorem Callers_take_trigger_params (ev : Event) (handler : GoFunc) :
  callerOf ev handler (triggerParams ev) =
    (if fits ev handler then
       match ev, handler with
       | MessageProcessed m request p, FuncMessageProcessed f =>
           Some (f (Some m) request p)
       | BroadcastMessage b, FuncBroadcast f => Some (f (Some b))
       | _, _ => None
       end
     else None) ∧
  (∀ f m, MessageProcessedCaller (FuncMessageProcessed f)
            [VMessage (Some m); VNil; VNil] = None).
Proof. split; [by destruct ev, handler|done]. Qed.

End Properties.

(** * Properties of FindAllTails *)

Section DagProperties.
Context `{T : DagTangle}.

Implicit Types (st : Traversal) (h x txHash : string) (A B V : gset string).

(** What one pass does to the keys of the two maps. *)
Lemma seen_checked A B h x : h ∈ B → x ∈ A ∪ B → x ∈ A ∖ {[h]} ∪ B.
Proof. destruct (decide (x = h)); set_solver. Qed.

Lemma seen_marked A B h x : x ∈ A ∪ B → x ∈ A ∖ {[h]} ∪ ({[h]} ∪ B).
Proof. destruct (decide (x = h)); set_solver. Qed.

Lemma seen_added A B h x t b :
  x ∈ A ∪ B → x ∈ {[b]} ∪ ({[t]} ∪ A ∖ {[h]}) ∪ ({[h]} ∪ B).
Proof. destruct (decide (x = h)); set_solver. Qed.

Lemma seen_before A B h x : x ∈ A ∖ {[h]} ∪ B → x ∈ A ∪ B.
Proof. set_solver. Qed.

Lemma marked_before A B h x : h ∈ A → x ∈ A ∖ {[h]} ∪ ({[h]} ∪ B) → x ∈ A ∪ B.
Proof. set_solver. Qed.

Lemma added_before A B h x t b :
  h ∈ A → x ∈ {[b]} ∪ ({[t]} ∪ A ∖ {[h]}) ∪ ({[h]} ∪ B) →
  x = b ∨ x = t ∨ x ∈ A ∪ B.
Proof. set_solver. Qed.

Lemma traversing_start txHash :
  traversing txHash {| txsToTraverse := {[txHash]}; txsChecked := ∅; tails := ∅ |}.
Proof.
  constructor; simpl.
  - intros h Hh. assert (h = txHash) as -> by set_solver. constructor.
  - set_solver.
  - intros h Hh. set_solver.
  - intros h Hh. set_solver.
Qed.

(** The body of the inner loop keeps what the loops keep. *)
Lemma visit_traversing txHash h st st' :
  traversing txHash st → h ∈ txsToTraverse st → visit h st = Next st' →
  traversing txHash st'.
Proof.
  intros [Hreach Hstart Hchecked Htails] Hh Hvisit. unfold visit in Hvisit.
  destruct (decide (h ∈ txsChecked st)) as [Hc|Hc].
  { injection Hvisit as <-. constructor; simpl.
    - intros x Hx. by eapply Hreach, seen_before.
    - by apply seen_checked.
    - intros x Hx Hsep. destruct (Hchecked x Hx Hsep) as (tx & Htx & Hrest).
      exists tx. split; [done|]. destruct (IsTail tx); [done|].
      destruct Hrest as [H1 H2]. split; by apply seen_checked.
    - done. }
  destruct (SolidEntryPointsContain h) eqn:Hsep.
  { injection Hvisit as <-. constructor; simpl.
    - intros x Hx. by eapply Hreach, marked_before.
    - by apply seen_marked.
    - intros x Hx Hsepx.
      apply elem_of_union in Hx as [Hx|Hx];
        [apply elem_of_singleton in Hx as ->; congruence|].
      destruct (Hchecked x Hx Hsepx) as (tx & Htx & Hrest).
      exists tx. split; [done|]. destruct (IsTail tx); [done|].
      destruct Hrest as [H1 H2]. split; by apply seen_marked.
    - intros x Hx. destruct (Htails x Hx) as (? & ? & ?).
      split; [|done]. apply elem_of_union; by right. }
  destruct (GetCachedTransaction h) as [tx|] eqn:Htx; [|done].
  assert (Hrh : reaches txHash h) by (apply Hreach, elem_of_union; by left).
  destruct (IsTail tx) eqn:Htail; injection Hvisit as <-; constructor; simpl.
  - intros x Hx. by eapply Hreach, marked_before.
  - by apply seen_marked.
  - intros x Hx Hsepx. apply elem_of_union in Hx as [Hx|Hx].
    + apply elem_of_singleton in Hx as ->.
      exists tx. split; [done|]. rewrite Htail.
      apply elem_of_union; left; by apply elem_of_singleton.
    + destruct (Hchecked x Hx Hsepx) as (tx' & Htx' & Hrest).
      exists tx'. split; [done|].
      destruct (IsTail tx'); [apply elem_of_union; by right|].
      destruct Hrest as [H1 H2]. split; by apply seen_marked.
  - intros x Hx. apply elem_of_union in Hx as [Hx|Hx].
    + apply elem_of_singleton in Hx as ->.
      split; [apply elem_of_union; left; by apply elem_of_singleton|].
      split; [done|]. eauto.
    + destruct (Htails x Hx) as (? & ? & ?).
      split; [|done]. apply elem_of_union; by right.
  - intros x Hx.
    apply added_before in Hx as [->|[->|Hx]]; [| | |done].
    + by eapply reaches_branch.
    + by eapply reaches_trunk.
    + by apply Hreach.
  - by apply seen_added.
  - intros x Hx Hsepx. apply elem_of_union in Hx as [Hx|Hx].
    + apply elem_of_singleton in Hx as ->.
      exists tx. split; [done|]. rewrite Htail.
      split; apply elem_of_union; left; apply elem_of_union.
      * right. apply elem_of_union. left. by apply elem_of_singleton.
      * left. by apply elem_of_singleton.
    + destruct (Hchecked x Hx Hsepx) as (tx' & Htx' & Hrest).
      exists tx'. split; [done|]. destruct (IsTail tx'); [done|].
      destruct Hrest as [H1 H2]. split; by apply seen_added.
  - intros x Hx. destruct (Htails x Hx) as (? & ? & ?).
    split; [|done]. apply elem_of_union; by right.
Qed.

(** When nothing is left to traverse, every transaction the traversal
    can come to has been checked. *)
Lemma traversing_done txHash st h :
  traversing txHash st → txsToTraverse st = ∅ → reaches txHash h →
  h ∈ txsChecked st.
Proof.
  intros [Hreach Hstart Hchecked Htails] Hempty Hr.
  assert (Hin : ∀ x, x ∈ txsToTraverse st ∪ txsChecked st → x ∈ txsChecked st).
  { intros x Hx. rewrite Hempty in Hx.
    apply elem_of_union in Hx as [Hx|Hx]; [by apply elem_of_empty in Hx|done]. }
  induction Hr as [|h tx Hr IH Hsep Htx Htail|h tx Hr IH Hsep Htx Htail].
  - by apply Hin.
  - destruct (Hchecked h IH Hsep) as (tx' & Htx' & Hrest).
    assert (tx' = tx) as -> by congruence. rewrite Htail in Hrest.
    apply Hin, Hrest.
  - destruct (Hchecked h IH Hsep) as (tx' & Htx' & Hrest).
    assert (tx' = tx) as -> by congruence. rewrite Htail in Hrest.
    apply Hin, Hrest.
Qed.

Lemma traverse_returned txHash (order : list string) st (ts : gset string) :
  traversing txHash st → traverse order st = Returned ts →
  ∃ st', traversing txHash st' ∧ txsToTraverse st' = ∅ ∧ tails st' = ts.
Proof.
  revert st. induction order as [|h order IH]; intros st Hinv Hrun; simpl in Hrun.
  - destruct (decide (txsToTraverse st = ∅)); [|done].
    injection Hrun as <-. eauto.
  - destruct (decide (txsToTraverse st = ∅)); [injection Hrun as <-; eauto|].
    destruct (decide (h ∈ txsToTraverse st)) as [Hh|]; [|done].
    destruct (visit h st) as [st1|h1] eqn:Hvisit; [|done].
    apply (IH st1); [|done]. by eapply visit_traversing.
Qed.

Lemma traverse_failed txHash (order : list string) st h :
  traversing txHash st → traverse order st = Failed h →
  reaches txHash h ∧ SolidEntryPointsContain h = false ∧
  GetCachedTransaction h = None.
Proof.
  revert st. induction order as [|x order IH]; intros st Hinv Hrun; simpl in Hrun.
  - by destruct (decide (txsToTraverse st = ∅)).
  - destruct (decide (txsToTraverse st = ∅)); [done|].
    destruct (decide (x ∈ txsToTraverse st)) as [Hx|]; [|done].
    destruct (visit x st) as [st1|h1] eqn:Hvisit.
    + apply (IH st1); [|done]. by eapply visit_traversing.
    + injection Hrun as ->. unfold visit in Hvisit.
      destruct (decide (x ∈ txsChecked st)); [done|].
      destruct (SolidEntryPointsContain x) eqn:Hsep; [done|].
      destruct (GetCachedTransaction x) as [tx|] eqn:Htx.
      { by destruct (IsTail tx). }
      injection Hvisit as <-. split; [|done].
      apply (tr_reaches _ _ Hinv), elem_of_union. by left.
Qed.

(** ** The loops end *)

Lemma size_remove A h : h ∈ A → size A = S (size (A ∖ {[h]})).
Proof.
  intros Hh. rewrite size_difference by (by apply singleton_subseteq_l).
  rewrite size_singleton. assert (size A ≠ 0); [|lia].
  intros H0. apply size_empty_inv in H0. apply (not_elem_of_empty (C:=gset string) h).
  by rewrite <- (H0 h).
Qed.

Lemma size_add A x : size ({[x]} ∪ A) ≤ S (size A).
Proof.
  rewrite size_union_alt, size_singleton.
  assert (size (A ∖ {[x]}) ≤ size A); [|lia].
  apply subseteq_size, subseteq_difference_l. done.
Qed.

Lemma unchecked_marked V B h :
  h ∈ V → h ∉ B → size (V ∖ B) = S (size (V ∖ ({[h]} ∪ B))).
Proof.
  intros HV HB. rewrite (size_remove (V ∖ B) h) by (by apply elem_of_difference).
  f_equal. apply set_size_proper. intros x.
  rewrite !elem_of_difference, elem_of_union, elem_of_singleton. tauto.
Qed.

(** Every pass through the body takes from what is left to do. *)
Lemma visit_potential V txHash h st st' :
  closedUnder V txHash → txsToTraverse st ⊆ V →
  h ∈ txsToTraverse st → visit h st = Next st' →
  txsToTraverse st' ⊆ V ∧ potential V st' < potential V st.
Proof.
  intros [_ Hclosed] Hsub Hh Hvisit. unfold visit in Hvisit.
  assert (HV : h ∈ V) by (by apply Hsub).
  assert (Hless : txsToTraverse st ∖ {[h]} ⊆ V).
  { intros x Hx. apply Hsub. by apply elem_of_difference in Hx as [? _]. }
  pose proof (size_remove _ _ Hh) as Hsize. unfold potential.
  destruct (decide (h ∈ txsChecked st)) as [Hc|Hc].
  { injection Hvisit as <-. simpl. split; [done|lia]. }
  pose proof (unchecked_marked V _ h HV Hc) as Hmark.
  destruct (SolidEntryPointsContain h) eqn:Hsep.
  { injection Hvisit as <-. simpl. split; [done|lia]. }
  destruct (GetCachedTransaction h) as [tx|] eqn:Htx; [|done].
  destruct (IsTail tx) eqn:Htail; injection Hvisit as <-; simpl.
  { split; [done|lia]. }
  destruct (Hclosed h tx HV Hsep Htx Htail) as [Ht Hb].
  split.
  - intros x Hx. apply elem_of_union in Hx as [Hx|Hx];
      [by apply elem_of_singleton in Hx as ->|].
    apply elem_of_union in Hx as [Hx|Hx];
      [by apply elem_of_singleton in Hx as ->|by apply Hless].
  - pose proof (size_add ({[GetTrunk tx]} ∪ txsToTraverse st ∖ {[h]}) (GetBranch tx)).
    pose proof (size_add (txsToTraverse st ∖ {[h]}) (GetTrunk tx)).
    lia.
Qed.

Lemma traverse_looping V txHash (order : list string) st st' :
  closedUnder V txHash → txsToTraverse st ⊆ V →
  traverse order st = Looping st' →
  txsToTraverse st' ≠ ∅ ∧ length order + potential V st' ≤ potential V st.
Proof.
  intros Hclosed. revert st.
  induction order as [|h order IH]; intros st Hsub Hrun; simpl in Hrun.
  - destruct (decide (txsToTraverse st = ∅)); [done|].
    injection Hrun as <-. split; [done|simpl; lia].
  - destruct (decide (txsToTraverse st = ∅)); [done|].
    destruct (decide (h ∈ txsToTraverse st)) as [Hh|]; [|done].
    destruct (visit h st) as [st1|h1] eqn:Hvisit; [|done].
    destruct (visit_potential V txHash h st st1) as [Hsub1 Hlt]; [done..|].
    destruct (IH st1 Hsub1 Hrun) as [Hne Hle]. split; [done|simpl; lia].
Qed.

Lemma traverse_ends V txHash (n : nat) st :
  closedUnder V txHash → txsToTraverse st ⊆ V → potential V st ≤ n →
  ∃ order, length order ≤ n ∧
    ((∃ ts, traverse order st = Returned ts) ∨ (∃ h, traverse order st = Failed h)).
Proof.
  intros Hclosed. revert st.
  induction n as [|n IH]; intros st Hsub Hpot.
  - exists []. split; [done|]. left. exists (tails st). simpl.
    destruct (decide (txsToTraverse st = ∅)) as [|Hne]; [done|].
    apply set_choose_L in Hne as [h Hh]. apply size_remove in Hh.
    unfold potential in Hpot. lia.
  - destruct (decide (txsToTraverse st = ∅)) as [Hempty|Hne].
    { exists []. split; [simpl; lia|]. left. exists (tails st). simpl.
      by destruct (decide (txsToTraverse st = ∅)). }
    pose proof Hne as Hne'. apply set_choose_L in Hne' as [h Hh].
    destruct (visit h st) as [st1|h1] eqn:Hvisit.
    + destruct (visit_potential V txHash h st st1) as [Hsub1 Hlt]; [done..|].
      destruct (IH st1 Hsub1) as (order & Hlen & Hend); [lia|].
      exists (h :: order). split; [simpl; lia|]. simpl.
      destruct (decide (txsToTraverse st = ∅)); [done|].
      destruct (decide (h ∈ txsToTraverse st)); [|done].
      by rewrite Hvisit.
    + exists [h]. split; [simpl; lia|]. right. exists h1. simpl.
      destruct (decide (txsToTraverse st = ∅)); [done|].
      destruct (decide (h ∈ txsToTraverse st)); [|done].
      by rewrite Hvisit.
Qed.

Lemma potential_start V txHash :
  txHash ∈ V →
  txsToTraverse {| txsToTraverse := {[txHash]}; txsChecked := ∅; tails := ∅ |} ⊆ V ∧
  potential V {| txsToTraverse := {[txHash]}; txsChecked := ∅; tails := ∅ |}
  = 3 * size V + 1.
Proof.
  intros HV. unfold potential. cbn [txsToTraverse txsChecked].
  split; [by apply singleton_subseteq_l|]. rewrite size_singleton.
  rewrite (set_size_proper (V ∖ ∅) V); [lia|].
  intros x. rewrite elem_of_difference. pose proof (not_elem_of_empty (C:=gset string) x).
  tauto.
Qed.

(** When the transactions the traversal can come to lie in a finite set
    of [n] transactions, the loops are left after at most [3 * n + 1]
    passes through the body, whatever keys the range statements
    produce. *)
Theorem FindAllTails_bounded V (order : list string) txHash :
  closedUnder V txHash → 3 * size V + 1 ≤ length order →
  ∀ st, FindAllTails order txHash ≠ Looping st.
Proof.
  intros Hclosed Hlen st Hrun.
  destruct (potential_start V txHash (proj1 Hclosed)) as [Hsub Hpot].
  destruct (traverse_looping V txHash order _ st Hclosed Hsub Hrun) as [Hne Hle].
  apply set_choose_L in Hne as [h Hh]. apply size_remove in Hh.
  unfold potential in Hle at 1. lia.
Qed.

(** Under the same condition the range statements can produce keys for
    which the call returns, with the tails or with the error. *)
Theorem FindAllTails_ends V txHash :
  closedUnder V txHash →
  ∃ order, length order ≤ 3 * size V + 1 ∧
    ((∃ ts, FindAllTails order txHash = Returned ts) ∨
     (∃ h, FindAllTails order txHash = Failed h)).
Proof.
  intros Hclosed.
  destruct (potential_start V txHash (proj1 Hclosed)) as [Hsub Hpot].
  apply (traverse_ends V txHash); [done..|lia].
Qed.

(** What a call returns does not depend on the order in which the range
    statements produce the keys: when it returns the tails for one order,
    it returns the same tails, and never the error, for every other. *)
Theorem FindAllTails_order_independent (order1 order2 : list string) txHash
    (ts : gset string) :
  FindAllTails order1 txHash = Returned ts →
  (∀ ts', FindAllTails order2 txHash = Returned ts' → ts' = ts) ∧
  (∀ h, FindAllTails order2 txHash ≠ Failed h).
Proof.
  intros Hrun.
  destruct (traverse_returned txHash order1 _ ts (traversing_start txHash) Hrun)
    as (st & Hinv & Hempty & <-).
  split.
  - intros ts' Hrun'.
    destruct (traverse_returned txHash order2 _ ts' (traversing_start txHash) Hrun')
      as (st' & Hinv' & Hempty' & <-).
    apply set_eq. intros h. split; intros Hh.
    + destruct (tr_tails _ _ Hinv' h Hh) as (Hc & Hsep & tx & Htx & Htail).
      assert (Hr : reaches txHash h)
        by (apply (tr_reaches _ _ Hinv'), elem_of_union; by right).
      pose proof (traversing_done _ _ _ Hinv Hempty Hr) as Hc1.
      destruct (tr_checked _ _ Hinv h Hc1 Hsep) as (tx' & Htx' & Hrest).
      assert (tx' = tx) as -> by congruence. by rewrite Htail in Hrest.
    + destruct (tr_tails _ _ Hinv h Hh) as (Hc & Hsep & tx & Htx & Htail).
      assert (Hr : reaches txHash h)
        by (apply (tr_reaches _ _ Hinv), elem_of_union; by right).
      pose proof (traversing_done _ _ _ Hinv' Hempty' Hr) as Hc1.
      destruct (tr_checked _ _ Hinv' h Hc1 Hsep) as (tx' & Htx' & Hrest).
      assert (tx' = tx) as -> by congruence. by rewrite Htail in Hrest.
  - intros h Hrun'.
    destruct (traverse_failed txHash order2 _ h (traversing_start txHash) Hrun')
      as (Hr & Hsep & Hnone).
    pose proof (traversing_done _ _ _ Hinv Hempty Hr) as Hc.
    destruct (tr_checked _ _ Hinv h Hc Hsep) as (tx & Htx & _). congruence.
Qed.

(** Whatever the order in which the range statements produce the keys:
    when FindAllTails returns a map, its keys are exactly the tails the
    traversal can come to from the given transaction that are stored and
    are no solid entry points; and every transaction it can come to is a
    solid entry point or is stored. *)
Theorem FindAllTails_returned (order : list string) txHash (ts : gset string) :
  FindAllTails order txHash = Returned ts →
  (∀ h, h ∈ ts ↔
        reaches txHash h ∧ SolidEntryPointsContain h = false ∧
        ∃ tx, GetCachedTransaction h = Some tx ∧ IsTail tx = true) ∧
  (∀ h, reaches txHash h → SolidEntryPointsContain h = false →
        is_Some (GetCachedTransaction h)).
Proof.
  intros Hrun.
  destruct (traverse_returned txHash order _ ts (traversing_start txHash) Hrun)
    as (st & Hinv & Hempty & <-).
  split.
  - intros h. split.
    + intros Hh. destruct (tr_tails _ _ Hinv h Hh) as (Hc & Hsep & Htx).
      split; [|done]. apply (tr_reaches _ _ Hinv), elem_of_union. by right.
    + intros (Hr & Hsep & tx & Htx & Htail).
      pose proof (traversing_done _ _ _ Hinv Hempty Hr) as Hc.
      destruct (tr_checked _ _ Hinv h Hc Hsep) as (tx' & Htx' & Hrest).
      assert (tx' = tx) as -> by congruence. by rewrite Htail in Hrest.
  - intros h Hr Hsep.
    pose proof (traversing_done _ _ _ Hinv Hempty Hr) as Hc.
    destruct (tr_checked _ _ Hinv h Hc Hsep) as (tx & -> & _). by eexists.
Qed.

(** Whatever the order: when FindAllTails returns ErrFindAllTailsFailed,
    the transaction it names is one the traversal can come to from the
    given one, is no solid entry point and is not stored. *)
Theorem FindAllTails_failed (order : list string) txHash h :
  FindAllTails order txHash = Failed h →
  reaches txHash h ∧ SolidEntryPointsContain h = false ∧
  GetCachedTransaction h = None.
Proof. apply traverse_failed, traversing_start. Qed.

End DagProperties.

(** * Properties of the pruning functions *)

Section PruningProperties.
Import snapshot.
Context `{D : Database}.

Implicit Types (w : World) (l : list Call) (h txHash : string)
  (txHashes order : list string).

Lemma after_nil w : after w [] (store w) = w.
Proof. destruct w. unfold after. simpl. by rewrite app_nil_r. Qed.

Lemma after_after w l1 s1 l2 s2 :
  after (after w l1 s1) l2 s2 = after w (l1 ++ l2) s2.
Proof. unfold after. simpl. by rewrite app_assoc. Qed.

Lemma last_snoc2 {A} (l : list A) (a b : A) : list.last (l ++ [a; b]) = Some b.
Proof. change [a; b] with ([a] ++ [b]). by rewrite app_assoc, last_snoc. Qed.

Lemma peeked w h :
  {| calls := (calls w ++ [Acquire h]) ++ [Release h]; store := store w;
     ranges := ranges w |} = after w (peek h) (store w).
Proof. unfold after, peek. by rewrite <- app_assoc. Qed.

(** One pass through the loop of pruneUnconfirmedTransactions. *)
Lemma stillUnconfirmed_cons h txHashes (seen : gset string) (slice : list string) w :
  stillUnconfirmed (h :: txHashes) seen slice w =
  let keep :=
    match GetCachedTransaction h (store w) with
    | Some tx => negb (GetConfirmed tx) && bool_decide (h ∉ seen)
    | None => false
    end in
  stillUnconfirmed txHashes (if keep then {[h]} ∪ seen else seen)
    (if keep then slice ++ [h] else slice) (after w (peek h) (store w)).
Proof.
  simpl. unfold bind at 1. unfold getCachedTransaction, bind, call, read. simpl.
  destruct (GetCachedTransaction h (store w)) as [tx|]; simpl.
  - destruct (GetConfirmed tx); simpl.
    + unfold bind, release, call. simpl. by rewrite peeked.
    + destruct (decide (h ∈ seen)) as [Hin|Hin].
      * rewrite bool_decide_eq_false_2 by (by intros ?).
        unfold bind, release, call. simpl. by rewrite peeked.
      * rewrite bool_decide_eq_true_2 by done.
        unfold bind, release, call. simpl. by rewrite peeked.
  - unfold bind, release, call. simpl. by rewrite peeked.
Qed.

Lemma stillUnconfirmed_run txHashes (seen : gset string) (slice : list string) w :
  ∃ added,
    stillUnconfirmed txHashes seen slice w
    = (Returns (slice ++ added), after w (flat_map peek txHashes) (store w)) ∧
    sublist added txHashes ∧ NoDup added ∧
    ∀ h, h ∈ added ↔
         ((h ∉ seen) ∧ h ∈ txHashes ∧
          ∃ tx, GetCachedTransaction h (store w) = Some tx ∧ GetConfirmed tx = false).
Proof.
  revert seen slice w.
  induction txHashes as [|txHash txHashes IH]; intros seen slice w.
  { exists []. simpl. rewrite app_nil_r, after_nil. split; [done|].
    split; [done|]. split; [constructor|]. intros h. split.
    - by intros ?%elem_of_nil.
    - by intros (_ & ?%elem_of_nil & _). }
  rewrite stillUnconfirmed_cons. cbv zeta.
  set (keep := match GetCachedTransaction txHash (store w) with
               | Some tx => negb (GetConfirmed tx) && bool_decide (txHash ∉ seen)
               | None => false
               end).
  assert (Hkeep : keep = true ↔
            ((txHash ∉ seen) ∧ ∃ tx, GetCachedTransaction txHash (store w) = Some tx ∧
                                   GetConfirmed tx = false)).
  { unfold keep. destruct (GetCachedTransaction txHash (store w)) as [tx|].
    - rewrite andb_true_iff, negb_true_iff, bool_decide_eq_true. split.
      + intros [? ?]. eauto.
      + intros (? & tx' & [= <-] & ?). done.
    - split; [done|]. by intros (_ & ? & ? & _). }
  destruct (IH (if keep then {[txHash]} ∪ seen else seen)
               (if keep then slice ++ [txHash] else slice)
               (after w (peek txHash) (store w)))
    as (added & Hrun & Hsub & Hnodup & Hmem).
  rewrite Hrun, after_after. simpl store in *.
  destruct keep eqn:Hk.
  - exists (txHash :: added). rewrite <- app_assoc. split; [done|].
    split; [by constructor|].
    assert (Hnot : txHash ∉ added).
    { intros Hin. apply Hmem in Hin as (Hin & _). apply Hin. set_solver. }
    split; [by constructor|]. intros h.
    rewrite elem_of_cons, Hmem, elem_of_cons, not_elem_of_union, not_elem_of_singleton.
    destruct (proj1 Hkeep eq_refl) as (Hseen & Htx). split.
    + intros [->|((Hne & ?) & ? & ?)]; [by auto|]. by auto.
    + intros (? & Hin & ?).
      destruct (decide (h = txHash)) as [->|?]; [by left|]. right.
      destruct Hin as [->|?]; done.
  - exists added. split; [done|]. split; [by constructor|]. split; [done|].
    intros h. rewrite Hmem, elem_of_cons. split.
    + intros (? & ? & ?). auto.
    + intros (? & [->|?] & ?); [|done].
      assert (false = true); [|done]. apply Hkeep. done.
Qed.


(** ** pruneTransactions *)

Lemma bundleTxsToRemove_cons h txHashes (acc : gset string) w :
  bundleTxsToRemove (h :: txHashes) acc w =
  match GetCachedTransaction h (store w) with
  | None => (Panics, after w (peek h) (store w))
  | Some tx =>
      let r := RemoveTransactionFromBundle tx (store w) in
      bundleTxsToRemove txHashes (r.1 ∪ acc) (after w (bundleCalls [(h, r.1)]) r.2)
  end.
Proof.
  simpl. unfold bind at 1. unfold getCachedTransaction, bind, call, read. simpl.
  destruct (GetCachedTransaction h (store w)) as [tx|]; simpl.
  - unfold removeTransactionFromBundle. simpl.
    destruct (RemoveTransactionFromBundle tx (store w)) as [r s] eqn:Hr. simpl.
    unfold after. simpl. by rewrite <- !app_assoc.
  - unfold panic. by rewrite peeked.
Qed.

Lemma bundleTxsToRemove_run txHashes (acc : gset string) w :
  ∃ removed s,
    (bundleTxsToRemove txHashes acc w
     = (Returns (⋃ removed.*2 ∪ acc), after w (bundleCalls removed) s) ∧
     removed.*1 = txHashes) ∨
    (∃ h, bundleTxsToRemove txHashes acc w
          = (Panics, after w (bundleCalls removed ++ peek h) s) ∧
          (removed.*1 ++ [h]) `prefix_of` txHashes ∧
          GetCachedTransaction h s = None).
Proof.
  revert acc w. induction txHashes as [|txHash txHashes IH]; intros acc w.
  { exists [], (store w). left. simpl. rewrite after_nil. split; [|done].
    unfold ret. do 2 f_equal. set_solver. }
  rewrite bundleTxsToRemove_cons.
  destruct (GetCachedTransaction txHash (store w)) as [tx|] eqn:Htx.
  - cbv zeta. set (r := RemoveTransactionFromBundle tx (store w)).
    destruct (IH (r.1 ∪ acc) (after w (bundleCalls [(txHash, r.1)]) r.2))
      as (removed & s & [[Hrun Hfst]|(h & Hrun & Hpre & Hnone)]).
    + exists ((txHash, r.1) :: removed), s. left. rewrite Hrun, after_after.
      split; [|by rewrite fmap_cons, Hfst].
      do 2 f_equal. rewrite fmap_cons. simpl. clear. set_solver.
    + exists ((txHash, r.1) :: removed), s. right. exists h.
      rewrite Hrun, after_after. split; [by rewrite app_assoc|].
      split; [|done]. rewrite fmap_cons. simpl. by apply prefix_cons.
  - exists [], (store w). right. exists txHash. simpl. split; [done|].
    split; [|done]. by apply prefix_cons, prefix_nil.
Qed.

Lemma deleteTransactions_cons h order (addresses : list TxHashForAddress) w :
  deleteTransactions (h :: order) addresses w =
  match GetCachedTransaction h (store w) with
  | None => (Panics, after w (peek h) (store w))
  | Some tx =>
      deleteTransactions order
        (addresses ++ [{| TxHash := h; Address := TxAddress tx |}])
        (after w (deleteCalls [h]) (DeleteTransaction h (DeleteApprovers h (store w))))
  end.
Proof.
  simpl. unfold bind at 1. unfold getCachedTransaction, bind, call, read. simpl.
  destruct (GetCachedTransaction h (store w)) as [tx|]; simpl.
  - unfold after. simpl. by rewrite <- !app_assoc.
  - unfold panic. by rewrite peeked.
Qed.

Lemma deleteTransactions_run order (addresses : list TxHashForAddress) w :
  (∃ added s,
     deleteTransactions order addresses w
     = (Returns (addresses ++ added), after w (deleteCalls order) s) ∧
     TxHash <$> added = order) ∨
  (∃ deleted h s,
     deleteTransactions order addresses w
     = (Panics, after w (deleteCalls deleted ++ peek h) s) ∧
     (deleted ++ [h]) `prefix_of` order ∧
     GetCachedTransaction h s = None).
Proof.
  revert addresses w. induction order as [|txHash order IH]; intros addresses w.
  { left. exists [], (store w). simpl. by rewrite app_nil_r, after_nil. }
  rewrite deleteTransactions_cons.
  destruct (GetCachedTransaction txHash (store w)) as [tx|] eqn:Htx.
  - set (w1 := after w _ _). set (a := {| TxHash := txHash; Address := TxAddress tx |}).
    destruct (IH (addresses ++ [a]) w1)
      as [(added & s & Hrun & Hadded)|(deleted & h & s & Hrun & Hpre & Hnone)].
    + left. exists (a :: added), s. rewrite Hrun. unfold w1. rewrite after_after.
      rewrite <- app_assoc. split; [done|]. by rewrite fmap_cons, Hadded.
    + right. exists (txHash :: deleted), h, s. rewrite Hrun. unfold w1.
      rewrite after_after. split; [by rewrite app_assoc|].
      split; [|done]. by apply prefix_cons.
  - right. exists [], txHash, (store w). simpl. split; [done|].
    split; [|done]. by apply prefix_cons, prefix_nil.
Qed.


(** What a call of pruneTransactions does once its first loop is
    through. *)
Lemma pruneTransactions_second txHashes w (removed : list (string * gset string))
    (s : Store) :
  bundleTxsToRemove txHashes ∅ w
  = (Returns (⋃ removed.*2 ∪ ∅), after w (bundleCalls removed) s) →
  match pruneTransactions txHashes w with
  | (Returns n, w') =>
      ∃ order addresses,
        calls w' = calls w ++ bundleCalls removed ++ deleteCalls order ++
                   [CallDeleteTransactionHashesForAddressesInDatabase addresses] ∧
        ranges w = order :: ranges w' ∧
        NoDup order ∧ list_to_set order = ⋃ removed.*2 ∧
        n = length order ∧ TxHash <$> addresses = order
  | (Panics, w') =>
      ∃ order deleted h,
        calls w' = calls w ++ bundleCalls removed ++ deleteCalls deleted ++ peek h ∧
        ranges w = order :: ranges w' ∧
        NoDup order ∧ list_to_set order = ⋃ removed.*2 ∧
        (deleted ++ [h]) `prefix_of` order ∧
        GetCachedTransaction h (store w') = None
  | (NotARange, w') =>
      calls w' = calls w ++ bundleCalls removed ∧ ranges w' = ranges w
  | (OutOfFuel, _) => False
  end.
Proof.
  intros Hrun. unfold pruneTransactions. unfold bind at 1. rewrite Hrun.
  replace (⋃ removed.*2 ∪ ∅) with (⋃ removed.*2 : gset string) by (clear; set_solver).
  unfold bind at 1. unfold range at 1. simpl ranges.
  destruct (ranges w) as [|order rest] eqn:Hranges; [done|].
  destruct (decide (NoDup order ∧ list_to_set order = ⋃ removed.*2))
    as [[Hnodup Hkeys]|_]; [|done].
  unfold bind at 1.
  set (w1 := {| calls := _; store := _; ranges := rest |}).
  destruct (deleteTransactions_run order [] w1)
    as [(added & s1 & Hdel & Hadded)|(deleted & h & s1 & Hdel & Hpre & Hnone)];
    rewrite Hdel.
  - unfold bind, call, ret. simpl. exists order, added.
    rewrite <- !app_assoc. repeat split; try done.
    rewrite <- Hkeys. by rewrite size_list_to_set.
  - exists order, deleted, h. simpl. rewrite <- !app_assoc. done.
Qed.

(** What a call of pruneTransactions does, for each way it can end. *)
Lemma pruneTransactions_run txHashes w :
  ∃ removed,
    match pruneTransactions txHashes w with
    | (Returns n, w') =>
        ∃ order addresses,
          calls w' = calls w ++ bundleCalls removed ++ deleteCalls order ++
                     [CallDeleteTransactionHashesForAddressesInDatabase addresses] ∧
          ranges w = order :: ranges w' ∧ removed.*1 = txHashes ∧
          NoDup order ∧ list_to_set order = ⋃ removed.*2 ∧
          n = length order ∧ TxHash <$> addresses = order
    | (Panics, w') =>
        (∃ h, calls w' = calls w ++ bundleCalls removed ++ peek h ∧
              ranges w' = ranges w ∧
              (removed.*1 ++ [h]) `prefix_of` txHashes ∧
              GetCachedTransaction h (store w') = None) ∨
        (∃ order deleted h,
              calls w' = calls w ++ bundleCalls removed ++ deleteCalls deleted ++ peek h ∧
              ranges w = order :: ranges w' ∧ removed.*1 = txHashes ∧
              NoDup order ∧ list_to_set order = ⋃ removed.*2 ∧
              (deleted ++ [h]) `prefix_of` order ∧
              GetCachedTransaction h (store w') = None)
    | (NotARange, w') =>
        calls w' = calls w ++ bundleCalls removed ∧ ranges w' = ranges w ∧
        removed.*1 = txHashes
    | (OutOfFuel, _) => False
    end.
Proof.
  destruct (bundleTxsToRemove_run txHashes ∅ w)
    as (removed & s & [[Hrun Hfst]|(h & Hrun & Hpre & Hnone)]); exists removed.
  - pose proof (pruneTransactions_second _ _ _ _ Hrun) as Hspec.
    destruct (pruneTransactions txHashes w) as [[n| | |] w']; [| | |done].
    + destruct Hspec as (order & addresses & ? & ? & ? & ? & ? & ?).
      by exists order, addresses.
    + right. destruct Hspec as (order & deleted & x & ? & ? & ? & ? & ? & ?).
      by exists order, deleted, x.
    + by destruct Hspec.
  - unfold pruneTransactions. unfold bind at 1. rewrite Hrun.
    left. exists h. simpl. done.
Qed.

(** ** What the calls of the loops show *)

Lemma held_app h l1 l2 : held h (l1 ++ l2) = (held h l1 + held h l2)%Z.
Proof. unfold held. rewrite !count_app. lia. Qed.

Lemma held_peeks h txHashes : held h (flat_map peek txHashes) = 0%Z.
Proof.
  unfold held. induction txHashes as [|x txHashes IH]; simpl; [done|].
  destruct (bool_decide (x = h)); lia.
Qed.

Lemma held_bundleCalls h (removed : list (string * gset string)) :
  held h (bundleCalls removed) = 0%Z.
Proof.
  unfold held. induction removed as [|x removed IH]; simpl; [done|].
  destruct (bool_decide (x.1 = h)); lia.
Qed.

Lemma held_deleteCalls h order : held h (deleteCalls order) = 0%Z.
Proof.
  unfold held. induction order as [|x order IH]; simpl; [done|].
  destruct (bool_decide (x = h)); lia.
Qed.

Lemma held_peek h x : held h (peek x) = 0%Z.
Proof. unfold held. simpl. destruct (bool_decide (x = h)); lia. Qed.

Ltac by_shape xs :=
  induction xs as [|? ? IH]; simpl; [done|]; try rewrite IH; done.

Lemma deletedTransactions_app l1 l2 :
  deletedTransactions (l1 ++ l2) = deletedTransactions l1 ++ deletedTransactions l2.
Proof. apply flat_map_app. Qed.
Lemma deletedApprovers_app l1 l2 :
  deletedApprovers (l1 ++ l2) = deletedApprovers l1 ++ deletedApprovers l2.
Proof. apply flat_map_app. Qed.
Lemma deletedAddresses_app l1 l2 :
  deletedAddresses (l1 ++ l2) = deletedAddresses l1 ++ deletedAddresses l2.
Proof. apply flat_map_app. Qed.
Lemma removedFromBundle_app l1 l2 :
  removedFromBundle (l1 ++ l2) = removedFromBundle l1 ++ removedFromBundle l2.
Proof. apply flat_map_app. Qed.
Lemma deletedFirstSeen_app l1 l2 :
  deletedFirstSeen (l1 ++ l2) = deletedFirstSeen l1 ++ deletedFirstSeen l2.
Proof. apply flat_map_app. Qed.
Lemma deletedMilestones_app l1 l2 :
  deletedMilestones (l1 ++ l2) = deletedMilestones l1 ++ deletedMilestones l2.
Proof. apply flat_map_app. Qed.
Lemma setPruningIndices_app l1 l2 :
  setPruningIndices (l1 ++ l2) = setPruningIndices l1 ++ setPruningIndices l2.
Proof. apply flat_map_app. Qed.

Lemma deletedTransactions_peeks txHashes :
  deletedTransactions (flat_map peek txHashes) = [].
Proof. by_shape txHashes. Qed.
Lemma deletedTransactions_bundleCalls (removed : list (string * gset string)) :
  deletedTransactions (bundleCalls removed) = [].
Proof. by_shape removed. Qed.
Lemma deletedTransactions_deleteCalls order :
  deletedTransactions (deleteCalls order) = order.
Proof. by_shape order. Qed.

Lemma deletedApprovers_peeks txHashes :
  deletedApprovers (flat_map peek txHashes) = [].
Proof. by_shape txHashes. Qed.
Lemma deletedApprovers_bundleCalls (removed : list (string * gset string)) :
  deletedApprovers (bundleCalls removed) = [].
Proof. by_shape removed. Qed.
Lemma deletedApprovers_deleteCalls order :
  deletedApprovers (deleteCalls order) = order.
Proof. by_shape order. Qed.

Lemma deletedAddresses_peeks txHashes :
  deletedAddresses (flat_map peek txHashes) = [].
Proof. by_shape txHashes. Qed.
Lemma deletedAddresses_bundleCalls (removed : list (string * gset string)) :
  deletedAddresses (bundleCalls removed) = [].
Proof. by_shape removed. Qed.
Lemma deletedAddresses_deleteCalls order :
  deletedAddresses (deleteCalls order) = [].
Proof. by_shape order. Qed.

Lemma removedFromBundle_peeks txHashes :
  removedFromBundle (flat_map peek txHashes) = [].
Proof. by_shape txHashes. Qed.
Lemma removedFromBundle_bundleCalls (removed : list (string * gset string)) :
  removedFromBundle (bundleCalls removed) = removed.
Proof.
  induction removed as [|[h r] removed IH]; simpl; [done|]. by rewrite IH.
Qed.
Lemma removedFromBundle_deleteCalls order :
  removedFromBundle (deleteCalls order) = [].
Proof. by_shape order. Qed.

Lemma deletedFirstSeen_peeks txHashes :
  deletedFirstSeen (flat_map peek txHashes) = [].
Proof. by_shape txHashes. Qed.
Lemma deletedFirstSeen_bundleCalls (removed : list (string * gset string)) :
  deletedFirstSeen (bundleCalls removed) = [].
Proof. by_shape removed. Qed.
Lemma deletedFirstSeen_deleteCalls order :
  deletedFirstSeen (deleteCalls order) = [].
Proof. by_shape order. Qed.

Lemma deletedMilestones_peeks txHashes :
  deletedMilestones (flat_map peek txHashes) = [].
Proof. by_shape txHashes. Qed.
Lemma deletedMilestones_bundleCalls (removed : list (string * gset string)) :
  deletedMilestones (bundleCalls removed) = [].
Proof. by_shape removed. Qed.
Lemma deletedMilestones_deleteCalls order :
  deletedMilestones (deleteCalls order) = [].
Proof. by_shape order. Qed.

Lemma setPruningIndices_peeks txHashes :
  setPruningIndices (flat_map peek txHashes) = [].
Proof. by_shape txHashes. Qed.
Lemma setPruningIndices_bundleCalls (removed : list (string * gset string)) :
  setPruningIndices (bundleCalls removed) = [].
Proof. by_shape removed. Qed.
Lemma setPruningIndices_deleteCalls order :
  setPruningIndices (deleteCalls order) = [].
Proof. by_shape order. Qed.

Create Rewrite HintDb shown.
Hint Rewrite deletedTransactions_app deletedApprovers_app deletedAddresses_app
  removedFromBundle_app deletedFirstSeen_app deletedMilestones_app
  setPruningIndices_app
  deletedTransactions_peeks deletedTransactions_bundleCalls
  deletedTransactions_deleteCalls
  deletedApprovers_peeks deletedApprovers_bundleCalls deletedApprovers_deleteCalls
  deletedAddresses_peeks deletedAddresses_bundleCalls deletedAddresses_deleteCalls
  removedFromBundle_peeks removedFromBundle_bundleCalls removedFromBundle_deleteCalls
  deletedFirstSeen_peeks deletedFirstSeen_bundleCalls deletedFirstSeen_deleteCalls
  deletedMilestones_peeks deletedMilestones_bundleCalls deletedMilestones_deleteCalls
  setPruningIndices_peeks setPruningIndices_bundleCalls setPruningIndices_deleteCalls
  held_app held_peeks held_bundleCalls held_deleteCalls held_peek
  app_nil_r : shown.

Ltac shown := autorewrite with shown; simpl.

(** ** The transactions handed to pruneTransactions *)

(** The loop of pruneUnconfirmedTransactions always comes to its end; it
    touches nothing in the database, taking and giving back the cached
    transaction of every first seen hash in turn.  The slice it hands to
    pruneTransactions holds no transaction twice, whatever the first seen
    list repeats; it keeps the order of that list; and it holds exactly
    the transactions of the list that are stored and not confirmed. *)
Theorem stillUnconfirmed_hands_over txHashes w :
  ∃ slice,
    stillUnconfirmed txHashes ∅ [] w
    = (Returns slice, after w (flat_map peek txHashes) (store w)) ∧
    NoDup slice ∧ sublist slice txHashes ∧
    ∀ h, h ∈ slice ↔
         (h ∈ txHashes ∧
          ∃ tx, GetCachedTransaction h (store w) = Some tx ∧ GetConfirmed tx = false).
Proof.
  destruct (stillUnconfirmed_run txHashes ∅ [] w) as (slice & Hrun & Hsub & Hnodup & Hmem).
  exists slice. split; [done|]. split; [done|]. split; [done|].
  intros h. rewrite Hmem. split.
  - by intros (_ & ? & ?).
  - intros [? ?]. split; [|done]. apply not_elem_of_empty.
Qed.

(** ** pruneTransactions deletes each transaction once *)

(** When pruneTransactions returns, it has called
    RemoveTransactionFromBundle for the given transactions in their
    order, and DeleteApprovers and DeleteTransaction once for each
    transaction in the maps those calls returned, and for no other; the
    number it returns is the number of transactions deleted; and its last
    call is the one of DeleteTransactionHashesForAddressesInDatabase, made
    once, with one entry for each transaction deleted, in the order of
    deletion. *)
Theorem pruneTransactions_deletes_each_once txHashes w (n : nat) w' :
  pruneTransactions txHashes w = (Returns n, w') →
  ∃ l addresses,
    calls w' = calls w ++ l ∧
    (removedFromBundle l).*1 = txHashes ∧
    NoDup (deletedTransactions l) ∧
    list_to_set (deletedTransactions l) = ⋃ (removedFromBundle l).*2 ∧
    deletedApprovers l = deletedTransactions l ∧
    length (deletedTransactions l) = n ∧
    deletedAddresses l = [addresses] ∧
    TxHash <$> addresses = deletedTransactions l ∧
    list.last l = Some (CallDeleteTransactionHashesForAddressesInDatabase addresses).
Proof.
  intros Hrun. destruct (pruneTransactions_run txHashes w) as (removed & Hspec).
  rewrite Hrun in Hspec.
  destruct Hspec as (order & addresses & Hcalls & _ & Hfst & Hnodup & Hkeys & -> & Haddr).
  eexists _, addresses. split; [exact Hcalls|]. shown.
  repeat split; try done. by rewrite !app_assoc, last_snoc.
Qed.

(** ** Cached transactions are given back *)

(** However a call of pruneTransactions or of
    pruneUnconfirmedTransactions ends, also when it panics, it has given
    back every cached transaction it took: for each transaction, Release
    was called as often as GetCachedTransaction. *)
Theorem pruning_releases_what_it_takes h w :
  (∀ txHashes,
     held h (calls (pruneTransactions txHashes w).2) = held h (calls w)) ∧
  (∀ targetIndex,
     held h (calls (pruneUnconfirmedTransactions targetIndex w).2) = held h (calls w)).
Proof.
  assert (Hprune : ∀ txHashes w,
            held h (calls (pruneTransactions txHashes w).2) = held h (calls w)).
  { intros txHashes w0. destruct (pruneTransactions_run txHashes w0) as (removed & Hspec).
    destruct (pruneTransactions txHashes w0) as [[n| | |] w'] eqn:Hrun; simpl.
    - destruct Hspec as (order & addresses & -> & _). shown. unfold held. simpl. lia.
    - destruct Hspec as [(x & -> & _)|(order & deleted & x & -> & _)]; shown; lia.
    - destruct Hspec as (-> & _). shown. lia.
    - done. }
  split; [intros txHashes; apply Hprune|]. intros targetIndex.
  unfold pruneUnconfirmedTransactions, bind at 1, read. simpl.
  destruct (ReadFirstSeenTxHashOperations targetIndex (store w)) as [err|txHashes];
    [done|].
  unfold bind at 1.
  destruct (stillUnconfirmed_run txHashes ∅ [] w) as (slice & -> & _).
  unfold bind at 1. set (w1 := after w _ _).
  pose proof (Hprune ([] ++ slice) w1) as Hheld.
  assert (Hw1 : held h (calls w1) = held h (calls w)).
  { unfold w1. simpl. shown. lia. }
  rewrite Hw1 in Hheld.
  destruct (pruneTransactions ([] ++ slice) w1) as [[n| | |] w'] eqn:Hrun;
    simpl in *; try done.
  rewrite held_app, Hheld. unfold held. simpl. lia.
Qed.


(** ** pruneUnconfirmedTransactions *)

Lemma pruneUnconfirmedTransactions_failed_read targetIndex w (err : GoError) :
  ReadFirstSeenTxHashOperations targetIndex (store w) = inl err →
  pruneUnconfirmedTransactions targetIndex w = (Panics, w).
Proof.
  intros Hread. unfold pruneUnconfirmedTransactions, bind at 1, read. simpl.
  by rewrite Hread.
Qed.

(** pruneUnconfirmedTransactions in terms of its call of
    pruneTransactions. *)
Lemma pruneUnconfirmedTransactions_unfold targetIndex w txHashes :
  ReadFirstSeenTxHashOperations targetIndex (store w) = inr txHashes →
  ∃ slice,
    (NoDup slice ∧ sublist slice txHashes ∧
     ∀ h, h ∈ slice ↔
          (h ∈ txHashes ∧
           ∃ tx, GetCachedTransaction h (store w) = Some tx ∧
                 GetConfirmed tx = false)) ∧
    pruneUnconfirmedTransactions targetIndex w =
    match pruneTransactions slice (after w (flat_map peek txHashes) (store w)) with
    | (Returns n, w') =>
        (Returns n,
         after w' [CallDeleteFirstSeenTxHashOperations targetIndex]
               (DeleteFirstSeenTxHashOperations targetIndex (store w')))
    | r => r
    end.
Proof.
  intros Hread. unfold pruneUnconfirmedTransactions, bind at 1, read. simpl.
  rewrite Hread. unfold bind at 1.
  destruct (stillUnconfirmed_run txHashes ∅ [] w) as (slice & -> & Hsub & Hnodup & Hmem).
  exists slice. split.
  { split; [done|]. split; [done|]. intros h. rewrite Hmem. split.
    - by intros (_ & ? & ?).
    - intros [? ?]. split; [|done]. apply not_elem_of_empty. }
  simpl app. unfold bind at 1.
  by destruct (pruneTransactions slice _) as [[n| | |] w'].
Qed.

(** When pruneUnconfirmedTransactions returns, it has called
    RemoveTransactionFromBundle once for each first seen transaction of
    the milestone that was stored and unconfirmed when the call began,
    and for no other; the number it returns is the number of
    transactions it deleted; and its last call, made once, is
    DeleteFirstSeenTxHashOperations for the milestone. *)
Theorem pruneUnconfirmedTransactions_returns targetIndex w (n : nat) w' :
  pruneUnconfirmedTransactions targetIndex w = (Returns n, w') →
  ∃ txHashes l,
    ReadFirstSeenTxHashOperations targetIndex (store w) = inr txHashes ∧
    calls w' = calls w ++ l ∧
    NoDup (removedFromBundle l).*1 ∧
    (∀ h, h ∈ (removedFromBundle l).*1 ↔
          (h ∈ txHashes ∧
           ∃ tx, GetCachedTransaction h (store w) = Some tx ∧
                 GetConfirmed tx = false)) ∧
    length (deletedTransactions l) = n ∧
    deletedFirstSeen l = [targetIndex] ∧
    list.last l = Some (CallDeleteFirstSeenTxHashOperations targetIndex).
Proof.
  intros Hrun.
  destruct (ReadFirstSeenTxHashOperations targetIndex (store w))
    as [err|txHashes] eqn:Hread.
  { by rewrite (pruneUnconfirmedTransactions_failed_read _ _ _ Hread) in Hrun. }
  destruct (pruneUnconfirmedTransactions_unfold _ _ _ Hread)
    as (slice & (Hnodup & _ & Hmem) & Heq).
  rewrite Heq in Hrun. set (w1 := after w _ _) in Hrun.
  destruct (pruneTransactions_run slice w1) as (removed & Hspec).
  destruct (pruneTransactions slice w1) as [[m| | |] w2]; try done.
  injection Hrun as -> <-.
  destruct Hspec as (order & addresses & Hcalls & _ & Hfst & _ & _ & -> & _).
  exists txHashes. eexists. split; [done|]. split.
  { simpl. rewrite Hcalls. unfold w1. simpl. rewrite <- !app_assoc. reflexivity. }
  shown. rewrite Hfst. split; [done|]. split; [exact Hmem|].
  split; [done|]. split; [done|]. by rewrite !app_assoc, last_snoc2.
Qed.


(** When pruneTransactions panics, it is for a transaction that is not
    stored, whose cached transaction it has just taken and given back;
    DeleteTransactionHashesForAddressesInDatabase has not been called, so
    the address entries of the transactions deleted before the panic are
    left in the database. *)
Theorem pruneTransactions_panics txHashes w w' :
  pruneTransactions txHashes w = (Panics, w') →
  ∃ l h,
    calls w' = calls w ++ l ++ peek h ∧
    GetCachedTransaction h (store w') = None ∧
    deletedAddresses l = [] ∧
    NoDup (deletedTransactions l) ∧ (h ∉ deletedTransactions l) ∧
    deletedApprovers l = deletedTransactions l.
Proof.
  intros Hrun. destruct (pruneTransactions_run txHashes w) as (removed & Hspec).
  rewrite Hrun in Hspec.
  destruct Hspec as [(h & Hcalls & _ & _ & Hnone)
                    |(order & deleted & h & Hcalls & _ & _ & Hnodup & _ & Hpre & Hnone)].
  - exists (bundleCalls removed), h. split; [done|]. shown.
    repeat split; try done; [constructor|apply not_elem_of_nil].
  - exists (bundleCalls removed ++ deleteCalls deleted), h.
    split; [by rewrite <- app_assoc|]. shown.
    destruct Hpre as [rest ->]. rewrite <- app_assoc in Hnodup.
    apply list.NoDup_app in Hnodup as (Hdel & Hnot & _).
    repeat split; try done. intros Hin. apply (Hnot h Hin). by left.
Qed.

(** ** The first loop of pruneTransactions under pruneUnconfirmedTransactions *)

Lemma bundleTxsToRemove_finds txHashes (acc : gset string) w :
  (∀ tx s h, GetCachedTransaction h (RemoveTransactionFromBundle tx s).2
             = GetCachedTransaction h s) →
  (∀ h, h ∈ txHashes → is_Some (GetCachedTransaction h (store w))) →
  ∃ removed s,
    bundleTxsToRemove txHashes acc w
    = (Returns (⋃ removed.*2 ∪ acc), after w (bundleCalls removed) s) ∧
    removed.*1 = txHashes.
Proof.
  intros Hkeeps. revert acc w.
  induction txHashes as [|txHash txHashes IH]; intros acc w Hstored.
  { exists [], (store w). simpl. rewrite after_nil. split; [|done].
    unfold ret. do 2 f_equal. set_solver. }
  rewrite bundleTxsToRemove_cons.
  destruct (Hstored txHash) as [tx Htx]; [by left|]. rewrite Htx. cbv zeta.
  set (r := RemoveTransactionFromBundle tx (store w)).
  destruct (IH (r.1 ∪ acc) (after w (bundleCalls [(txHash, r.1)]) r.2))
    as (removed & s & Hrun & Hfst).
  { intros h Hh. simpl. unfold r. rewrite Hkeeps. apply Hstored. by right. }
  exists ((txHash, r.1) :: removed), s. rewrite Hrun, after_after.
  split; [|by rewrite fmap_cons, Hfst].
  do 2 f_equal. rewrite fmap_cons. simpl. clear. set_solver.
Qed.

(** Provided RemoveTransactionFromBundle leaves alone which
    transactions are stored: however pruneUnconfirmedTransactions ends
    once the first seen list was read, it has called
    RemoveTransactionFromBundle for every transaction of the list that
    was stored and unconfirmed; and when it panics, it is for a
    transaction that one of these calls returned. *)
Theorem pruneUnconfirmedTransactions_finds_what_it_checked targetIndex w txHashes :
  (∀ tx s h, GetCachedTransaction h (RemoveTransactionFromBundle tx s).2
             = GetCachedTransaction h s) →
  ReadFirstSeenTxHashOperations targetIndex (store w) = inr txHashes →
  ∃ l,
    calls (pruneUnconfirmedTransactions targetIndex w).2 = calls w ++ l ∧
    (∀ h, h ∈ (removedFromBundle l).*1 ↔
          (h ∈ txHashes ∧
           ∃ tx, GetCachedTransaction h (store w) = Some tx ∧
                 GetConfirmed tx = false)) ∧
    ((pruneUnconfirmedTransactions targetIndex w).1 = Panics →
     ∃ h, h ∈ ⋃ (removedFromBundle l).*2 ∧
          GetCachedTransaction h (store (pruneUnconfirmedTransactions targetIndex w).2)
          = None).
Proof.
  intros Hkeeps Hread.
  destruct (pruneUnconfirmedTransactions_unfold _ _ _ Hread)
    as (slice & (_ & _ & Hmem) & ->).
  set (w1 := after w _ _).
  assert (Hstored : ∀ h, h ∈ slice → is_Some (GetCachedTransaction h (store w1))).
  { intros h Hh. apply Hmem in Hh as (_ & tx & Htx & _). by exists tx. }
  destruct (bundleTxsToRemove_finds slice ∅ w1 Hkeeps Hstored)
    as (removed & s & Hfound & Hrem).
  pose proof (pruneTransactions_second _ _ _ _ Hfound) as Hspec.
  destruct (pruneTransactions slice w1) as [[n| | |] w2] eqn:Hrun; simpl in *.
  - destruct Hspec as (order & addresses & Hcalls & _).
    eexists. split; [rewrite Hcalls; unfold w1; simpl; by rewrite <- !app_assoc|].
    shown. rewrite Hrem. split; [exact Hmem|done].
  - destruct Hspec as (order & deleted & h & Hcalls & _ & _ & Hkeys & Hpre & Hnone).
    eexists. split; [rewrite Hcalls; unfold w1; simpl; by rewrite <- !app_assoc|].
    shown. rewrite Hrem. split; [exact Hmem|]. intros _. exists h.
    split; [|done]. rewrite <- Hkeys. apply elem_of_list_to_set.
    destruct Hpre as [rest ->]. apply elem_of_app. left. apply elem_of_app.
    right. by left.
  - destruct Hspec as (Hcalls & _).
    eexists. split; [rewrite Hcalls; unfold w1; simpl; by rewrite <- !app_assoc|].
    shown. rewrite Hrem. split; [exact Hmem|done].
  - done.
Qed.


(** ** pruneDatabase *)

Lemma milestoneCalls_app l1 l2 (f1 d1 f2 d2 : list MilestoneIndex) :
  milestoneCalls l1 f1 d1 → milestoneCalls l2 f2 d2 →
  milestoneCalls (l1 ++ l2) (f1 ++ f2) (d1 ++ d2).
Proof.
  intros [H1 H2 H3] [H4 H5 H6].
  constructor; shown; rewrite ?H1, ?H2, ?H3, ?H4, ?H5, ?H6; done.
Qed.

Lemma pruneTransactions_quiet txHashes w :
  ∃ l, calls (pruneTransactions txHashes w).2 = calls w ++ l ∧
       milestoneCalls l [] [] ∧ (pruneTransactions txHashes w).1 ≠ OutOfFuel.
Proof.
  destruct (pruneTransactions_run txHashes w) as (removed & Hspec).
  destruct (pruneTransactions txHashes w) as [[n| | |] w']; simpl.
  - destruct Hspec as (order & addresses & -> & _). eexists. split; [done|].
    split; [|done]. constructor; by shown.
  - destruct Hspec as [(h & -> & _)|(order & deleted & h & -> & _)];
      (eexists; split; [done|]; split; [|done]; constructor; by shown).
  - destruct Hspec as (-> & _). eexists. split; [done|].
    split; [|done]. constructor; by shown.
  - done.
Qed.

Lemma pruneUnconfirmedTransactions_shows targetIndex w :
  ∃ l, calls (pruneUnconfirmedTransactions targetIndex w).2 = calls w ++ l ∧
       milestoneCalls l
         (match (pruneUnconfirmedTransactions targetIndex w).1 with
          | Returns _ => [targetIndex]
          | _ => []
          end) [] ∧
       (pruneUnconfirmedTransactions targetIndex w).1 ≠ OutOfFuel.
Proof.
  destruct (ReadFirstSeenTxHashOperations targetIndex (store w))
    as [err|txHashes] eqn:Hread.
  { rewrite (pruneUnconfirmedTransactions_failed_read _ _ _ Hread). simpl.
    exists []. by rewrite app_nil_r. }
  destruct (pruneUnconfirmedTransactions_unfold _ _ _ Hread) as (slice & _ & ->).
  set (w1 := after w _ _).
  destruct (pruneTransactions_quiet slice w1) as (l & Hcalls & Hquiet & Hfuel).
  assert (Hpeeks : milestoneCalls (flat_map peek txHashes) [] [])
    by (constructor; by shown).
  destruct (pruneTransactions slice w1) as [[n| | |] w2]; simpl in *;
    try done; rewrite Hcalls; unfold w1; simpl; rewrite <- !app_assoc.
  - eexists. split; [done|]. split; [|done].
    apply (milestoneCalls_app _ _ [] [] [targetIndex] []); [done|].
    apply (milestoneCalls_app _ _ [] [] [targetIndex] []); [done|].
    by constructor.
  - eexists. split; [done|]. split; [|done].
    by apply (milestoneCalls_app _ _ [] [] [] []).
  - eexists. split; [done|]. split; [|done].
    by apply (milestoneCalls_app _ _ [] [] [] []).
Qed.

(** One pass through the body of the loop of pruneDatabase. *)
Lemma pruneNext_unfold milestoneIndex w :
  pruneNext milestoneIndex w =
  match pruneUnconfirmedTransactions milestoneIndex w with
  | (Returns _, w1) =>
      match GetMilestoneOrNil milestoneIndex (store w1) with
      | None => (Panics, w1)
      | Some ms =>
          let r := getMilestoneApprovees milestoneIndex (GetTail ms) (store w1) in
          let w2 :=
            after w1 [AcquireMilestone milestoneIndex; AcquireTail milestoneIndex;
                      ReleaseMilestone milestoneIndex; RetainTail milestoneIndex;
                      CallGetMilestoneApprovees milestoneIndex;
                      ReleaseTail milestoneIndex] r.2 in
          match r.1 with
          | inl _ => (Returns tt, w2)
          | inr approvees =>
              match pruneTransactions approvees w2 with
              | (Returns _, w3) =>
                  (Returns tt,
                   after w3 [CallDeleteLedgerDiffForMilestone milestoneIndex;
                             CallDeleteMilestone milestoneIndex]
                     (DeleteMilestone milestoneIndex
                        (DeleteLedgerDiffForMilestone milestoneIndex (store w3))))
              | (Panics, w3) => (Panics, w3)
              | (NotARange, w3) => (NotARange, w3)
              | (OutOfFuel, w3) => (OutOfFuel, w3)
              end
          end
      end
  | (Panics, w1) => (Panics, w1)
  | (NotARange, w1) => (NotARange, w1)
  | (OutOfFuel, w1) => (OutOfFuel, w1)
  end.
Proof.
  unfold pruneNext. unfold bind at 1.
  destruct (pruneUnconfirmedTransactions milestoneIndex w) as [[n| | |] w1]; try done.
  unfold bind at 1, getMilestoneOrNil, bind at 1, read.
  destruct (GetMilestoneOrNil milestoneIndex (store w1)) as [ms|]; [|done].
  unfold bind at 1, call at 1, ret.
  unfold bind at 1, call at 1. unfold bind at 1, call at 1.
  unfold bind at 1, call at 1. unfold bind at 1, callGetMilestoneApprovees.
  cbn [calls store ranges id].
  destruct (getMilestoneApprovees milestoneIndex (GetTail ms) (store w1))
    as [[err|approvees] s]; cbn [fst snd].
  - unfold bind, call. cbn [calls store ranges id]. unfold after.
    by rewrite <- !app_assoc.
  - unfold bind at 1, call at 1. cbn [calls store ranges id].
    unfold bind at 1. unfold after. cbn [calls store ranges].
    rewrite <- !app_assoc. cbn [app].
    destruct (pruneTransactions approvees _) as [[m| | |] w3]; try done.
    unfold pruneMilestone, bind, call. cbn [calls store ranges].
    by rewrite <- !app_assoc.
Qed.

Lemma pruneNext_shows milestoneIndex w :
  ∃ l firstSeen deleted,
    calls (pruneNext milestoneIndex w).2 = calls w ++ l ∧
    milestoneCalls l firstSeen deleted ∧
    match (pruneNext milestoneIndex w).1 with
    | Returns _ =>
        firstSeen = [milestoneIndex] ∧ (deleted = [milestoneIndex] ∨ deleted = [])
    | OutOfFuel => False
    | _ => (firstSeen = [milestoneIndex] ∨ firstSeen = []) ∧ deleted = []
    end.
Proof.
  rewrite pruneNext_unfold.
  destruct (pruneUnconfirmedTransactions_shows milestoneIndex w)
    as (l1 & Hcalls1 & Hshows1 & Hfuel1).
  destruct (pruneUnconfirmedTransactions milestoneIndex w) as [[n| | |] w1];
    simpl in *; try done;
    [|exists l1, [], []; split; [done|]; split; [done|];
      split; [by right|done]..].
  destruct (GetMilestoneOrNil milestoneIndex (store w1)) as [ms|]; simpl.
  2:{ exists l1, [milestoneIndex], []. split; [done|].
      split; [done|]. split; [by left|done]. }
  destruct (getMilestoneApprovees milestoneIndex (GetTail ms) (store w1))
    as [[err|approvees] s] eqn:Happr; simpl.
  { eexists _, [milestoneIndex], [].
    split; [rewrite Hcalls1, <- !app_assoc; reflexivity|]. split; [|by auto].
    apply (milestoneCalls_app _ _ [milestoneIndex] [] [] []); [done|].
    by constructor. }
  set (w2 := after w1 _ s).
  destruct (pruneTransactions_quiet approvees w2) as (l2 & Hcalls2 & Hquiet2 & Hfuel2).
  destruct (pruneTransactions approvees w2) as [[m| | |] w3]; simpl in *;
    try done; rewrite Hcalls2; unfold w2; simpl; rewrite Hcalls1, <- !app_assoc.
  - eexists _, [milestoneIndex], [milestoneIndex]. split; [reflexivity|].
    split; [|by auto].
    apply (milestoneCalls_app _ _ [milestoneIndex] [] [] [milestoneIndex]); [done|].
    apply (milestoneCalls_app [_; _; _; _; _; _] _ [] [] [] [milestoneIndex]);
      [by constructor|].
    apply (milestoneCalls_app _ _ [] [] [] [milestoneIndex]); [done|].
    by constructor.
  - eexists _, [milestoneIndex], []. split; [reflexivity|]. split; [|by auto].
    apply (milestoneCalls_app _ _ [milestoneIndex] [] [] []); [done|].
    apply (milestoneCalls_app [_; _; _; _; _; _] _ [] [] [] []);
      [by constructor|done].
  - eexists _, [milestoneIndex], []. split; [reflexivity|]. split; [|by auto].
    apply (milestoneCalls_app _ _ [milestoneIndex] [] [] []); [done|].
    apply (milestoneCalls_app [_; _; _; _; _; _] _ [] [] [] []);
      [by constructor|done].
Qed.


Lemma pruneMilestones_unfold (fuel : nat) (abortSignal : nat → bool) (tried : nat)
    (milestoneIndex targetIndex : MilestoneIndex) w :
  pruneMilestones (S fuel) abortSignal tried milestoneIndex targetIndex w =
  if (milestoneIndex <=? targetIndex)%N then
    if abortSignal tried then (Returns true, w)
    else
      match pruneNext milestoneIndex w with
      | (Returns _, w1) =>
          pruneMilestones fuel abortSignal (S tried) (inc milestoneIndex)
            targetIndex w1
      | (Panics, w1) => (Panics, w1)
      | (NotARange, w1) => (NotARange, w1)
      | (OutOfFuel, w1) => (OutOfFuel, w1)
      end
  else (Returns false, w).
Proof.
  simpl. destruct (milestoneIndex <=? targetIndex)%N; [|done].
  destruct (abortSignal tried); [done|]. unfold bind.
  by destruct (pruneNext milestoneIndex w) as [[[]| | |] w1].
Qed.

(** The loop of pruneDatabase: [n] passes were begun, for the milestones
    [milestonesFrom milestoneIndex n]. *)
Lemma pruneMilestones_shows (fuel : nat) (abortSignal : nat → bool) (tried : nat)
    (milestoneIndex targetIndex : MilestoneIndex) w :
  ∃ l n deleted,
    calls (pruneMilestones fuel abortSignal tried milestoneIndex targetIndex w).2
    = calls w ++ l ∧
    n ≤ fuel ∧
    Forall (λ m, (m ≤ targetIndex)%N) (milestonesFrom milestoneIndex n) ∧
    (∀ k, k < n → abortSignal (tried + k) = false) ∧
    sublist deleted (milestonesFrom milestoneIndex n) ∧
    match (pruneMilestones fuel abortSignal tried milestoneIndex targetIndex w).1 with
    | Returns false =>
        milestoneCalls l (milestonesFrom milestoneIndex n) deleted ∧
        (targetIndex < indexAfter milestoneIndex n)%N
    | Returns true =>
        milestoneCalls l (milestonesFrom milestoneIndex n) deleted ∧
        abortSignal (tried + n) = true ∧
        (indexAfter milestoneIndex n ≤ targetIndex)%N
    | OutOfFuel =>
        milestoneCalls l (milestonesFrom milestoneIndex n) deleted ∧
        n = fuel ∧ (indexAfter milestoneIndex n ≤ targetIndex)%N
    | _ =>
        ∃ m, n = S m ∧
             (milestoneCalls l (milestonesFrom milestoneIndex n) deleted ∨
              milestoneCalls l (milestonesFrom milestoneIndex m) deleted)
    end.
Proof.
  revert tried milestoneIndex w.
  induction fuel as [|fuel IH]; intros tried milestoneIndex w;
    [simpl|rewrite pruneMilestones_unfold].
  { destruct (N.leb_spec milestoneIndex targetIndex) as [Hle|Hlt]; simpl.
    - exists [], 0, []. rewrite app_nil_r. simpl.
      repeat split; try done; try constructor; try (intros; lia).
    - exists [], 0, []. rewrite app_nil_r. simpl.
      repeat split; try done; try constructor; try (intros; lia). }
  destruct (N.leb_spec milestoneIndex targetIndex) as [Hle|Hlt]; simpl.
  2:{ exists [], 0, []. rewrite app_nil_r. simpl.
      repeat split; try done; try constructor; try (intros; lia). }
  destruct (abortSignal tried) eqn:Habort; simpl.
  { exists [], 0, []. rewrite app_nil_r, Nat.add_0_r. simpl.
    repeat split; try done; try constructor; try (intros; lia). }
  destruct (pruneNext_shows milestoneIndex w)
    as (l1 & firstSeen & deleted1 & Hcalls1 & Hshows1 & Hnext).
  destruct (pruneNext milestoneIndex w) as [[[]| | |] w1]; simpl in Hcalls1, Hnext.
  - destruct Hnext as [-> Hdel].
    destruct (IH (S tried) (inc milestoneIndex) w1)
      as (l2 & n & deleted2 & Hcalls2 & Hn & Hall & Hnot & Hsub & Hend).
    exists (l1 ++ l2), (S n), (deleted1 ++ deleted2).
    split; [by rewrite Hcalls2, Hcalls1, app_assoc|]. split; [lia|].
    split; [by constructor|].
    split.
    { intros [|k] Hk; [by rewrite Nat.add_0_r|].
      replace (tried + S k) with (S tried + k) by lia. apply Hnot. lia. }
    split.
    { simpl. destruct Hdel as [-> | ->]; simpl;
        [by apply sublist_skip|by apply sublist_cons]. }
    replace (tried + S n) with (S tried + n) by lia.
    assert (Happ : ∀ f, milestoneCalls l2 f deleted2 →
              milestoneCalls (l1 ++ l2) (milestoneIndex :: f) (deleted1 ++ deleted2))
      by (intros f Hf; by apply (milestoneCalls_app _ _ [milestoneIndex])).
    destruct (pruneMilestones fuel abortSignal (S tried) (inc milestoneIndex)
                targetIndex w1) as [[[]| | |] w2]; simpl in *.
    + destruct Hend as (? & ? & ?). auto.
    + destruct Hend as (? & ?). auto.
    + destruct Hend as (m & -> & [?|?]); exists (S m); (split; [done|]);
        [left|right]; by apply Happ.
    + destruct Hend as (m & -> & [?|?]); exists (S m); (split; [done|]);
        [left|right]; by apply Happ.
    + destruct Hend as (? & -> & ?). auto.
  - destruct Hnext as [Hfirst ->]. exists l1, 1, []. split; [done|].
    split; [lia|]. split; [by repeat constructor|].
    split; [intros [|k] Hk; [by rewrite Nat.add_0_r|lia]|].
    split; [apply sublist_nil_l|]. exists 0. split; [done|].
    destruct Hfirst as [-> | ->]; auto.
  - destruct Hnext as [Hfirst ->]. exists l1, 1, []. split; [done|].
    split; [lia|]. split; [by repeat constructor|].
    split; [intros [|k] Hk; [by rewrite Nat.add_0_r|lia]|].
    split; [apply sublist_nil_l|]. exists 0. split; [done|].
    destruct Hfirst as [-> | ->]; auto.
  - done.
Qed.


(** ** The arithmetic of milestone indices *)

Lemma wrap_lt (z : Z) : (wrap z < 2 ^ IndexBits)%N.
Proof.
  unfold wrap. apply N2Z.inj_lt. rewrite N2Z.inj_pow. simpl Z.of_N at 2.
  assert (0 < 2 ^ Z.of_N IndexBits)%Z by (apply Z.pow_pos_nonneg; lia).
  pose proof (Z.mod_pos_bound z (2 ^ Z.of_N IndexBits)%Z). rewrite Z2N.id; lia.
Qed.

Lemma inc_small (a : MilestoneIndex) :
  (a + 1 < 2 ^ IndexBits)%N → inc a = (a + 1)%N.
Proof.
  intros Hlt. unfold inc, wrap. apply N2Z.inj_lt in Hlt.
  rewrite N2Z.inj_pow in Hlt. simpl Z.of_N at 2 in Hlt.
  rewrite Z.mod_small by lia. lia.
Qed.

Lemma inc_lt (a : MilestoneIndex) : (inc a < 2 ^ IndexBits)%N.
Proof. apply wrap_lt. Qed.

Lemma sub_lt (a b : MilestoneIndex) : (sub a b < 2 ^ IndexBits)%N.
Proof. apply wrap_lt. Qed.

Lemma targetIndexOf_lt (solidMilestoneIndex : MilestoneIndex) (info : SnapshotInfo) :
  (targetIndexOf solidMilestoneIndex info < 2 ^ IndexBits)%N.
Proof. unfold targetIndexOf. destruct (_ <? _)%N; apply sub_lt. Qed.

Lemma sub_exact (a b : MilestoneIndex) :
  (a < 2 ^ IndexBits)%N → (b ≤ a)%N → sub a b = (a - b)%N.
Proof.
  intros Ha Hb. unfold sub, wrap. apply N2Z.inj_lt in Ha.
  rewrite N2Z.inj_pow in Ha. simpl Z.of_N at 2 in Ha.
  rewrite Z.mod_small by lia. lia.
Qed.

Lemma sub_wraps (a b : MilestoneIndex) :
  (b < 2 ^ IndexBits)%N → (a < b)%N → sub a b = (2 ^ IndexBits - (b - a))%N.
Proof.
  intros Hb Ha. unfold sub, wrap. pose proof Hb as Hb'. apply N2Z.inj_lt in Hb.
  rewrite N2Z.inj_pow in Hb. simpl Z.of_N at 2 in Hb.
  replace (Z.of_N a - Z.of_N b)%Z
    with (2 ^ Z.of_N IndexBits - Z.of_N (b - a) + -1 * 2 ^ Z.of_N IndexBits)%Z by lia.
  rewrite Z.mod_add by lia. rewrite Z.mod_small by lia.
  apply N2Z.inj. rewrite Z2N.id by lia.
  rewrite (N2Z.inj_sub (2 ^ IndexBits)) by lia.
  by rewrite N2Z.inj_pow.
Qed.

(** When neither subtraction wraps around, the target index is the
    smaller of the solid milestone index less the pruning delay and the
    snapshot index less SolidEntryPointCheckThresholdPast,
    AdditionalPruningThreshold and one. *)
Theorem targetIndexOf_in_order (solidMilestoneIndex : MilestoneIndex)
    (info : SnapshotInfo) :
  (solidMilestoneIndex < 2 ^ IndexBits)%N →
  (SnapshotIndex info < 2 ^ IndexBits)%N →
  (pruningDelay ≤ solidMilestoneIndex)%N →
  (SolidEntryPointCheckThresholdPast + AdditionalPruningThreshold + 1
   ≤ SnapshotIndex info)%N →
  targetIndexOf solidMilestoneIndex info
  = N.min (solidMilestoneIndex - pruningDelay)
          (SnapshotIndex info - SolidEntryPointCheckThresholdPast
           - AdditionalPruningThreshold - 1).
Proof.
  intros Hsolid Hsnap Hdelay Hpast. unfold targetIndexOf.
  rewrite (sub_exact solidMilestoneIndex) by done.
  rewrite (sub_exact (SnapshotIndex info)) by lia.
  unfold AdditionalPruningThreshold in *.
  rewrite (sub_exact (SnapshotIndex info - SolidEntryPointCheckThresholdPast)%N)
    by lia.
  rewrite (sub_exact (SnapshotIndex info - SolidEntryPointCheckThresholdPast
                      - 50)%N) by lia.
  destruct (N.ltb_spec
              (SnapshotIndex info - SolidEntryPointCheckThresholdPast - 50 - 1)
              (solidMilestoneIndex - pruningDelay)); lia.
Qed.

(** When both subtractions wrap around, the solid milestone index being
    smaller than the pruning delay and the snapshot index smaller than
    what is taken from it, the target index is no small number: it lies
    below the number of values of the type by the larger of the two
    shortfalls. *)
Theorem targetIndexOf_wraps (solidMilestoneIndex : MilestoneIndex)
    (info : SnapshotInfo) :
  (pruningDelay < 2 ^ IndexBits)%N →
  (SolidEntryPointCheckThresholdPast + AdditionalPruningThreshold + 1
   < 2 ^ IndexBits)%N →
  (solidMilestoneIndex < pruningDelay)%N →
  (SnapshotIndex info
   < SolidEntryPointCheckThresholdPast + AdditionalPruningThreshold + 1)%N →
  targetIndexOf solidMilestoneIndex info
  = (2 ^ IndexBits
     - N.max (pruningDelay - solidMilestoneIndex)
             (SolidEntryPointCheckThresholdPast + AdditionalPruningThreshold + 1
              - SnapshotIndex info))%N.
Proof.
  intros Hdelay Hpast Hsolid Hsnap. unfold targetIndexOf.
  rewrite (sub_wraps solidMilestoneIndex) by done.
  assert (Hmax :
    sub (sub (sub (SnapshotIndex info) SolidEntryPointCheckThresholdPast)
             AdditionalPruningThreshold) 1%N
    = (2 ^ IndexBits
       - (SolidEntryPointCheckThresholdPast + AdditionalPruningThreshold + 1
          - SnapshotIndex info))%N).
  { rewrite <- (sub_wraps (SnapshotIndex info)) by done.
    unfold sub, wrap.
    assert (0 < 2 ^ Z.of_N IndexBits)%Z by (apply Z.pow_pos_nonneg; lia).
    rewrite !Z2N.id by (apply Z.mod_pos_bound; lia).
    apply (f_equal Z.to_N).
    rewrite Zminus_mod_idemp_l, <- Z.sub_add_distr, Zminus_mod_idemp_l.
    apply (f_equal (λ z, z mod _)%Z). lia. }
  rewrite Hmax.
  destruct (N.ltb_spec
              (2 ^ IndexBits
               - (SolidEntryPointCheckThresholdPast + AdditionalPruningThreshold + 1
                  - SnapshotIndex info))
              (2 ^ IndexBits - (pruningDelay - solidMilestoneIndex))); lia.
Qed.

(** As long as the indices do not reach the largest value, they are
    consecutive. *)
Lemma milestonesFrom_consecutive (i : MilestoneIndex) (n : nat) :
  (i + N.of_nat n ≤ 2 ^ IndexBits)%N →
  milestonesFrom i n = (λ k, (i + N.of_nat k)%N) <$> seq 0 n.
Proof.
  revert i. induction n as [|n IH]; intros i Hle; [done|].
  simpl. rewrite N.add_0_r. f_equal.
  destruct n as [|n]; [done|].
  rewrite inc_small by lia. rewrite IH by lia.
  rewrite <- fmap_S_seq, <- list_fmap_compose. apply list_fmap_ext.
  intros _ k _. simpl. lia.
Qed.

Lemma indexAfter_below (i t : MilestoneIndex) (n : nat) :
  (t + 1 < 2 ^ IndexBits)%N →
  Forall (λ m, (m ≤ t)%N) (milestonesFrom i n) →
  indexAfter i n = (i + N.of_nat n)%N.
Proof.
  intros Ht. revert i. induction n as [|n IH]; intros i Hall; simpl; [lia|].
  simpl in Hall. apply Forall_cons_1 in Hall as [Hi Hall].
  assert (Hinc : inc i = (i + 1)%N) by (apply inc_small; lia).
  rewrite Hinc in *. rewrite IH by done. lia.
Qed.

(** The condition of the loop fails only after the target index itself,
    and only when that is not the largest value. *)
Lemma loop_left (i t : MilestoneIndex) (n : nat) :
  Forall (λ m, (m ≤ t)%N) (milestonesFrom i n) →
  (t < indexAfter i n)%N →
  (n = 0 ∧ (t < i)%N) ∨
  ((i + N.of_nat n = t + 1)%N ∧ (t + 1 < 2 ^ IndexBits)%N).
Proof.
  revert i. induction n as [|n IH]; intros i Hall Hlt; simpl in *; [by left|].
  apply Forall_cons_1 in Hall as [Hi Hall]. right.
  destruct (IH _ Hall Hlt) as [[-> Hinc]|[Hsum Hmax]].
  - pose proof (inc_lt i). assert (i + 1 < 2 ^ IndexBits)%N by lia.
    rewrite inc_small in Hinc by done. lia.
  - assert (i + 1 < 2 ^ IndexBits)%N by lia.
    rewrite inc_small in Hsum by done. lia.
Qed.

Lemma fromTo_consecutive (i t : MilestoneIndex) (n : nat) :
  (i + N.of_nat n = t + 1)%N →
  fromTo i t = (λ k, (i + N.of_nat k)%N) <$> seq 0 n.
Proof.
  intros Hsum. unfold fromTo. do 2 f_equal. lia.
Qed.

(** pruneDatabase in terms of its loop. *)
Lemma pruneDatabase_unfold (fuel : nat) (solidMilestoneIndex : MilestoneIndex)
    (abortSignal : nat → bool) w (info : SnapshotInfo) :
  GetSnapshotInfo (store w) = Some info →
  pruneDatabase fuel solidMilestoneIndex abortSignal w =
  let targetIndex := targetIndexOf solidMilestoneIndex info in
  if (targetIndex <=? PruningIndex info)%N then (Returns tt, w)
  else
    match pruneMilestones fuel abortSignal 0 (inc (PruningIndex info)) targetIndex w with
    | (Returns true, w1) => (Returns tt, w1)
    | (Returns false, w1) =>
        (Returns tt,
         after w1 [CallSetSnapshotInfo targetIndex]
               (SetSnapshotInfo targetIndex (store w1)))
    | (Panics, w1) => (Panics, w1)
    | (NotARange, w1) => (NotARange, w1)
    | (OutOfFuel, w1) => (OutOfFuel, w1)
    end.
Proof.
  intros Hinfo. unfold pruneDatabase, bind at 1, read. rewrite Hinfo. cbv zeta.
  destruct (_ <=? _)%N; [done|]. unfold bind.
  by destruct (pruneMilestones _ _ _ _ _ _) as [[[]| | |] w1].
Qed.


(** However pruneDatabase ends: it calls SetSnapshotInfo at most once.
    When it does, the call is its last one and sets the pruning index to
    the target index, the abort signal was not received, and before it
    DeleteFirstSeenTxHashOperations was called once for each milestone
    from the old pruning index (exclusive) to the target index
    (inclusive), in increasing order; DeleteMilestone was called for
    milestones among these only, in increasing order. *)
Theorem pruneDatabase_advances_once (fuel : nat) (solidMilestoneIndex : MilestoneIndex)
    (abortSignal : nat → bool) w (info : SnapshotInfo) :
  GetSnapshotInfo (store w) = Some info →
  ∃ l,
    calls (pruneDatabase fuel solidMilestoneIndex abortSignal w).2 = calls w ++ l ∧
    (setPruningIndices l = [] ∨
     let targetIndex := targetIndexOf solidMilestoneIndex info in
     (pruneDatabase fuel solidMilestoneIndex abortSignal w).1 = Returns tt ∧
     setPruningIndices l = [targetIndex] ∧
     list.last l = Some (CallSetSnapshotInfo targetIndex) ∧
     (PruningIndex info < targetIndex)%N ∧
     deletedFirstSeen l = fromTo (PruningIndex info + 1)%N targetIndex ∧
     sublist (deletedMilestones l) (fromTo (PruningIndex info + 1)%N targetIndex) ∧
     ∀ k, (N.of_nat k < targetIndex - PruningIndex info)%N → abortSignal k = false).
Proof.
  intros Hinfo. rewrite (pruneDatabase_unfold _ _ _ _ _ Hinfo). cbv zeta.
  set (t := targetIndexOf solidMilestoneIndex info).
  destruct (N.leb_spec t (PruningIndex info)) as [Hle|Hlt].
  { exists []. rewrite app_nil_r. by auto. }
  destruct (pruneMilestones_shows fuel abortSignal 0 (inc (PruningIndex info)) t w)
    as (l & n & deleted & Hcalls & _ & Hall & Hnot & Hsub & Hend).
  pose proof (targetIndexOf_lt solidMilestoneIndex info) as Hmax. fold t in Hmax.
  assert (Hinc : inc (PruningIndex info) = (PruningIndex info + 1)%N)
    by (apply inc_small; lia).
  rewrite Hinc in *.
  destruct (pruneMilestones fuel abortSignal 0 (PruningIndex info + 1)%N t w)
    as [[[]| | |] w1]; simpl in *.
  - exists l. split; [done|]. left. by destruct Hend as ([] & _).
  - destruct Hend as ([Hfirst Hdel Hset] & Hleft).
    destruct (loop_left _ _ _ Hall Hleft) as [[-> ?]|[Hsum Hsmall]]; [lia|].
    pose proof (fromTo_consecutive _ _ _ Hsum) as Hfrom.
    rewrite <- milestonesFrom_consecutive in Hfrom by lia.
    exists (l ++ [CallSetSnapshotInfo t]).
    split; [by rewrite Hcalls, app_assoc|]. right. shown.
    rewrite Hset, Hfirst, Hdel, Hfrom, last_snoc.
    repeat split; try done. intros k Hk. apply (Hnot k). lia.
  - exists l. split; [done|]. left. by destruct Hend as (m & _ & [[]|[]]).
  - exists l. split; [done|]. left. by destruct Hend as (m & _ & [[]|[]]).
  - exists l. split; [done|]. left. by destruct Hend as ([] & _).
Qed.

(** When the abort signal is received before the loop has come to the
    target index, pruneDatabase does not call SetSnapshotInfo; when it
    returns then, DeleteFirstSeenTxHashOperations has been called for
    each of the milestones of the passes made before the signal, for
    which the pruning index is left behind. *)
Theorem pruneDatabase_aborted (fuel : nat) (solidMilestoneIndex : MilestoneIndex)
    (abortSignal : nat → bool) w (info : SnapshotInfo) (k : nat) :
  GetSnapshotInfo (store w) = Some info →
  abortSignal k = true →
  (∀ j, j < k → abortSignal j = false) →
  (PruningIndex info + N.of_nat k
   < targetIndexOf solidMilestoneIndex info)%N →
  ∃ l,
    calls (pruneDatabase fuel solidMilestoneIndex abortSignal w).2 = calls w ++ l ∧
    setPruningIndices l = [] ∧
    ((pruneDatabase fuel solidMilestoneIndex abortSignal w).1 = Returns tt →
     deletedFirstSeen l
     = fromTo (PruningIndex info + 1)%N (PruningIndex info + N.of_nat k)%N).
Proof.
  intros Hinfo Habort Hbefore Hk. rewrite (pruneDatabase_unfold _ _ _ _ _ Hinfo).
  cbv zeta. set (t := targetIndexOf solidMilestoneIndex info) in *.
  destruct (N.leb_spec t (PruningIndex info)) as [Hle|Hlt]; [lia|].
  destruct (pruneMilestones_shows fuel abortSignal 0 (inc (PruningIndex info)) t w)
    as (l & n & deleted & Hcalls & _ & Hall & Hnot & Hsub & Hend).
  pose proof (targetIndexOf_lt solidMilestoneIndex info) as Hmax. fold t in Hmax.
  assert (Hinc : inc (PruningIndex info) = (PruningIndex info + 1)%N)
    by (apply inc_small; lia).
  rewrite Hinc in *.
  destruct (pruneMilestones fuel abortSignal 0 (PruningIndex info + 1)%N t w)
    as [[[]| | |] w1]; simpl in *.
  - destruct Hend as ([Hfirst Hdel Hset] & Hsignal & _).
    exists l. split; [done|]. split; [done|]. intros _.
    assert (n = k) as ->.
    { destruct (Nat.lt_trichotomy n k) as [Hlt'|[?|Hgt]]; [|done|].
      - rewrite (Hbefore n Hlt') in Hsignal. done.
      - rewrite (Hnot k Hgt) in Habort. done. }
    rewrite Hfirst, milestonesFrom_consecutive by lia.
    symmetry. apply fromTo_consecutive. lia.
  - exfalso. destruct Hend as (_ & Hleft).
    destruct (loop_left _ _ _ Hall Hleft) as [[-> ?]|[Hsum Hsmall]]; [lia|].
    assert (Hkn : k < n) by lia. rewrite (Hnot k Hkn) in Habort. done.
  - exists l. split; [done|]. by destruct Hend as (m & _ & [[]|[]]).
  - exists l. split; [done|]. by destruct Hend as (m & _ & [[]|[]]).
  - exists l. split; [done|]. by destruct Hend as ([] & _).
Qed.

(** The loop of pruneDatabase comes to its end: when the target index is
    not the largest value of the type, as many passes as there are
    milestones between the pruning index and the target index are
    enough. *)
Theorem pruneDatabase_enough_fuel (fuel : nat) (solidMilestoneIndex : MilestoneIndex)
    (abortSignal : nat → bool) w (info : SnapshotInfo) :
  GetSnapshotInfo (store w) = Some info →
  (targetIndexOf solidMilestoneIndex info + 1 < 2 ^ IndexBits)%N →
  (targetIndexOf solidMilestoneIndex info - PruningIndex info ≤ N.of_nat fuel)%N →
  (pruneDatabase fuel solidMilestoneIndex abortSignal w).1 ≠ OutOfFuel.
Proof.
  intros Hinfo Hsmall Hfuel. rewrite (pruneDatabase_unfold _ _ _ _ _ Hinfo).
  cbv zeta. set (t := targetIndexOf solidMilestoneIndex info) in *.
  destruct (N.leb_spec t (PruningIndex info)) as [Hle|Hlt]; [done|].
  destruct (pruneMilestones_shows fuel abortSignal 0 (inc (PruningIndex info)) t w)
    as (l & n & deleted & Hcalls & _ & Hall & Hnot & Hsub & Hend).
  assert (Hinc : inc (PruningIndex info) = (PruningIndex info + 1)%N)
    by (apply inc_small; lia).
  rewrite Hinc in *.
  destruct (pruneMilestones fuel abortSignal 0 (PruningIndex info + 1)%N t w)
    as [[[]| | |] w1]; simpl in *; try done.
  destruct Hend as (_ & -> & Hstill).
  rewrite (indexAfter_below _ t) in Hstill by done. lia.
Qed.

(** When the target index is the largest value of the type, the
    condition of the loop never fails, the increment of milestoneIndex
    wrapping around: pruneDatabase then returns only through the abort
    signal, and does not call SetSnapshotInfo. *)
Theorem pruneDatabase_largest_target (fuel : nat) (solidMilestoneIndex : MilestoneIndex)
    (abortSignal : nat → bool) w (info : SnapshotInfo) :
  GetSnapshotInfo (store w) = Some info →
  (targetIndexOf solidMilestoneIndex info + 1 = 2 ^ IndexBits)%N →
  (PruningIndex info < targetIndexOf solidMilestoneIndex info)%N →
  ∃ l,
    calls (pruneDatabase fuel solidMilestoneIndex abortSignal w).2 = calls w ++ l ∧
    setPruningIndices l = [] ∧
    ((pruneDatabase fuel solidMilestoneIndex abortSignal w).1 = Returns tt →
     ∃ k, abortSignal k = true).
Proof.
  intros Hinfo Hlargest Hlt. rewrite (pruneDatabase_unfold _ _ _ _ _ Hinfo).
  cbv zeta. set (t := targetIndexOf solidMilestoneIndex info) in *.
  destruct (N.leb_spec t (PruningIndex info)) as [Hle|_]; [lia|].
  destruct (pruneMilestones_shows fuel abortSignal 0 (inc (PruningIndex info)) t w)
    as (l & n & deleted & Hcalls & _ & Hall & Hnot & Hsub & Hend).
  assert (Hinc : inc (PruningIndex info) = (PruningIndex info + 1)%N)
    by (apply inc_small; lia).
  rewrite Hinc in *.
  destruct (pruneMilestones fuel abortSignal 0 (PruningIndex info + 1)%N t w)
    as [[[]| | |] w1]; simpl in *.
  - destruct Hend as ([_ _ Hset] & Hsignal & _).
    exists l. split; [done|]. split; [done|]. intros _. by exists n.
  - exfalso. destruct Hend as (_ & Hleft).
    destruct (loop_left _ _ _ Hall Hleft) as [[-> ?]|[Hsum Hsmall]]; lia.
  - exists l. split; [done|]. by destruct Hend as (m & _ & [[]|[]]).
  - exists l. split; [done|]. by destruct Hend as (m & _ & [[]|[]]).
  - exists l. split; [done|]. by destruct Hend as ([] & _).
Qed.

End PruningProperties.

(** * The properties on the concrete node *)

Section Witnesses.
Import Fixture.

Lemma SerializeAndEmit_broadcast_witness :
  Serialize good true = inr good ∧
  ∃ w',
    SerializeAndEmit storing good true (fresh emptyEnv) = Some (None, w') ∧
    ∀ b, BroadcastMessage b ∈ firedEvents (log w') ↔
         BroadcastMessage b ∈ firedEvents (log (fresh emptyEnv)) ∨
         (MsgData b = good ∧ ExcludePeers b = ∅).
Proof.
  split; [reflexivity|].
  apply (SerializeAndEmit_broadcast storing good true good (fresh emptyEnv)).
  reflexivity.
Defined.

Lemma processMessageRequest_spec_witness :
  processMessageRequest "A" [x01] (fresh busyEnv) = Some (tt, fresh busyEnv) ∧
  processMessageRequest "A" (replicate 49 x08) (fresh busyEnv) =
    Some (tt, fresh busyEnv) ∧
  processMessageRequest "A" id49 (fresh busyEnv) =
    Some (tt, logged (fresh busyEnv) [EnqueueForSending "A" good]).
Proof.
  split; [|split].
  - apply (proj1 (processMessageRequest_spec "A" [x01] (fresh busyEnv))).
    simpl. lia.
  - apply (proj1 (proj2 (processMessageRequest_spec "A" (replicate 49 x08)
                           (fresh busyEnv))));
      vm_compute; reflexivity.
  - apply (proj2 (proj2 (processMessageRequest_spec "A" id49 (fresh busyEnv))) good);
      vm_compute; reflexivity.
Defined.

Lemma processMilestoneRequest_spec_witness :
  processMilestoneRequest "A" [x01] (fresh busyEnv) =
    Some (tt, logged (fresh busyEnv) [IncInvalidRequests; PmRemove "A"]) ∧
  processMilestoneRequest "A" [x00; x00; x00; x00] (fresh busyEnv) =
    Some (tt, logged (fresh busyEnv)
                [EnqueueForSending "A" good; EnqueueForSending "A" [x09]]) ∧
  processMilestoneRequest "A" [x09; x00; x00; x00] (fresh busyEnv) =
    Some (tt, fresh busyEnv).
Proof.
  split; [|split].
  - apply (proj1 (processMilestoneRequest_spec "A" [x01] (fresh busyEnv))
             "invalid length"%string).
    reflexivity.
  - apply (proj2 (processMilestoneRequest_spec "A" [x00; x00; x00; x00]
                    (fresh busyEnv)) 0%N).
    reflexivity.
  - apply (proj2 (processMilestoneRequest_spec "A" [x09; x00; x00; x00]
                    (fresh busyEnv)) 9%N).
    reflexivity.
Defined.

Lemma worker_other_type_witness :
  (7 ≠ MessageTypeTransaction)%N ∧ (7 ≠ MessageTypeTransactionRequest)%N ∧
  (7 ≠ MessageTypeMilestoneRequest)%N ∧
  worker storing "A" 7%N good idle = Some idle.
Proof.
  assert (H1 : (7 ≠ MessageTypeTransaction)%N) by (intros H; vm_compute in H; discriminate H).
  assert (H2 : (7 ≠ MessageTypeTransactionRequest)%N) by (intros H; vm_compute in H; discriminate H).
  assert (H3 : (7 ≠ MessageTypeMilestoneRequest)%N) by (intros H; vm_compute in H; discriminate H).
  split; [exact H1|]. split; [exact H2|]. split; [exact H3|].
  exact (worker_other_type storing "A" 7%N good idle H1 H2 H3).
Defined.

Lemma processWorkUnit_parse_failure_witness :
  state wuBad = Unhashed ∧
  MessageFromBytes (receivedMsgBytes wuBad) DeSeriModePerformValidation =
    inl "invalid payload"%string ∧
  ∃ wu' w' l,
    processWorkUnit storing wuBad "A" (fresh emptyEnv) = Some (wu', w') ∧
    state wu' = Invalid ∧ receivedFrom wu' = receivedFrom wuBad ∧
    log w' = log (fresh emptyEnv) ++ l ∧
    (∀ q, q ∈ removedPeers l ↔ is_Some (receivedFrom wuBad !! q)) ∧
    InvalidTransactions l = size (receivedFrom wuBad) ∧
    (is_Some (receivedFrom wuBad !! "A"%string) → 0 < InvalidTransactions l) ∧
    firedEvents l = [].
Proof.
  split; [reflexivity|]. split; [reflexivity|].
  apply (processWorkUnit_parse_failure storing wuBad "A" (fresh emptyEnv)
           "invalid payload"%string); reflexivity.
Defined.

Lemma processWorkUnit_Hashed_witness :
  state wuHashed = Hashed ∧ msg wuHashed = Some good ∧
  Received (GetMessageID good) (env (fresh busyEnv)) =
    (Some 7, servedEnv) ∧
  ∃ w' l,
    processWorkUnit storing wuHashed "B" (fresh busyEnv) = Some (wuHashed, w') ∧
    log w' = log (fresh busyEnv) ++ l ∧
    firedEvents l = [MessageProcessed good (Some 7) (Some "B"%string)] ∧
    KnownTransactions l = 0 ∧
    ∀ q, PeerKnownTransactions q l = 0.
Proof.
  split; [reflexivity|]. split; [reflexivity|]. split; [reflexivity|].
  apply (processWorkUnit_Hashed storing wuHashed "B" (fresh busyEnv) good
           (Some 7) servedEnv); reflexivity.
Defined.

Lemma terminal_state_stable_witness :
  (state wuHashed = Hashed ∨ state wuHashed = Invalid) ∧
  (state wuHashed = Hashed → is_Some (msg wuHashed)) ∧
  ∃ w', processEach storing ["A"; "B"; "A"]%string wuHashed (fresh busyEnv) =
        Some (wuHashed, w').
Proof.
  assert (H1 : state wuHashed = Hashed ∨ state wuHashed = Invalid)
    by (left; reflexivity).
  assert (H2 : state wuHashed = Hashed → is_Some (msg wuHashed))
    by (intros _; exists good; reflexivity).
  split; [exact H1|]. split; [exact H2|].
  exact (terminal_state_stable storing ["A"; "B"; "A"]%string wuHashed
           (fresh busyEnv) H1 H2).
Defined.

Lemma processWorkUnit_first_hash_witness :
  state wuGood = Unhashed ∧
  MessageFromBytes (receivedMsgBytes wuGood) DeSeriModePerformValidation = inr good ∧
  invalidMilestoneHashes (receivedTxHash wuGood) = false ∧
  Received (GetMessageID good) (env (fresh emptyEnv)) = (None, emptyEnv) ∧
  ∃ wu' w' l,
    processWorkUnit storing wuGood "A" (fresh emptyEnv) = Some (wu', w') ∧
    state wu' = Hashed ∧
    log w' = log (fresh emptyEnv) ++ l ∧
    probesAndEvents l =
      [Probed (GetMessageID good);
       Fired (MessageProcessed good None (Some "A"%string))] ++
      (if bool_decide (@None nat = None) &&
          negb (ContainsMessage (GetMessageID good) emptyEnv)
       then [Fired (BroadcastMessage (broadcast wu'))] else []).
Proof.
  split; [reflexivity|]. split; [reflexivity|]. split; [reflexivity|].
  split; [reflexivity|].
  apply (processWorkUnit_first_hash storing wuGood "A" (fresh emptyEnv) good
           None emptyEnv); reflexivity.
Defined.

Lemma parse_exactly_once_witness :
  run storing alternate (initial twoPeers emptyEnv) = Some twoPeersEnd ∧
  parses good (log (world (shared twoPeersEnd))) = 1.
Proof.
  assert (Hrun : run storing alternate (initial twoPeers emptyEnv) = Some twoPeersEnd)
    by reflexivity.
  split; [exact Hrun|].
  apply (parse_exactly_once storing twoPeers emptyEnv alternate twoPeersEnd good Hrun).
  - apply (bool_decide_unpack _). reflexivity.
  - apply (proj1 (list.Forall_forall (λ t, isFinished t = true) _)).
    apply (bool_decide_unpack _). reflexivity.
Defined.

Lemma processWorkUnit_Invalid_witness :
  state wuInvalid = Invalid ∧
  processWorkUnit storing wuInvalid "B" (fresh emptyEnv) =
  Some (wuInvalid, logged (fresh emptyEnv) [IncInvalidTransactions; PmRemove "B"]).
Proof.
  split; [reflexivity|].
  apply (processWorkUnit_Invalid storing wuInvalid "B" (fresh emptyEnv)).
  reflexivity.
Defined.

Lemma processTransaction_while_hashing_witness :
  workUnits hashingNow !! good = Some wuHashing ∧
  state wuHashing = Hashing ∧
  processTransaction storing "B" good hashingNow =
  Some {| workUnits := <[good := addReceivedFrom "B" None wuHashing]>
                         (workUnits hashingNow);
          world := world hashingNow |}.
Proof.
  assert (H1 : workUnits hashingNow !! good = Some wuHashing) by reflexivity.
  split; [exact H1|]. split; [reflexivity|].
  exact (processTransaction_while_hashing storing "B" good hashingNow wuHashing
           H1 eq_refl).
Defined.

Lemma processWorkUnit_blocklisted_witness :
  state wuBlocked = Unhashed ∧
  MessageFromBytes (receivedMsgBytes wuBlocked) DeSeriModePerformValidation =
    inr good ∧
  invalidMilestoneHashes (receivedTxHash wuBlocked) = true ∧
  Received (GetMessageID good) (env (fresh busyEnv)) = (Some 7, servedEnv) ∧
  ∃ wu' w' l,
    processWorkUnit storing wuBlocked "A" (fresh busyEnv) = Some (wu', w') ∧
    state wu' = Invalid ∧ msg wu' = Some good ∧
    receivedMsgID wu' = Some (GetMessageID good) ∧
    env w' = servedEnv ∧ log w' = log (fresh busyEnv) ++ l ∧
    count (isCallReceived (GetMessageID good)) l = 1 ∧
    probesAndEvents l = [].
Proof.
  split; [reflexivity|]. split; [reflexivity|]. split; [reflexivity|].
  split; [reflexivity|].
  apply (processWorkUnit_blocklisted storing wuBlocked "A" (fresh busyEnv) good
           (Some 7) servedEnv); reflexivity.
Defined.

Lemma worker_request_frame_witness :
  MessageTypeTransactionRequest ≠ MessageTypeTransaction ∧
  ∃ l, worker storing "A" MessageTypeTransactionRequest id49
         {| workUnits := ∅; world := fresh busyEnv |} =
         Some {| workUnits := ∅; world := logged (fresh busyEnv) l |} ∧
       ∀ e, e ∈ l → answers "A" e.
Proof.
  assert (H : MessageTypeTransactionRequest ≠ MessageTypeTransaction)
    by (intros H; vm_compute in H; discriminate H).
  split; [exact H|].
  exact (worker_request_frame storing "A" MessageTypeTransactionRequest id49
           {| workUnits := ∅; world := fresh busyEnv |} H).
Defined.



(** ** Scenarios *)

(** Peer A submits a payload that does not parse: the WorkUnit ends
    Invalid, A is removed, the invalid-transactions counter is 1 and no
    event fires. *)
Example invalid_payload_scenario :
  (λ s, (stateOf bad s, removedPeers (log (world s)),
         InvalidTransactions (log (world s)), length (firedEvents (log (world s)))))
    <$> processTransaction storing "A" bad idle =
  Some (Some Invalid, ["A"%string], 1, 0).
Proof. reflexivity. Qed.

(** The probe precedes the handlers: the handler of MessageProcessed
    stores the message, so the tangle contains it once the call is over,
    and BroadcastMessage was fired all the same. *)
Example probe_before_handlers :
  (λ r, (ContainsMessage good (env r.2), length (firedEvents (log r.2))))
    <$> processWorkUnit storing wuGood "A" (fresh emptyEnv) =
  Some (true, 2).
Proof. reflexivity. Qed.

(** Peer A delivers a payload the node asked for: MessageProcessed
    carries the request, nothing is broadcast. *)
Example requested_payload_scenario :
  (λ r, firedEvents (log r.2))
    <$> processWorkUnit storing wuGood "A" (fresh busyEnv) =
  Some [MessageProcessed good (Some 7) (Some "A"%string)].
Proof. reflexivity. Qed.

(** B's worker meets the WorkUnit while A's is hashing it: one parse, B
    is counted as knowing the payload, A is not. *)
Example two_peers_scenario :
  (λ sys, (parses good (log (world (shared sys))),
           PeerKnownTransactions "A" (log (world (shared sys))),
           PeerKnownTransactions "B" (log (world (shared sys))),
           stateOf good (shared sys)))
    <$> run storing [0; 0; 0; 1; 1; 1; 1; 0; 0] (initial twoPeers emptyEnv) =
  Some (1, 0, 1, Some Hashed).
Proof. reflexivity. Qed.

End Witnesses.

(** * FindAllTails on the small tangle *)

Section DagWitnesses.
Import DagFixture.

Example cone_closed : closedUnder (T:=tangle) cone "a".
Proof.
  split; [by vm_compute|].
  intros h tx Hh Hsep Htx Htail.
  assert (h = "a" ∨ h = "b" ∨ h = "c" ∨ h = "s") as [-> | [-> | [-> | ->]]]
    by (unfold cone in Hh; set_solver);
    vm_compute in Htx; try discriminate Hsep;
    injection Htx as <-; try discriminate Htail; split; by vm_compute.
Qed.

Lemma FindAllTails_returned_witness :
  FindAllTails (T:=tangle) ["a"; "c"; "b"; "s"] "a" = Returned {["b"]} ∧
  (∀ h, h ∈ ({["b"]} : gset string) ↔
        reaches (T:=tangle) "a" h ∧ SolidEntryPointsContain (DagTangle:=tangle) h = false ∧
        ∃ tx, GetCachedTransaction (DagTangle:=tangle) h = Some tx ∧
              IsTail (DagTangle:=tangle) tx = true) ∧
  (∀ h, reaches (T:=tangle) "a" h →
        SolidEntryPointsContain (DagTangle:=tangle) h = false →
        is_Some (GetCachedTransaction (DagTangle:=tangle) h)).
Proof.
  split; [reflexivity|].
  exact (FindAllTails_returned (T:=tangle) ["a"; "c"; "b"; "s"] "a" {["b"]} eq_refl).
Defined.

Lemma FindAllTails_failed_witness :
  FindAllTails (T:=pruned) ["a"; "b"; "c"] "a" = Failed "c" ∧
  reaches (T:=pruned) "a" "c" ∧
  SolidEntryPointsContain (DagTangle:=pruned) "c" = false ∧
  GetCachedTransaction (DagTangle:=pruned) "c" = None.
Proof.
  split; [reflexivity|].
  exact (FindAllTails_failed (T:=pruned) ["a"; "b"; "c"] "a" "c" eq_refl).
Defined.

Lemma FindAllTails_bounded_witness :
  closedUnder (T:=tangle) cone "a" ∧
  3 * size cone + 1 ≤ length (replicate 13 "a") ∧
  ∀ st, FindAllTails (T:=tangle) (replicate 13 "a") "a" ≠ Looping st.
Proof.
  split; [exact cone_closed|]. split; [vm_compute; lia|].
  apply (FindAllTails_bounded (T:=tangle) cone (replicate 13 "a") "a");
    [exact cone_closed|vm_compute; lia].
Defined.

Lemma FindAllTails_ends_witness :
  closedUnder (T:=tangle) cone "a" ∧
  ∃ order, length order ≤ 3 * size cone + 1 ∧
    ((∃ ts, FindAllTails (T:=tangle) order "a" = Returned ts) ∨
     (∃ h, FindAllTails (T:=tangle) order "a" = Failed h)).
Proof.
  split; [exact cone_closed|].
  exact (FindAllTails_ends (T:=tangle) cone "a" cone_closed).
Defined.

Lemma FindAllTails_order_independent_witness :
  FindAllTails (T:=tangle) ["a"; "c"; "b"; "s"] "a" = Returned {["b"]} ∧
  (∀ ts', FindAllTails (T:=tangle) ["a"; "b"; "c"; "b"; "s"] "a" = Returned ts' →
          ts' = {["b"]}) ∧
  (∀ h, FindAllTails (T:=tangle) ["a"; "b"; "c"; "b"; "s"] "a" ≠ Failed h).
Proof.
  split; [reflexivity|].
  exact (FindAllTails_order_independent (T:=tangle)
           ["a"; "c"; "b"; "s"] ["a"; "b"; "c"; "b"; "s"] "a" {["b"]} eq_refl).
Defined.

(** The other order ends with the same tails. *)
Example other_order_scenario :
  FindAllTails (T:=tangle) ["a"; "b"; "c"; "b"; "s"] "a" = Returned {["b"]} ∧
  FindAllTails (T:=tangle) ["a"; "b"] "a" = Looping
    {| txsToTraverse := {["c"]}; txsChecked := {["a"; "b"]}; tails := {["b"]} |} ∧
  FindAllTails (T:=tangle) ["a"; "s"] "a" = NotProduced.
Proof. repeat split; reflexivity. Qed.

End DagWitnesses.

(** * The pruning functions on the small database *)

Section PruningWitnesses.
Import snapshot PruningFixture.

Abbreviation node := (database 2%N).
Abbreviation w0 := (world 2%N 60%N).

Lemma returned {A B} (r : A * B) (a : A) : r.1 = a → r = (a, r.2).
Proof. destruct r. simpl. by intros ->. Qed.

Lemma pruneTransactions_deletes_each_once_witness :
  pruneTransactions (D:=node) ["a"] (w0 [["b"; "a"]])
  = (Returns 2, (pruneTransactions (D:=node) ["a"] (w0 [["b"; "a"]])).2) ∧
  ∃ l addresses,
    calls (pruneTransactions (D:=node) ["a"] (w0 [["b"; "a"]])).2
    = calls (w0 [["b"; "a"]]) ++ l ∧
    (removedFromBundle l).*1 = ["a"] ∧
    NoDup (deletedTransactions l) ∧
    list_to_set (deletedTransactions l) = ⋃ (removedFromBundle l).*2 ∧
    deletedApprovers l = deletedTransactions l ∧
    length (deletedTransactions l) = 2 ∧
    deletedAddresses l = [addresses] ∧
    TxHash <$> addresses = deletedTransactions l ∧
    list.last l = Some (CallDeleteTransactionHashesForAddressesInDatabase addresses).
Proof.
  assert (Hrun : pruneTransactions (D:=node) ["a"] (w0 [["b"; "a"]])
                 = (Returns 2, (pruneTransactions (D:=node) ["a"] (w0 [["b"; "a"]])).2))
    by (apply returned; reflexivity).
  split; [exact Hrun|].
  exact (pruneTransactions_deletes_each_once (D:=node) ["a"] (w0 [["b"; "a"]]) 2 _ Hrun).
Defined.


Lemma pruneUnconfirmedTransactions_returns_witness :
  pruneUnconfirmedTransactions (D:=node) 1%N (w0 [["b"; "a"]])
  = (Returns 2, (pruneUnconfirmedTransactions (D:=node) 1%N (w0 [["b"; "a"]])).2) ∧
  ∃ txHashes l,
    ReadFirstSeenTxHashOperations (Database:=node) 1%N (store (w0 [["b"; "a"]]))
    = inr txHashes ∧
    calls (pruneUnconfirmedTransactions (D:=node) 1%N (w0 [["b"; "a"]])).2
    = calls (w0 [["b"; "a"]]) ++ l ∧
    NoDup (removedFromBundle l).*1 ∧
    (∀ h, h ∈ (removedFromBundle l).*1 ↔
          (h ∈ txHashes ∧
           ∃ tx, GetCachedTransaction (Database:=node) h (store (w0 [["b"; "a"]]))
                 = Some tx ∧
                 GetConfirmed (Database:=node) tx = false)) ∧
    length (deletedTransactions l) = 2 ∧
    deletedFirstSeen l = [1%N] ∧
    list.last l = Some (CallDeleteFirstSeenTxHashOperations 1%N).
Proof.
  assert (Hrun : pruneUnconfirmedTransactions (D:=node) 1%N (w0 [["b"; "a"]])
                 = (Returns 2,
                    (pruneUnconfirmedTransactions (D:=node) 1%N (w0 [["b"; "a"]])).2))
    by (apply returned; reflexivity).
  split; [exact Hrun|].
  exact (pruneUnconfirmedTransactions_returns (D:=node) 1%N (w0 [["b"; "a"]]) 2 _ Hrun).
Defined.

Lemma pruneTransactions_panics_witness :
  pruneTransactions (D:=node) ["c"; "x"; "a"] (w0 [])
  = (Panics, (pruneTransactions (D:=node) ["c"; "x"; "a"] (w0 [])).2) ∧
  ∃ l h,
    calls (pruneTransactions (D:=node) ["c"; "x"; "a"] (w0 [])).2
    = calls (w0 []) ++ l ++ peek h ∧
    GetCachedTransaction (Database:=node) h
      (store (pruneTransactions (D:=node) ["c"; "x"; "a"] (w0 [])).2) = None ∧
    deletedAddresses l = [] ∧
    NoDup (deletedTransactions l) ∧ (h ∉ deletedTransactions l) ∧
    deletedApprovers l = deletedTransactions l.
Proof.
  assert (Hrun : pruneTransactions (D:=node) ["c"; "x"; "a"] (w0 [])
                 = (Panics, (pruneTransactions (D:=node) ["c"; "x"; "a"] (w0 [])).2))
    by (apply returned; reflexivity).
  split; [exact Hrun|].
  exact (pruneTransactions_panics (D:=node) ["c"; "x"; "a"] (w0 []) _ Hrun).
Defined.

Lemma pruneUnconfirmedTransactions_finds_what_it_checked_witness :
  (∀ tx s h,
     GetCachedTransaction (Database:=node) h
       (RemoveTransactionFromBundle (Database:=node) tx s).2
     = GetCachedTransaction (Database:=node) h s) ∧
  ReadFirstSeenTxHashOperations (Database:=node) 1%N (store (w0 [["b"; "a"]]))
  = inr ["a"; "c"; "a"; "x"] ∧
  ∃ l,
    calls (pruneUnconfirmedTransactions (D:=node) 1%N (w0 [["b"; "a"]])).2
    = calls (w0 [["b"; "a"]]) ++ l ∧
    (∀ h, h ∈ (removedFromBundle l).*1 ↔
          (h ∈ ["a"; "c"; "a"; "x"] ∧
           ∃ tx, GetCachedTransaction (Database:=node) h (store (w0 [["b"; "a"]]))
                 = Some tx ∧
                 GetConfirmed (Database:=node) tx = false)) ∧
    ((pruneUnconfirmedTransactions (D:=node) 1%N (w0 [["b"; "a"]])).1 = Panics →
     ∃ h, h ∈ ⋃ (removedFromBundle l).*2 ∧
          GetCachedTransaction (Database:=node) h
            (store (pruneUnconfirmedTransactions (D:=node) 1%N (w0 [["b"; "a"]])).2)
          = None).
Proof.
  split; [reflexivity|]. split; [reflexivity|].
  exact (pruneUnconfirmedTransactions_finds_what_it_checked (D:=node) 1%N
           (w0 [["b"; "a"]]) ["a"; "c"; "a"; "x"] (λ _ _ _, eq_refl) eq_refl).
Defined.

Abbreviation tape := [["b"; "a"]; ["c"]; []; []; []].
Abbreviation info0 := {| SnapshotIndex := 60%N; PruningIndex := 0%N |}.

Lemma pruneDatabase_advances_once_witness :
  GetSnapshotInfo (Database:=node) (store (w0 tape)) = Some info0 ∧
  ∃ l,
    calls (pruneDatabase (D:=node) 3 5%N never (w0 tape)).2 = calls (w0 tape) ++ l ∧
    (setPruningIndices l = [] ∨
     let targetIndex := targetIndexOf (D:=node) 5%N info0 in
     (pruneDatabase (D:=node) 3 5%N never (w0 tape)).1 = Returns tt ∧
     setPruningIndices l = [targetIndex] ∧
     list.last l = Some (CallSetSnapshotInfo targetIndex) ∧
     (PruningIndex info0 < targetIndex)%N ∧
     deletedFirstSeen l = fromTo (PruningIndex info0 + 1)%N targetIndex ∧
     sublist (deletedMilestones l) (fromTo (PruningIndex info0 + 1)%N targetIndex) ∧
     ∀ k, (N.of_nat k < targetIndex - PruningIndex info0)%N → never k = false).
Proof.
  split; [reflexivity|].
  exact (pruneDatabase_advances_once (D:=node) 3 5%N never (w0 tape) info0 eq_refl).
Defined.

Lemma pruneDatabase_aborted_witness :
  GetSnapshotInfo (Database:=node) (store (w0 tape)) = Some info0 ∧
  atSecond 1 = true ∧
  (∀ j, j < 1 → atSecond j = false) ∧
  (PruningIndex info0 + N.of_nat 1 < targetIndexOf (D:=node) 5%N info0)%N ∧
  ∃ l,
    calls (pruneDatabase (D:=node) 3 5%N atSecond (w0 tape)).2 = calls (w0 tape) ++ l ∧
    setPruningIndices l = [] ∧
    ((pruneDatabase (D:=node) 3 5%N atSecond (w0 tape)).1 = Returns tt →
     deletedFirstSeen l
     = fromTo (PruningIndex info0 + 1)%N (PruningIndex info0 + N.of_nat 1)%N).
Proof.
  assert (Hbefore : ∀ j, j < 1 → atSecond j = false)
    by (intros [|j] Hj; [reflexivity|lia]).
  split; [reflexivity|]. split; [reflexivity|]. split; [exact Hbefore|].
  split; [reflexivity|].
  exact (pruneDatabase_aborted (D:=node) 3 5%N atSecond (w0 tape) info0 1
           eq_refl eq_refl Hbefore eq_refl).
Defined.

Lemma pruneDatabase_enough_fuel_witness :
  GetSnapshotInfo (Database:=node) (store (w0 tape)) = Some info0 ∧
  (targetIndexOf (D:=node) 5%N info0 + 1 < 2 ^ IndexBits (Database:=node))%N ∧
  (targetIndexOf (D:=node) 5%N info0 - PruningIndex info0 ≤ N.of_nat 3)%N ∧
  (pruneDatabase (D:=node) 3 5%N never (w0 tape)).1 ≠ OutOfFuel.
Proof.
  assert (Hfuel : (targetIndexOf (D:=node) 5%N info0 - PruningIndex info0
                   ≤ N.of_nat 3)%N) by (by vm_compute).
  split; [reflexivity|]. split; [reflexivity|]. split; [exact Hfuel|].
  exact (pruneDatabase_enough_fuel (D:=node) 3 5%N never (w0 tape) info0
           eq_refl eq_refl Hfuel).
Defined.

Abbreviation young := (world 2%N 51%N []).
Abbreviation info1 := {| SnapshotIndex := 51%N; PruningIndex := 0%N |}.

Lemma pruneDatabase_largest_target_witness :
  GetSnapshotInfo (Database:=node) (store young) = Some info1 ∧
  (targetIndexOf (D:=node) 1%N info1 + 1 = 2 ^ IndexBits (Database:=node))%N ∧
  (PruningIndex info1 < targetIndexOf (D:=node) 1%N info1)%N ∧
  ∃ l,
    calls (pruneDatabase (D:=node) 3 1%N never young).2 = calls young ++ l ∧
    setPruningIndices l = [] ∧
    ((pruneDatabase (D:=node) 3 1%N never young).1 = Returns tt →
     ∃ k, never k = true).
Proof.
  split; [reflexivity|]. split; [reflexivity|]. split; [reflexivity|].
  exact (pruneDatabase_largest_target (D:=node) 3 1%N never young info1
           eq_refl eq_refl eq_refl).
Defined.

Lemma targetIndexOf_in_order_witness :
  (5 < 2 ^ IndexBits (Database:=node))%N ∧
  (SnapshotIndex info0 < 2 ^ IndexBits (Database:=node))%N ∧
  (pruningDelay (Database:=node) ≤ 5)%N ∧
  (SolidEntryPointCheckThresholdPast (Database:=node) + AdditionalPruningThreshold + 1
   ≤ SnapshotIndex info0)%N ∧
  targetIndexOf (D:=node) 5%N info0
  = N.min (5 - pruningDelay (Database:=node))
          (SnapshotIndex info0 - SolidEntryPointCheckThresholdPast (Database:=node)
           - AdditionalPruningThreshold - 1).
Proof.
  assert (Hdelay : (pruningDelay (Database:=node) ≤ 5)%N) by (by vm_compute).
  assert (Hpast : (SolidEntryPointCheckThresholdPast (Database:=node)
                   + AdditionalPruningThreshold + 1 ≤ SnapshotIndex info0)%N)
    by (by vm_compute).
  split; [reflexivity|]. split; [reflexivity|]. split; [exact Hdelay|].
  split; [exact Hpast|].
  exact (targetIndexOf_in_order (D:=node) 5%N info0 eq_refl eq_refl Hdelay Hpast).
Defined.

Lemma targetIndexOf_wraps_witness :
  (pruningDelay (Database:=node) < 2 ^ IndexBits (Database:=node))%N ∧
  (SolidEntryPointCheckThresholdPast (Database:=node) + AdditionalPruningThreshold + 1
   < 2 ^ IndexBits (Database:=node))%N ∧
  (1 < pruningDelay (Database:=node))%N ∧
  (SnapshotIndex info1
   < SolidEntryPointCheckThresholdPast (Database:=node)
     + AdditionalPruningThreshold + 1)%N ∧
  targetIndexOf (D:=node) 1%N info1
  = (2 ^ IndexBits (Database:=node)
     - N.max (pruningDelay (Database:=node) - 1)
             (SolidEntryPointCheckThresholdPast (Database:=node)
              + AdditionalPruningThreshold + 1 - SnapshotIndex info1))%N.
Proof.
  split; [reflexivity|]. split; [reflexivity|]. split; [reflexivity|].
  split; [reflexivity|].
  exact (targetIndexOf_wraps (D:=node) 1%N info1 eq_refl eq_refl eq_refl eq_refl).
Defined.

(** Pruning up to milestone 3: the first seen transactions [a] (with
    [b] of its bundle) and the approvee [c] are deleted, milestone 3 is
    passed over for want of its approvees, and the pruning index is set
    to 3. *)
Example pruning_scenario :
  let r := pruneDatabase (D:=node) 3 5%N never (w0 tape) in
  r.1 = Returns tt ∧
  deletedTransactions (calls r.2) = ["b"; "a"; "c"] ∧
  deletedFirstSeen (calls r.2) = [1; 2; 3]%N ∧
  deletedMilestones (calls r.2) = [1; 2]%N ∧
  setPruningIndices (calls r.2) = [3%N] ∧
  ranges r.2 = [] ∧
  dom (txs (store r.2)) = ∅.
Proof. repeat split; reflexivity. Qed.

(** With the abort signal at the second pass, milestone 1 is pruned and
    the pruning index stays as it was; with too short a delay the first
    seen list of milestone 4 cannot be read and the call panics. *)
Example aborted_scenario :
  let r := pruneDatabase (D:=node) 3 5%N atSecond (w0 tape) in
  r.1 = Returns tt ∧
  deletedFirstSeen (calls r.2) = [1%N] ∧
  deletedMilestones (calls r.2) = [1%N] ∧
  setPruningIndices (calls r.2) = [] ∧
  (pruneDatabase (D:=database 1%N) 4 5%N never (world 1%N 60%N tape)).1 = Panics ∧
  (pruneDatabase (D:=node) 2 5%N never (w0 tape)).1 = OutOfFuel ∧
  (pruneDatabase (D:=node) 3 5%N never (w0 [["a"]])).1 = NotARange.
Proof. repeat split; reflexivity. Qed.

End PruningWitnesses.
